(** * A shallow embedding of [mm.c]: a segregated-free-list allocator

    The allocator of [mm.c] manages one contiguous heap obtained from
    [mem_sbrk].  Block headers, footers and the free-list links all live in
    that heap, so the embedding keeps the heap as a finite map from the byte
    address of a word to the word stored there, and threads it (together
    with the two globals [heap_listp] and [seg_first] and the break of the
    [mem_sbrk] arena) through every routine.

    Conventions of the embedding:
    - pointers are integers and pointer arithmetic does not wrap; [NULL] is
      the address [0];
    - values of type [size_t] are integers below [2 ^ (8 * WSIZE)], and the
      arithmetic the code does on them wraps around ([wadd], [wsub],
      [wmul]);
    - the heap is word-granular, and a word that was never written reads as
      [0];
    - the list walk of [find_fit] has no bound in the code, so it takes
      fuel; routines that call it return [None] when the fuel runs out;
    - reads and writes through the pointers of the heap succeed; the only
      reads that can fault are those [checkheap] makes through a local
      pointer it never assigns, and which addresses can be read there is a
      parameter of its model. *)

From Stdlib Require Import ZArith Lia List Bool.
From stdpp Require Import base tactics option list gmap.

Local Open Scope Z_scope.

(** ** Platform and constants *)

(** [WSIZE] is [sizeof(void * )]: the file is "32-bit and 64-bit clean", so
    every definition takes the data model as a parameter. *)
Inductive platform := ILP32 | LP64.

Definition WSIZE (p : platform) : Z :=
  match p with ILP32 => 4 | LP64 => 8 end.

Definition DSIZE (p : platform) : Z := 2 * WSIZE p.
Definition ALIGN_SIZE : Z := 8.
Definition SEGSIZE : Z := 10.
Definition CHUNKSIZE : Z := Z.shiftl 1 12.

(** [size_t] and [uintptr_t] are [8 * WSIZE] bits wide. *)
Definition wbits (p : platform) : Z := 8 * WSIZE p.
Definition wmod (p : platform) : Z := 2 ^ wbits p.

(** Wrap-around arithmetic of [size_t]. *)
Definition wrap (p : platform) (x : Z) : Z := x mod wmod p.
Definition wadd (p : platform) (x y : Z) : Z := wrap p (x + y).
Definition wsub (p : platform) (x y : Z) : Z := wrap p (x - y).
Definition wmul (p : platform) (x y : Z) : Z := wrap p (x * y).

Definition MAX (x y : Z) : Z := if x >? y then x else y.

(** [PACK(size, alloc)] *)
Definition PACK (size alloc : Z) : Z := Z.lor size alloc.

(** ** The heap *)

(** [mem] maps the byte address of an (aligned) word to its contents; a word
    that was never written reads as [0].  [mem_brk] and [mem_max_addr] are
    the state of the [mem_sbrk] arena. *)
Record heap := mkHeap {
  mem : gmap Z Z;
  mem_brk : Z;
  mem_max_addr : Z;
  heap_listp : Z;
  seg_first : Z
}.

Definition GET (st : heap) (a : Z) : Z := default 0 (mem st !! a).

Definition PUT (st : heap) (a v : Z) : heap :=
  mkHeap (<[a := v]> (mem st)) (mem_brk st) (mem_max_addr st)
         (heap_listp st) (seg_first st).

(** [GET_SIZE(p)] is [GET(p) & ~(ALIGN_SIZE - 1)], [GET_ALLOC(p)] is
    [GET(p) & 0x1]. *)
Definition GET_SIZE (st : heap) (a : Z) : Z :=
  Z.land (GET st a) (Z.lnot (ALIGN_SIZE - 1)).
Definition GET_ALLOC (st : heap) (a : Z) : Z := Z.land (GET st a) 1.

Section Macros.
Variable p : platform.

Definition HDRP (bp : Z) : Z := bp - WSIZE p.
Definition FTRP (st : heap) (bp : Z) : Z :=
  bp + GET_SIZE st (HDRP bp) - DSIZE p.
Definition NEXT_BLKP (st : heap) (bp : Z) : Z :=
  bp + GET_SIZE st (bp - WSIZE p).
Definition PREV_BLKP (st : heap) (bp : Z) : Z :=
  bp - GET_SIZE st (bp - DSIZE p).

(** A [struct block_list] at address [bp] keeps [next_list] in its first
    word and [prev_list] in its second. *)
Definition next_list (st : heap) (bp : Z) : Z := GET st bp.
Definition prev_list (st : heap) (bp : Z) : Z := GET st (bp + WSIZE p).
Definition set_next_list (st : heap) (bp v : Z) : heap := PUT st bp v.
Definition set_prev_list (st : heap) (bp v : Z) : heap :=
  PUT st (bp + WSIZE p) v.

(** [&seg_first[i]] *)
Definition seg_entry (st : heap) (i : Z) : Z :=
  seg_first st + i * (2 * WSIZE p).
End Macros.

(** ** Size classes *)

(** [seg_index]: the class of a block size, by a chain of threshold tests. *)
Definition seg_index (size : Z) : Z :=
  if size <=? 32 then 0
  else if size <=? 64 then 1
  else if size <=? 128 then 2
  else if size <=? 256 then 3
  else if size <=? 512 then 4
  else if size <=? 1024 then 5
  else if size <=? 2048 then 6
  else if size <=? 4096 then 7
  else if size <=? 8192 then 8
  else 9.

(** ** Rounding to a power of two *)

Definition next_power_of_2 (p : platform) (n : Z) : Z :=
  let n := wsub p n 1 in
  let n := Z.lor n (Z.shiftr n 1) in
  let n := Z.lor n (Z.shiftr n 2) in
  let n := Z.lor n (Z.shiftr n 4) in
  let n := Z.lor n (Z.shiftr n 8) in
  let n := Z.lor n (Z.shiftr n 16) in
  wadd p n 1.

(** ** Free-list manager *)

Section FreeLists.
Variable p : platform.

(** [list_insert]: link [bp] right after the sentinel of the class of
    [size]. *)
Definition list_insert (st : heap) (bp size : Z) : heap :=
  let start := seg_entry p st (seg_index size) in
  let new_after := next_list st start in
  let st := set_prev_list p st bp start in
  let st := set_next_list st bp new_after in
  let st := set_prev_list p st new_after bp in
  set_next_list st start bp.

(** [list_remove]: make the two neighbours of [bp] point at each other. *)
Definition list_remove (st : heap) (bp : Z) : heap :=
  let new_prev := prev_list p st bp in
  let new_next := next_list st bp in
  let st := set_next_list st new_prev new_next in
  set_prev_list p st new_next new_prev.
End FreeLists.

(** ** The heap-growth primitive *)

(** Modelled from the spec: [mem_sbrk] is declared in [memlib.h], which is
    not part of the sources.  The spec describes it as the collaborator
    [grow_heap(extra_bytes)]: it hands back the address of a region of
    [extra_bytes] bytes contiguous with the prior heap end, or fails when no
    more space is available.  [None] stands for the failure value
    [(void * )-1]. *)
Definition mem_sbrk (st : heap) (incr : Z) : option (Z * heap) :=
  if mem_brk st + incr <=? mem_max_addr st then
    Some (mem_brk st,
          mkHeap (mem st) (mem_brk st + incr) (mem_max_addr st)
                 (heap_listp st) (seg_first st))
  else None.

Definition set_heap_listp (st : heap) (a : Z) : heap :=
  mkHeap (mem st) (mem_brk st) (mem_max_addr st) a (seg_first st).
Definition set_seg_first (st : heap) (a : Z) : heap :=
  mkHeap (mem st) (mem_brk st) (mem_max_addr st) (heap_listp st) a.

(** ** Allocator core *)

Definition NULL : Z := 0.

Section Allocator.
Variable p : platform.

Local Abbreviation W := (WSIZE p).
Local Abbreviation D := (DSIZE p).

(** A C truth value read from an allocated bit. *)
Definition truth (v : Z) : bool := negb (v =? 0).

(** [coalesce]: boundary-tag coalescing in four cases, then the insertion
    of the resulting block.  Every macro is evaluated on the heap as it is
    at that point of the function. *)
Definition coalesce (st : heap) (bp : Z) : Z * heap :=
  let size := GET_SIZE st (HDRP p bp) in
  let prev_alloc := truth (GET_ALLOC st (FTRP p st (PREV_BLKP p st bp))) in
  let next_alloc := truth (GET_ALLOC st (HDRP p (NEXT_BLKP p st bp))) in
  let '(bp, size, st) :=
    if prev_alloc && next_alloc then                      (* Case 1 *)
      (bp, size, st)
    else if prev_alloc && negb next_alloc then            (* Case 2 *)
      let size := wadd p size (GET_SIZE st (HDRP p (NEXT_BLKP p st bp))) in
      let st := list_remove p st (NEXT_BLKP p st bp) in
      let st := PUT st (HDRP p bp) (PACK size 0) in
      let st := PUT st (FTRP p st bp) (PACK size 0) in
      (bp, size, st)
    else if negb prev_alloc && next_alloc then            (* Case 3 *)
      let size := wadd p size (GET_SIZE st (HDRP p (PREV_BLKP p st bp))) in
      let st := list_remove p st (PREV_BLKP p st bp) in
      let st := PUT st (FTRP p st bp) (PACK size 0) in
      let st := PUT st (HDRP p (PREV_BLKP p st bp)) (PACK size 0) in
      (PREV_BLKP p st bp, size, st)
    else                                                  (* Case 4 *)
      let size :=
        wadd p size
             (wadd p (GET_SIZE st (HDRP p (PREV_BLKP p st bp)))
                     (GET_SIZE st (FTRP p st (NEXT_BLKP p st bp)))) in
      let st := list_remove p st (PREV_BLKP p st bp) in
      let st := list_remove p st (NEXT_BLKP p st bp) in
      let st := PUT st (HDRP p (PREV_BLKP p st bp)) (PACK size 0) in
      let st := PUT st (FTRP p st (NEXT_BLKP p st bp)) (PACK size 0) in
      (PREV_BLKP p st bp, size, st) in
  (bp, list_insert p st bp size).

(** The byte count [extend_heap] asks of [mem_sbrk]: an even number of
    words. *)
Definition extend_bytes (words : Z) : Z :=
  if negb (words mod 2 =? 0) then wmul p (wadd p words 1) W
  else wmul p words W.

(** [extend_heap] returns [NULL] (and leaves the heap as it was) when
    [mem_sbrk] fails. *)
Definition extend_heap (st : heap) (words : Z) : Z * heap :=
  let size := extend_bytes words in
  match mem_sbrk st size with
  | None => (NULL, st)
  | Some (bp, st) =>
      let st := PUT st (HDRP p bp) (PACK size 0) in
      let st := PUT st (FTRP p st bp) (PACK size 0) in
      let st := PUT st (HDRP p (NEXT_BLKP p st bp)) (PACK 0 1) in
      coalesce st bp
  end.

(** The inner loop of [find_fit]: walk one class list from [bp] until the
    walk falls on [NULL] or comes back to the sentinel [head].  The loop
    has no bound of its own, so the walk takes fuel; [None] means the fuel
    ran out before the loop ended. *)
Fixpoint find_fit_list (fuel : nat) (st : heap) (head bp asize : Z)
  : option Z :=
  match fuel with
  | O => None
  | S fuel =>
      if (bp =? NULL) || (bp =? head) then Some NULL
      else if asize <=? GET_SIZE st (HDRP p bp) then Some bp
      else find_fit_list fuel st head (next_list st bp) asize
  end.

(** The class indices visited by the outer loop
    [for (i = seg_index(asize); i < SEGSIZE; i++)]. *)
Definition find_fit_classes (asize : Z) : list Z :=
  seqZ (seg_index asize) (SEGSIZE - seg_index asize).

(** The outer loop of [find_fit] over the remaining classes. *)
Fixpoint find_fit_from (fuel : nat) (st : heap) (asize : Z)
         (classes : list Z) : option Z :=
  match classes with
  | [] => Some NULL
  | i :: classes =>
      match find_fit_list fuel st (seg_entry p st i)
                          (next_list st (seg_entry p st i)) asize with
      | None => None
      | Some bp =>
          if bp =? NULL then find_fit_from fuel st asize classes
          else Some bp
      end
  end.

(** [find_fit]: first fit over the classes from [seg_index asize] upwards. *)
Definition find_fit (fuel : nat) (st : heap) (asize : Z) : option Z :=
  find_fit_from fuel st asize (find_fit_classes asize).

(** [place]: unlink [bp], then split it when the remainder is at least the
    minimum block size. *)
Definition place (st : heap) (bp asize : Z) : heap :=
  let csize := GET_SIZE st (HDRP p bp) in
  let st := list_remove p st bp in
  if wsub p csize asize >=? 2 * D then
    let st := PUT st (HDRP p bp) (PACK asize 1) in
    let st := PUT st (FTRP p st bp) (PACK asize 1) in
    let bp := NEXT_BLKP p st bp in
    let st := PUT st (HDRP p bp) (PACK (wsub p csize asize) 0) in
    let st := PUT st (FTRP p st bp) (PACK (wsub p csize asize) 0) in
    list_insert p st bp (wsub p csize asize)
  else
    let st := PUT st (HDRP p bp) (PACK csize 1) in
    PUT st (FTRP p st bp) (PACK csize 1).

(** The adjusted block size: overhead and alignment added to a payload
    size.  [mm_malloc] and [mm_realloc] both compute it this way. *)
Definition adjust_size (size : Z) : Z :=
  if size <=? D then 2 * D
  else wmul p ALIGN_SIZE
            (wadd p (wadd p size D) (ALIGN_SIZE - 1) / ALIGN_SIZE).

(** The payload size [mm_malloc] works with after its rounding step. *)
Definition round_request (size : Z) : Z :=
  if size <=? 16 * D then next_power_of_2 p size else size.

(** [asize] as [mm_malloc] computes it from its argument. *)
Definition malloc_asize (size : Z) : Z := adjust_size (round_request size).

(** [None]: the search for a fit ran out of fuel. *)
Definition mm_malloc (fuel : nat) (st : heap) (size : Z)
  : option (Z * heap) :=
  if size =? 0 then Some (NULL, st)
  else
    let asize := malloc_asize size in
    match find_fit fuel st asize with
    | None => None
    | Some bp =>
        if negb (bp =? NULL) then Some (bp, place st bp asize)
        else
          let extendsize := MAX asize CHUNKSIZE in
          let '(bp, st) := extend_heap st (extendsize / W) in
          if bp =? NULL then Some (NULL, st)
          else Some (bp, place st bp asize)
    end.

(** [mm_free]: clear the allocated bit of both tags and coalesce. *)
Definition mm_free (st : heap) (bp : Z) : heap :=
  if bp =? NULL then st
  else
    let size := GET_SIZE st (HDRP p bp) in
    let st := PUT st (HDRP p bp) (PACK size 0) in
    let st := PUT st (FTRP p st bp) (PACK size 0) in
    snd (coalesce st bp).

(** [memcpy] on a word-granular heap: whole words are copied one by one,
    and a trailing part of [n mod WSIZE] bytes replaces the low-order
    bytes of the last destination word (little-endian byte order). *)
Fixpoint memcpy_words (k : nat) (st : heap) (dst src : Z) : heap :=
  match k with
  | O => st
  | S k => memcpy_words k (PUT st dst (GET st src)) (dst + W) (src + W)
  end.

Definition memcpy (st : heap) (dst src n : Z) : heap :=
  let full := n / W in
  let rest := n mod W in
  let st := memcpy_words (Z.to_nat full) st dst src in
  if rest =? 0 then st
  else
    let mask := Z.ones (8 * rest) in
    let d := dst + full * W in
    let s := src + full * W in
    PUT st d (Z.lor (Z.land (GET st s) mask)
                    (Z.land (GET st d) (Z.lnot mask))).

(** [mm_realloc].  [None]: the search for a fit ran out of fuel. *)
Definition mm_realloc (fuel : nat) (st : heap) (ptr size : Z)
  : option (Z * heap) :=
  if size =? 0 then Some (NULL, mm_free st ptr)
  else if ptr =? NULL then mm_malloc fuel st size
  else
    let asize := adjust_size size in
    let oldsize := wsub p (GET_SIZE st (HDRP p ptr)) D in
    if asize <? wadd p oldsize D then Some (ptr, st)
    else
      let oldsize := if size <? oldsize then size else oldsize in
      match mm_malloc fuel st (wmul p SEGSIZE size) with
      | None => None
      | Some (newptr, st) =>
          if newptr =? NULL then Some (NULL, st)
          else
            let st := memcpy st newptr ptr oldsize in
            Some (newptr, mm_free st ptr)
      end.

(** The loop of [mm_init] that makes every sentinel an empty circular
    list. *)
Definition init_sentinel (st : heap) (i : Z) : heap :=
  let st := set_next_list st (seg_entry p st i) (seg_entry p st i) in
  set_prev_list p st (seg_entry p st i) (seg_entry p st i).

(** [(void * )-1] *)
Definition MINUS_ONE : Z := wmod p - 1.

(** Returns [0] on success and [-1] otherwise. *)
Definition mm_init (st : heap) : Z * heap :=
  match mem_sbrk st (2 * SEGSIZE * W) with
  | None => (-1, set_seg_first st MINUS_ONE)
  | Some (a, st) =>
      let st := set_seg_first st a in
      let st := fold_left init_sentinel (seqZ 0 SEGSIZE) st in
      match mem_sbrk st (4 * W) with
      | None => (-1, set_heap_listp st MINUS_ONE)
      | Some (a, st) =>
          let st := set_heap_listp st a in
          let st := PUT st (heap_listp st) 0 in
          let st := PUT st (heap_listp st + 1 * W) (PACK D 1) in
          let st := PUT st (heap_listp st + 2 * W) (PACK D 1) in
          let st := PUT st (heap_listp st + 3 * W) (PACK 0 1) in
          let st := set_heap_listp st (heap_listp st + 2 * W) in
          let '(bp, st) := extend_heap st (CHUNKSIZE / W) in
          if bp =? NULL then (-1, st) else (0, st)
      end
  end.
End Allocator.

(** A fresh arena of [size] bytes starting at [base], as [mem_init] would
    leave it. *)
Definition fresh_arena (base size : Z) : heap :=
  mkHeap ∅ base (base + size) 0 0.

(** * Specification vocabulary

    The predicates, abstract states and decidable checks that the
    properties below are stated with. *)

(** ** Table access, request sizes and reallocation *)

(** A bounds-checked read of the sentinel table: [None] outside the ten
    entries. *)
Definition seg_entry_checked (p : platform) (st : heap) (i : Z) : option Z :=
  if (0 <=? i) && (i <? SEGSIZE) then Some (seg_entry p st i) else None.

(** The rounding of one small request, as a decidable check: the rounded
    size is the least power of two, and [asize] is the aligned total. *)
Definition small_request_ok (p : platform) (size : Z) : bool :=
  let r := next_power_of_2 p size in
  let asize := malloc_asize p size in
  (round_request p size =? r) &&
  (r =? 2 ^ Z.log2_up size) &&
  (if r <=? DSIZE p then asize =? 2 * DSIZE p
   else (asize mod ALIGN_SIZE =? 0) &&
        (r + DSIZE p <=? asize) && (asize <? r + DSIZE p + ALIGN_SIZE)) &&
  (2 * DSIZE p <=? asize).

(** The test of [mm_realloc] that keeps the block where it is. *)
Definition fits_in_place (p : platform) (st : heap) (ptr size : Z) : bool :=
  adjust_size p size
    <? wadd p (wsub p (GET_SIZE st (HDRP p ptr)) (DSIZE p)) (DSIZE p).

(** The number of bytes [mm_realloc] copies when it moves the block. *)
Definition copy_bytes (p : platform) (st : heap) (ptr size : Z) : Z :=
  let oldsize := wsub p (GET_SIZE st (HDRP p ptr)) (DSIZE p) in
  if size <? oldsize then size else oldsize.

(** The size [mm_realloc] passes to [mm_malloc] when it moves the block:
    the product [SEGSIZE * size] of the call [mm_malloc(SEGSIZE * size)],
    which C computes in [size_t]. *)
Definition realloc_request (p : platform) (size : Z) : Z :=
  wmul p SEGSIZE size.

(** [mm_realloc] from that call on, with [n] for the size passed to
    [mm_malloc]: a failed allocation is reported, otherwise the old
    contents are copied, the old block is freed and the new one is
    returned. *)
Definition realloc_moving (p : platform) (fuel : nat) (st : heap)
           (ptr size n : Z) : option (Z * heap) :=
  match mm_malloc p fuel st n with
  | None => None
  | Some (newptr, st1) =>
      if newptr =? NULL then Some (NULL, st1)
      else Some (newptr,
                 mm_free p (memcpy p st1 newptr ptr
                                   (copy_bytes p st ptr size)) ptr)
  end.

(** The two exits of [mm_malloc] that report failure: a request of zero
    bytes, and no fit in the free lists together with a refusal of
    [mem_sbrk]. *)
Definition malloc_refused (p : platform) (fuel : nat) (st : heap) (n : Z)
  : Prop :=
  n = 0 \/
  (find_fit p fuel st (malloc_asize p n) = Some NULL /\
   mem_sbrk st (extend_bytes p (MAX (malloc_asize p n) CHUNKSIZE / WSIZE p))
     = None).

(** ** Circular class lists *)

Section ClassLists.
Variable p : platform.

Local Abbreviation W := (WSIZE p).

(** Two list cells (two words each) that do not overlap. *)
Definition apart (a b : Z) : Prop := a + 2 * W <= b \/ b + 2 * W <= a.

Definition apartb (a b : Z) : bool := (a + 2 * W <=? b) || (b + 2 * W <=? a).

(** [chain st a l z]: following [next_list] from the cell [a] visits the
    cells of [l] in order and then reaches [z], and every [prev_list]
    leads one cell back. *)
Fixpoint chain (st : heap) (a : Z) (l : list Z) (z : Z) : Prop :=
  match l with
  | [] => next_list st a = z /\ prev_list p st z = a
  | n :: l => next_list st a = n /\ prev_list p st n = a /\ chain st n l z
  end.

Fixpoint chainb (st : heap) (a : Z) (l : list Z) (z : Z) : bool :=
  match l with
  | [] => (next_list st a =? z) && (prev_list p st z =? a)
  | n :: l =>
      (next_list st a =? n) && (prev_list p st n =? a) && chainb st n l z
  end.

(** The circular list of class [i] holds exactly the nodes [l], in
    order. *)
Definition class_list (st : heap) (i : Z) (l : list Z) : Prop :=
  chain st (seg_entry p st i) l (seg_entry p st i).

Definition class_listb (st : heap) (i : Z) (l : list Z) : bool :=
  chainb st (seg_entry p st i) l (seg_entry p st i).
End ClassLists.

(** ** The table of class lists *)

Section SegLists.
Variable p : platform.

Local Abbreviation W := (WSIZE p).

(** The cell [c] is one of the ten sentinels. *)
Definition sentinel (st : heap) (c : Z) : Prop :=
  exists k, 0 <= k < SEGSIZE /\ c = seg_entry p st k.

(** [L j] lists the nodes of class [j]; [c] is a node of some class. *)
Definition node (L : Z -> list Z) (c : Z) : Prop :=
  exists j, 0 <= j < SEGSIZE /\ c ∈ L j.

Definition cell (st : heap) (L : Z -> list Z) (c : Z) : Prop :=
  sentinel st c \/ node L c.

(** The heap holds the ten circular lists [L 0], ..., [L 9]: every class
    list is a well-formed chain through its sentinel, no node occurs twice
    or in two lists, no node is a sentinel, and no two cells overlap. *)
Record seg_lists (st : heap) (L : Z -> list Z) : Prop := {
  sl_chain : forall j, 0 <= j < SEGSIZE -> class_list p st j (L j);
  sl_nodup : forall j, 0 <= j < SEGSIZE -> NoDup (L j);
  sl_class : forall j j' c, 0 <= j < SEGSIZE -> 0 <= j' < SEGSIZE ->
                            c ∈ L j -> c ∈ L j' -> j = j';
  sl_sent : forall c, node L c -> ~ sentinel st c;
  sl_apart : forall c c', cell st L c -> cell st L c' ->
                          c = c' \/ apart p c c'
}.

(** Taking the node [n] out of the lists, and putting it at the head of
    class [i]. *)
Definition unlink (n : Z) (L : Z -> list Z) : Z -> list Z :=
  fun j => filter (fun x => x <> n) (L j).

Definition push (i n : Z) (L : Z -> list Z) : Z -> list Z :=
  fun j => if j =? i then n :: L j else L j.
End SegLists.

(** ** Coalescing *)

Section Coalesce.
Variable p : platform.

Local Abbreviation W := (WSIZE p).
Local Abbreviation D := (DSIZE p).

(** The size recorded in the header of the block [bp]. *)
Definition block_size (st : heap) (bp : Z) : Z := GET_SIZE st (HDRP p bp).

(** The tests of [coalesce] on the two neighbours of [bp]. *)
Definition prev_free (st : heap) (bp : Z) : bool :=
  negb (truth (GET_ALLOC st (FTRP p st (PREV_BLKP p st bp)))).

Definition next_free (st : heap) (bp : Z) : bool :=
  negb (truth (GET_ALLOC st (HDRP p (NEXT_BLKP p st bp)))).

(** The block that results from merging [bp] with its free neighbours. *)
Definition merged_block (st : heap) (bp : Z) : Z :=
  if prev_free st bp then PREV_BLKP p st bp else bp.

Definition merged_size (st : heap) (bp : Z) : Z :=
  block_size st bp
  + (if prev_free st bp then block_size st (PREV_BLKP p st bp) else 0)
  + (if next_free st bp then block_size st (NEXT_BLKP p st bp) else 0).

Definition unlink_if (b : bool) (n : Z) (L : Z -> list Z) : Z -> list Z :=
  if b then unlink n L else L.

(** The class lists after the merge: the absorbed neighbours are gone and
    the merged block heads the list of the class of its size. *)
Definition merged_lists (st : heap) (bp : Z) (L : Z -> list Z) : Z -> list Z :=
  push (seg_index (merged_size st bp)) (merged_block st bp)
       (unlink_if (next_free st bp) (NEXT_BLKP p st bp)
          (unlink_if (prev_free st bp) (PREV_BLKP p st bp) L)).

(** What [coalesce] requires of the newly freed block [bp], of its two
    neighbours and of the class lists [L]. *)
Record coalesce_pre (st : heap) (bp : Z) (L : Z -> list Z) : Prop := {
  cp_lists : seg_lists p st L;
  cp_freed : GET st (HDRP p bp) = PACK (block_size st bp) 0 /\
             GET st (FTRP p st bp) = PACK (block_size st bp) 0;
  cp_size : 2 * D <= block_size st bp;
  cp_fits : merged_size st bp < wmod p;
  cp_prev_tags :
    block_size st (PREV_BLKP p st bp) = GET_SIZE st (bp - D);
  cp_prev : prev_free st bp = true ->
            2 * D <= block_size st (PREV_BLKP p st bp) /\
            node L (PREV_BLKP p st bp);
  cp_next : next_free st bp = true ->
            2 * D <= block_size st (NEXT_BLKP p st bp) /\
            GET_SIZE st (FTRP p st (NEXT_BLKP p st bp))
              = block_size st (NEXT_BLKP p st bp) /\
            node L (NEXT_BLKP p st bp);
  cp_cells : forall c, cell p st L c ->
             (prev_free st bp = true -> c <> PREV_BLKP p st bp) ->
             (next_free st bp = true -> c <> NEXT_BLKP p st bp) ->
             c + 2 * W <= merged_block st bp - W \/
             merged_block st bp + merged_size st bp - W <= c
}.
End Coalesce.

(** The heap on which [mm_free] calls [coalesce]: the tags of [bp] have
    their allocated bit cleared. *)
Definition mark_free (p : platform) (st : heap) (bp : Z) : heap :=
  let size := GET_SIZE st (HDRP p bp) in
  let st := PUT st (HDRP p bp) (PACK size 0) in
  PUT st (FTRP p st bp) (PACK size 0).

(** The heap on which [extend_heap] calls [coalesce]: the new region is a
    free block followed by a new epilogue. *)
Definition fresh_block (p : platform) (st : heap) (bp size : Z) : heap :=
  let st := PUT st (HDRP p bp) (PACK size 0) in
  let st := PUT st (FTRP p st bp) (PACK size 0) in
  PUT st (HDRP p (NEXT_BLKP p st bp)) (PACK 0 1).

(** The block that a successful extension of the heap by [n] bytes returns
    is not the null pointer. *)
Definition grown_block_nonnull (p : platform) (st : heap) (n : Z) : Prop :=
  forall b st2, mem_sbrk st n = Some (b, st2) ->
                fst (coalesce p (fresh_block p st2 b n) b) <> NULL.

(** ** The consistency checker *)

(** The diagnostics of [checkheap] that the properties below talk about. *)
Inductive message :=
  | AdjacentFreeUncoalesced.  (* "Ajacent blocks are free and uncoalesced!" *)

(** What a call of [checkheap] comes to, as far as its first loop: it stops
    at a read that faults, or it goes through the loop and prints [out];
    [ended] tells whether the loop ended within the fuel. *)
Inductive checker_run :=
  | Faulted
  | Walked (out : list message) (ended : bool).

Section Checker.
Variable p : platform.

(** The [while (start != next)] loop of [checkheap], on its own.  The
    second component tells whether the loop ended within the fuel. *)
Fixpoint checkheap_scan (fuel : nat) (st : heap) (start current next : Z)
  : list message * bool :=
  match fuel with
  | O => ([], false)
  | S fuel =>
      if start =? next then ([], true)
      else
        let out :=
          if truth (GET_ALLOC st current) && negb (truth (GET_ALLOC st next))
          then [AdjacentFreeUncoalesced] else [] in
        let '(rest, ended) :=
          checkheap_scan fuel st start next (NEXT_BLKP p st next) in
        (out ++ rest, ended)
  end.

(** The four reads [GET_SIZE(HDRP(bp))], [GET_ALLOC(HDRP(bp))],
    [GET_SIZE(FTRP(bp))] and [GET_ALLOC(FTRP(bp))] that [checkheap] makes
    before the loop.  Nothing has been assigned to the local [bp] at that
    point: [bp] stands for the value it happens to hold and [readable] for
    the addresses that can be read; the reads go through when the header
    and the footer that [bp] designates are both readable. *)
Definition tag_reads_ok (readable : Z -> bool) (st : heap) (bp : Z) : bool :=
  readable (HDRP p bp) && readable (FTRP p st bp).

(** [checkheap] from its entry to the end of that loop: the three
    assignments to [current], [start] and [next], the four reads through
    the unassigned [bp], at which the call stops when one of them faults,
    and the loop.  (The reads through the pointers of the heap itself
    succeed, as everywhere in the embedding.) *)
Definition checkheap_walk (readable : Z -> bool) (fuel : nat) (st : heap)
           (bp : Z) : checker_run :=
  let current := heap_listp st in
  let start := heap_listp st in
  let next := NEXT_BLKP p st start in
  if tag_reads_ok readable st bp then
    let '(out, ended) := checkheap_scan fuel st start current next in
    Walked out ended
  else Faulted.

(** The physical chain of blocks, as the loop
    [for (bp = heap_listp; GET_SIZE(HDRP(bp)) > 0; bp = NEXT_BLKP(bp))]
    of [checkheap] visits it; the walk stops at the epilogue (or when the
    fuel is spent). *)
Fixpoint heap_blocks (fuel : nat) (st : heap) (bp : Z) : list Z :=
  match fuel with
  | O => []
  | S fuel =>
      if GET_SIZE st (HDRP p bp) >? 0
      then bp :: heap_blocks fuel st (NEXT_BLKP p st bp)
      else []
  end.

Definition is_free (st : heap) (bp : Z) : bool :=
  negb (truth (GET_ALLOC st (HDRP p bp))).

(** Two physically adjacent blocks that are both free. *)
Fixpoint adjacent_free (st : heap) (bps : list Z) : bool :=
  match bps with
  | [] => false
  | bp :: bps' =>
      (is_free st bp && is_free st (NEXT_BLKP p st bp))
      || adjacent_free st bps'
  end.

(** The nodes of a class list, as the inner loop of [find_fit] walks it. *)
Fixpoint list_nodes (fuel : nat) (st : heap) (head bp : Z) : list Z :=
  match fuel with
  | O => []
  | S fuel =>
      if (bp =? NULL) || (bp =? head) then []
      else bp :: list_nodes fuel st head (next_list st bp)
  end.

Definition class_nodes (fuel : nat) (st : heap) (i : Z) : list Z :=
  list_nodes fuel st (seg_entry p st i) (next_list st (seg_entry p st i)).

(** How often the block [bp] occurs in the list of class [i]. *)
Definition occurrences (fuel : nat) (st : heap) (i bp : Z) : nat :=
  length (filter (fun n => n = bp) (class_nodes fuel st i)).

(** Free-list membership of one block: a free block is once in the list
    of its class and in no other list, an allocated block is in none. *)
Definition block_membership_ok (fuel : nat) (st : heap) (bp : Z) : bool :=
  forallb
    (fun i =>
       Nat.eqb (occurrences fuel st i bp)
               (if is_free st bp &&
                   (i =? seg_index (GET_SIZE st (HDRP p bp)))
                then 1%nat else 0%nat))
    (seqZ 0 SEGSIZE).

Definition membership_ok (fuel : nat) (st : heap) : bool :=
  forallb (block_membership_ok fuel st)
          (heap_blocks fuel st (heap_listp st)).
End Checker.

(** ** Decidable versions, for checking concrete heaps *)

Section Checkers.
Variable p : platform.

Local Abbreviation W := (WSIZE p).
Local Abbreviation D := (DSIZE p).

Fixpoint all_apartb (l : list Z) : bool :=
  match l with
  | [] => true
  | c :: l => forallb (apartb p c) l && all_apartb l
  end.

Fixpoint nodes_from (L : Z -> list Z) (js : list Z) : list Z :=
  match js with
  | [] => []
  | j :: js => L j ++ nodes_from L js
  end.

Definition cells_of (st : heap) (L : Z -> list Z) : list Z :=
  (seg_entry p st <$> seqZ 0 SEGSIZE) ++ nodes_from L (seqZ 0 SEGSIZE).

Definition seg_listsb (st : heap) (L : Z -> list Z) : bool :=
  forallb (fun j => class_listb p st j (L j)) (seqZ 0 SEGSIZE)
  && all_apartb (cells_of st L).

Definition memberb (c : Z) (l : list Z) : bool := existsb (Z.eqb c) l.

End Checkers.

(** ** First fit *)

Section FitModel.
Variable p : platform.

(** The test of [find_fit] on one block. *)
Definition fits (st : heap) (asize bp : Z) : bool :=
  asize <=? GET_SIZE st (HDRP p bp).

(** The nodes [find_fit] looks at, in the order it looks at them. *)
Definition scan_order (L : Z -> list Z) (asize : Z) : list Z :=
  concat (map L (find_fit_classes asize)).

(** First fit over the class lists [L]: the first node in scan order that
    is large enough, [NULL] when there is none. *)
Definition first_fit (st : heap) (L : Z -> list Z) (asize : Z) : Z :=
  match find (fits st asize) (scan_order L asize) with
  | Some bp => bp
  | None => NULL
  end.
End FitModel.

(** ** The free table *)

Section FreeTable.
Variable p : platform.

Local Abbreviation W := (WSIZE p).
Local Abbreviation D := (DSIZE p).

(** The class lists [L] hold well-formed free blocks: every node is a block
    of at least the minimum size whose header and footer record that size
    with the allocated bit clear, it is in the list of the class of its
    size, and the blocks overlap neither each other nor the sentinel
    table. *)
Record free_table (st : heap) (L : Z -> list Z) : Prop := {
  ft_lists : seg_lists p st L;
  ft_pos : forall n, node L n -> 0 < n;
  ft_size : forall n, node L n -> 2 * D <= block_size p st n < wmod p;
  ft_class : forall j n, 0 <= j < SEGSIZE -> n ∈ L j ->
                         seg_index (block_size p st n) = j;
  ft_tags : forall n, node L n ->
            GET st (HDRP p n) = PACK (block_size p st n) 0 /\
            GET st (n + block_size p st n - D) = PACK (block_size p st n) 0;
  ft_sent : forall c n, sentinel p st c -> node L n ->
            c + 2 * W <= n - W \/ n + block_size p st n - W <= c;
  ft_disj : forall n n', node L n -> node L n' -> n <> n' ->
            n + block_size p st n <= n' \/ n' + block_size p st n' <= n
}.

(** [place] splits when the remainder is a block of its own. *)
Definition place_splits (st : heap) (bp asize : Z) : bool :=
  2 * D <=? block_size p st bp - asize.

(** The size of the block [place] marks allocated. *)
Definition placed_size (st : heap) (bp asize : Z) : Z :=
  if place_splits st bp asize then asize else block_size p st bp.

(** The class lists after [place]. *)
Definition placed_lists (st : heap) (bp asize : Z) (L : Z -> list Z)
  : Z -> list Z :=
  if place_splits st bp asize
  then push (seg_index (block_size p st bp - asize)) (bp + asize)
            (unlink bp L)
  else unlink bp L.
End FreeTable.

(** ** Decidable versions of the free table *)

Section TableCheckers.
Variable p : platform.

Local Abbreviation W := (WSIZE p).
Local Abbreviation D := (DSIZE p).

Definition all_nodes (L : Z -> list Z) : list Z :=
  nodes_from L (seqZ 0 SEGSIZE).

Definition free_blockb (st : heap) (L : Z -> list Z) (n : Z) : bool :=
  let sz := block_size p st n in
  (0 <? n) && (2 * D <=? sz) && (sz <? wmod p)
  && (GET st (HDRP p n) =? PACK sz 0) && (GET st (n + sz - D) =? PACK sz 0)
  && forallb (fun c => (c + 2 * W <=? n - W) || (n + sz - W <=? c))
             (seg_entry p st <$> seqZ 0 SEGSIZE)
  && forallb (fun n' => (n =? n')
                        || (n + sz <=? n')
                        || (n' + block_size p st n' <=? n))
             (all_nodes L).

Definition free_tableb (st : heap) (L : Z -> list Z) : bool :=
  seg_listsb p st L
  && forallb (free_blockb st L) (all_nodes L)
  && forallb (fun j => forallb (fun n => seg_index (block_size p st n) =? j)
                               (L j))
             (seqZ 0 SEGSIZE).

(** Enough fuel to walk every class list to its end. *)
Definition fuel_coversb (fuel : nat) (L : Z -> list Z) : bool :=
  forallb (fun j => (length (L j) <? fuel)%nat) (seqZ 0 SEGSIZE).
End TableCheckers.

(** ** The arena and the globals *)

(** The allocator's two globals and the end of the arena are the same in
    both heaps. *)
Definition same_globals (st st' : heap) : Prop :=
  seg_first st' = seg_first st /\ heap_listp st' = heap_listp st /\
  mem_max_addr st' = mem_max_addr st.

(** Nothing but the contents of memory differs. *)
Definition same_arena (st st' : heap) : Prop :=
  same_globals st st' /\ mem_brk st' = mem_brk st.

(** The cell at [n] overlaps no cell of the table. *)
Definition fresh_cellb (p : platform) (st : heap) (L : Z -> list Z) (n : Z)
  : bool :=
  forallb (apartb p n) (cells_of p st L).

(** ** The heap that [mm_init] builds *)

(** The class lists right after [mm_init]: one block, the first chunk. *)
Definition no_lists : Z -> list Z := fun _ => [].

Definition first_chunk (p : platform) (base : Z) : Z := base + 24 * WSIZE p.

Definition initial_lists (p : platform) (base : Z) : Z -> list Z :=
  push (seg_index CHUNKSIZE) (first_chunk p base) no_lists.

(** The bytes [mm_init] asks of [mem_sbrk] in its three requests. *)
Definition init_bytes (p : platform) : Z :=
  2 * SEGSIZE * WSIZE p + 4 * WSIZE p + CHUNKSIZE.

(** ** The block checker *)

(** The lines [checkblock] prints. *)
Inductive block_message :=
  | NotDoublewordAligned (bp : Z)        (* "Error: %p is not doubleword aligned!" *)
  | HeaderFooterMismatch                 (* "Error: header does not match footer!" *)
  | FoundInFreeList (bp index : Z)       (* "Found %p in free list index %u" *)
  | NotInFreeList (bp index size : Z)    (* "Error: %p not in free ist at index %u at size %zu" *)
  | FoundNonFree (bp : Z).               (* "Found non-free block %p" *)

(** The loop of the branch for a free block: [Some true] when the walk
    meets [bp], [Some false] when it falls on [NULL], [None] when the fuel
    runs out first. *)
Fixpoint checkblock_free_walk (fuel : nat) (st : heap) (i bp : Z)
  : option bool :=
  match fuel with
  | O => None
  | S fuel =>
      if i =? NULL then Some false
      else if i =? bp then Some true
      else checkblock_free_walk fuel st (next_list st i) bp
  end.

(** The loop of the branch for an allocated block. *)
Fixpoint checkblock_alloc_walk (fuel : nat) (st : heap) (i bp : Z)
  : option bool :=
  match fuel with
  | O => None
  | S fuel =>
      if i =? NULL then Some false
      else if i =? bp then Some true
      else if (i =? NULL) || (next_list st i =? NULL) then Some false
      else checkblock_alloc_walk fuel st (next_list st i) bp
  end.

(** [checkblock]: the lines it prints, or [None] when a walk runs out of
    fuel. *)
Definition checkblock (p : platform) (fuel : nat) (st : heap) (bp : Z)
  : option (list block_message) :=
  let aligned :=
    if negb (bp mod DSIZE p =? 0) then [NotDoublewordAligned bp] else [] in
  let tags :=
    if negb (GET st (HDRP p bp) =? GET st (FTRP p st bp))
    then [HeaderFooterMismatch] else [] in
  let index := seg_index (GET_SIZE st (HDRP p bp)) in
  let i := seg_first st in
  if negb (truth (GET_ALLOC st (HDRP p bp))) then
    match checkblock_free_walk fuel st i bp with
    | None => None
    | Some true => Some (aligned ++ tags ++ [FoundInFreeList bp index])
    | Some false =>
        Some (aligned ++ tags
              ++ [NotInFreeList bp index (GET_SIZE st (HDRP p bp))])
    end
  else
    match checkblock_alloc_walk fuel st i bp with
    | None => None
    | Some true => Some (aligned ++ tags ++ [FoundNonFree bp])
    | Some false => Some (aligned ++ tags)
    end.

(** ** Freeing a block *)

Section FreePre.
Variable p : platform.

Local Abbreviation W := (WSIZE p).
Local Abbreviation D := (DSIZE p).

(** The boundary tags next to the block [bp]: the footer of the block before
    it and the header of the block after it. *)
Definition prev_is_free (st : heap) (bp : Z) : bool :=
  GET_ALLOC st (bp - D) =? 0.

Definition next_is_free (st : heap) (bp : Z) : bool :=
  GET_ALLOC st (HDRP p (NEXT_BLKP p st bp)) =? 0.

(** The free block that [mm_free] leaves in place of [bp], its size, and the
    class lists after the call. *)
Definition freed_block (st : heap) (bp : Z) : Z :=
  if prev_is_free st bp then PREV_BLKP p st bp else bp.

Definition freed_size (st : heap) (bp : Z) : Z :=
  block_size p st bp
  + (if prev_is_free st bp then GET_SIZE st (bp - D) else 0)
  + (if next_is_free st bp then block_size p st (NEXT_BLKP p st bp) else 0).

Definition freed_lists (st : heap) (bp : Z) (L : Z -> list Z) : Z -> list Z :=
  push (seg_index (freed_size st bp)) (freed_block st bp)
       (unlink_if (next_is_free st bp) (NEXT_BLKP p st bp)
          (unlink_if (prev_is_free st bp) (PREV_BLKP p st bp) L)).

(** What [mm_free] requires of [bp]: a block of at least the minimum size
    that overlaps neither a listed block nor the table, between two
    neighbours with consistent boundary tags that are listed when they are
    free. *)
Record free_pre (st : heap) (bp : Z) (L : Z -> list Z) : Prop := {
  fp_table : free_table p st L;
  fp_pos : 0 < bp;
  fp_size : 2 * D <= block_size p st bp;
  fp_fits : freed_size st bp < wmod p;
  fp_apart : forall n, node L n ->
             n + block_size p st n <= bp \/ bp + block_size p st bp <= n;
  fp_sent : forall c, sentinel p st c ->
            c + 2 * W <= bp - W \/ bp + block_size p st bp - W <= c;
  fp_prev_size : 0 < GET_SIZE st (bp - D) /\
                 block_size p st (PREV_BLKP p st bp) = GET_SIZE st (bp - D);
  fp_prev : prev_is_free st bp = true -> node L (PREV_BLKP p st bp);
  fp_next : next_is_free st bp = true -> node L (NEXT_BLKP p st bp)
}.

Definition free_preb (st : heap) (bp : Z) (L : Z -> list Z) : bool :=
  free_tableb p st L
  && (0 <? bp)
  && (2 * D <=? block_size p st bp)
  && (freed_size st bp <? wmod p)
  && forallb (fun n => (n + block_size p st n <=? bp)
                       || (bp + block_size p st bp <=? n))
             (all_nodes L)
  && forallb (fun c => (c + 2 * W <=? bp - W)
                       || (bp + block_size p st bp - W <=? c))
             (seg_entry p st <$> seqZ 0 SEGSIZE)
  && (0 <? GET_SIZE st (bp - D))
  && (block_size p st (PREV_BLKP p st bp) =? GET_SIZE st (bp - D))
  && (if prev_is_free st bp
      then memberb (PREV_BLKP p st bp) (all_nodes L) else true)
  && (if next_is_free st bp
      then memberb (NEXT_BLKP p st bp) (all_nodes L) else true).
End FreePre.

(** ** Growing the heap *)

Section GrowPre.
Variable p : platform.

Local Abbreviation W := (WSIZE p).
Local Abbreviation D := (DSIZE p).

(** The block [extend_heap] returns when it grows the heap by [size] bytes:
    the new region, merged with the last block of the heap when the footer
    below the break says that block is free. *)
Definition grown_block (st : heap) : Z :=
  if prev_is_free p st (mem_brk st)
  then PREV_BLKP p st (mem_brk st) else mem_brk st.

Definition grown_size (st : heap) (size : Z) : Z :=
  size + (if prev_is_free p st (mem_brk st)
          then GET_SIZE st (mem_brk st - D) else 0).

Definition grown_lists (st : heap) (size : Z) (L : Z -> list Z)
  : Z -> list Z :=
  push (seg_index (grown_size st size)) (grown_block st)
       (unlink_if (prev_is_free p st (mem_brk st))
                  (PREV_BLKP p st (mem_brk st)) L).

(** What [extend_heap] requires of the heap it grows by [size] bytes: the
    arena has room, the free table lies below the break, and the last block
    has consistent boundary tags and is listed when it is free. *)
Record grow_pre (st : heap) (size : Z) (L : Z -> list Z) : Prop := {
  gp_table : free_table p st L;
  gp_pos : 0 < mem_brk st;
  gp_room : mem_brk st + size <= mem_max_addr st;
  gp_size : 2 * D <= size /\ size mod 8 = 0;
  gp_fits : grown_size st size < wmod p;
  gp_below : forall n, node L n -> n + block_size p st n <= mem_brk st;
  gp_sent : forall c, sentinel p st c -> c + 2 * W <= mem_brk st - W;
  gp_prev_size :
    0 < GET_SIZE st (mem_brk st - D) /\
    block_size p st (PREV_BLKP p st (mem_brk st))
      = GET_SIZE st (mem_brk st - D);
  gp_prev : prev_is_free p st (mem_brk st) = true ->
            node L (PREV_BLKP p st (mem_brk st))
}.

Definition grow_preb (st : heap) (size : Z) (L : Z -> list Z) : bool :=
  free_tableb p st L
  && (0 <? mem_brk st)
  && (mem_brk st + size <=? mem_max_addr st)
  && (2 * D <=? size) && (size mod 8 =? 0)
  && (grown_size st size <? wmod p)
  && forallb (fun n => n + block_size p st n <=? mem_brk st) (all_nodes L)
  && forallb (fun c => c + 2 * W <=? mem_brk st - W)
             (seg_entry p st <$> seqZ 0 SEGSIZE)
  && (0 <? GET_SIZE st (mem_brk st - D))
  && (block_size p st (PREV_BLKP p st (mem_brk st))
      =? GET_SIZE st (mem_brk st - D))
  && (if prev_is_free p st (mem_brk st)
      then memberb (PREV_BLKP p st (mem_brk st)) (all_nodes L) else true).
End GrowPre.

(** ** Example heaps *)

(** A heap right after [mm_init] on a 64-bit machine, with an arena of
    [size] bytes at address 4096. *)
Definition init_heap (size : Z) : heap :=
  snd (mm_init LP64 (fresh_arena 4096 size)).

(** The same heap after [mm_malloc(16)], which returns the block 4288. *)
Definition heap_with_block (size : Z) : heap :=
  match mm_malloc LP64 8 (init_heap size) 16 with
  | Some (_, st) => st
  | None => init_heap size
  end.

(** The heap after [mm_init] and [mm_malloc(1000)], which also returns the
    block 4288. *)
Definition heap_with_large_block (size : Z) : heap :=
  match mm_malloc LP64 8 (init_heap size) 1000 with
  | Some (_, st) => st
  | None => init_heap size
  end.

(** An arena that [mm_init] fills completely: a later [mem_sbrk] fails. *)
Definition full_arena_size : Z := 2 * SEGSIZE * 8 + 4 * 8 + CHUNKSIZE.

(** Running a first call and then a second on its heap. *)
Definition then_malloc (r : option (Z * heap)) (size : Z)
  : option (Z * heap) :=
  match r with
  | Some (_, st) => mm_malloc LP64 8 st size
  | None => None
  end.

(** The largest [size_t] of a 64-bit machine, [SIZE_MAX]. *)
Definition SIZE_MAX : Z := wmod LP64 - 1.

(** [mm_init(); p = mm_malloc(SIZE_MAX); q = mm_malloc(16)] *)
Definition overflow_run : option (Z * heap) :=
  then_malloc (mm_malloc LP64 8 (init_heap 8192) SIZE_MAX) 16.

(** The heap after these three calls. *)
Definition overflow_heap : heap :=
  match overflow_run with Some (_, st) => st | None => init_heap 8192 end.

(** The heap that a call of [mm_malloc] leaves. *)
Definition run_malloc (st : heap) (size : Z) : heap :=
  match mm_malloc LP64 8 st size with
  | Some (_, st') => st'
  | None => st
  end.

(** Four 32-byte blocks at 4288, 4320, 4352 and 4384, of which the first
    and the third are freed again; the rest of the chunk is the free block
    4416. *)
Definition heap_with_gaps : heap :=
  let st := fold_left run_malloc [16; 16; 16; 16] (init_heap 8192) in
  mm_free LP64 (mm_free LP64 st 4288) 4352.

(** The class lists of [heap_with_gaps]. *)
Definition lists_with_gaps : Z -> list Z :=
  fun j => if j =? 0 then [4352; 4288] else if j =? 7 then [4416] else [].

(** * Properties *)

(** ** Size classes *)

Lemma seg_index_range (size : Z) : 0 <= seg_index size < SEGSIZE.
Proof.
  unfold seg_index, SEGSIZE.
  repeat (match goal with |- context [?a <=? ?b] => destruct (a <=? b) end);
    lia.
Qed.

Lemma seg_index_mono (a b : Z) : a <= b -> seg_index a <= seg_index b.
Proof.
  intros Hab. unfold seg_index.
  repeat (match goal with
          | |- context [?x <=? ?y] => destruct (Z.leb_spec x y)
          end); lia.
Qed.

(** C6: [seg_index] is monotonic non-decreasing, and it sorts sizes by the
    thresholds 32, 64, 128, 256, 512, 1024, 2048, 4096 and 8192 into the
    classes 0 to 8, every larger size going to class 9. *)
Theorem seg_index_monotone_thresholds (a b : Z) :
  a <= b ->
  seg_index a <= seg_index b /\
  (a <= 32 -> seg_index a = 0) /\
  (32 < a <= 64 -> seg_index a = 1) /\
  (64 < a <= 128 -> seg_index a = 2) /\
  (128 < a <= 256 -> seg_index a = 3) /\
  (256 < a <= 512 -> seg_index a = 4) /\
  (512 < a <= 1024 -> seg_index a = 5) /\
  (1024 < a <= 2048 -> seg_index a = 6) /\
  (2048 < a <= 4096 -> seg_index a = 7) /\
  (4096 < a <= 8192 -> seg_index a = 8) /\
  (8192 < a -> seg_index a = 9).
Proof.
  intros Hab. split; [by apply seg_index_mono|].
  unfold seg_index.
  repeat (match goal with
          | |- context [?x <=? ?y] => destruct (Z.leb_spec x y)
          end); repeat split; intros; lia.
Qed.

Lemma seg_index_monotone_thresholds_witness :
  seg_index 48 <= seg_index 5000 /\ seg_index 48 = 1.
Proof.
  destruct (seg_index_monotone_thresholds 48 5000) as (Hm & _ & H1 & _).
  - lia.
  - split; [exact Hm | apply H1; lia].
Defined.

(** C9: [seg_index] always lands inside the ten-entry sentinel table, so the
    table reads of [list_insert] (entry [seg_index size]) and of the scan of
    [find_fit] (entries [seg_index asize] up to [SEGSIZE - 1]) pass a bounds
    check. *)
Theorem seg_index_in_table (p : platform) (st : heap) (size : Z) :
  0 <= seg_index size <= 9 /\
  seg_index size < SEGSIZE /\
  seg_entry_checked p st (seg_index size)
    = Some (seg_entry p st (seg_index size)) /\
  Forall (fun i => seg_entry_checked p st i = Some (seg_entry p st i))
         (find_fit_classes size).
Proof.
  pose proof (seg_index_range size) as Hr. unfold SEGSIZE in Hr.
  assert (Hin : forall i, 0 <= i < 10 ->
            seg_entry_checked p st i = Some (seg_entry p st i)).
  { intros i Hi. unfold seg_entry_checked, SEGSIZE.
    destruct (Z.leb_spec 0 i); [|lia]. destruct (Z.ltb_spec i 10); [|lia].
    done. }
  repeat split; try (unfold SEGSIZE; lia).
  - apply Hin; lia.
  - apply Forall_forall. intros i Hi. apply Hin.
    unfold find_fit_classes, SEGSIZE in Hi.
    apply elem_of_seqZ in Hi. lia.
Qed.

(** ** Request rounding in [mm_malloc] *)

Lemma forallb_seqZ (f : Z -> bool) (lo n x : Z) :
  forallb f (seqZ lo n) = true -> lo <= x < lo + n -> f x = true.
Proof.
  intros Hall Hx. rewrite forallb_forall in Hall. apply Hall.
  apply list_elem_of_In, elem_of_seqZ. lia.
Qed.

Lemma small_requests_ok (p : platform) (size : Z) :
  1 <= size <= 16 * DSIZE p -> small_request_ok p size = true.
Proof.
  intros Hs.
  apply (forallb_seqZ (small_request_ok p) 1 (16 * DSIZE p)); [|lia].
  destruct p; vm_compute; reflexivity.
Qed.

(** C7: for a request of 1 to [16 * DSIZE] bytes, [mm_malloc] first rounds
    the size up to the least power of two that is at least the request; the
    block size [asize] is then two double-words when the rounded size is at
    most one double-word, and otherwise the rounded size plus one
    double-word, rounded up to a multiple of [ALIGN_SIZE]; [asize] is never
    below two double-words. *)
Theorem malloc_asize_small_request (p : platform) (size : Z) :
  1 <= size <= 16 * DSIZE p ->
  let r := next_power_of_2 p size in
  round_request p size = r /\
  (exists k, 0 <= k /\ r = 2 ^ k /\ size <= r /\
             forall j, 0 <= j -> size <= 2 ^ j -> r <= 2 ^ j) /\
  (r <= DSIZE p -> malloc_asize p size = 2 * DSIZE p) /\
  (DSIZE p < r ->
     malloc_asize p size mod ALIGN_SIZE = 0 /\
     r + DSIZE p <= malloc_asize p size < r + DSIZE p + ALIGN_SIZE) /\
  2 * DSIZE p <= malloc_asize p size.
Proof.
  intros Hs r. pose proof (small_requests_ok p size Hs) as Hok.
  unfold small_request_ok in Hok. fold r in Hok.
  apply andb_prop in Hok as [Hok Hmin]. apply andb_prop in Hok as [Hok Hcase].
  apply andb_prop in Hok as [Hround Hpow].
  apply Z.eqb_eq in Hround. apply Z.eqb_eq in Hpow. apply Z.leb_le in Hmin.
  split; [exact Hround|]. split; [|split; [|split]].
  - exists (Z.log2_up size). split; [apply Z.log2_up_nonneg|].
    split; [exact Hpow|]. split.
    + rewrite Hpow. destruct (Z.eq_dec size 1) as [->|Hne]; [done|].
      apply Z.log2_up_spec. lia.
    + intros j Hj Hle. rewrite Hpow. apply Z.pow_le_mono_r; [lia|].
      apply Z.log2_up_le_pow2; lia.
  - intros Hr. destruct (Z.leb_spec r (DSIZE p)); [|lia].
    by apply Z.eqb_eq.
  - intros Hr. destruct (Z.leb_spec r (DSIZE p)); [lia|].
    apply andb_prop in Hcase as [Hcase Hhi].
    apply andb_prop in Hcase as [Hmod Hlo].
    apply Z.eqb_eq in Hmod. apply Z.leb_le in Hlo. apply Z.ltb_lt in Hhi.
    lia.
  - exact Hmin.
Qed.

Lemma malloc_asize_small_request_witness :
  round_request LP64 100 = next_power_of_2 LP64 100 /\
  2 * DSIZE LP64 <= malloc_asize LP64 100.
Proof.
  destruct (malloc_asize_small_request LP64 100) as (H1 & _ & _ & _ & H2).
  - unfold DSIZE, WSIZE. lia.
  - split; [exact H1 | exact H2].
Defined.

Example next_power_of_2_100 : next_power_of_2 LP64 100 = 128.
Proof. reflexivity. Qed.

Example malloc_asize_100 : malloc_asize LP64 100 = 144.
Proof. reflexivity. Qed.

Example malloc_asize_1_ilp32 : malloc_asize ILP32 1 = 16.
Proof. reflexivity. Qed.

(** ** Reallocation *)

(** Masking with [~(ALIGN_SIZE - 1)] clears the three low bits. *)
Lemma clear_low_bits (v : Z) :
  Z.land v (Z.lnot (ALIGN_SIZE - 1)) = 8 * (v / 8).
Proof.
  change (Z.lnot (ALIGN_SIZE - 1)) with (Z.lnot (Z.ones 3)).
  rewrite <- Z.ldiff_land, Z.ldiff_ones_r by lia.
  rewrite Z.shiftl_mul_pow2, Z.shiftr_div_pow2 by lia.
  change (2 ^ 3) with 8. lia.
Qed.

Lemma wrap_small (p : platform) (x : Z) : 0 <= x < wmod p -> wrap p x = x.
Proof. intros Hx. unfold wrap. by apply Z.mod_small. Qed.

Lemma wadd_wsub_cancel (p : platform) (x d : Z) :
  0 <= x < wmod p -> wadd p (wsub p x d) d = x.
Proof.
  intros Hx. unfold wadd, wsub, wrap.
  rewrite Zplus_mod_idemp_l. replace (x - d + d) with x by lia.
  by apply Z.mod_small.
Qed.

Lemma mm_realloc_moves (p : platform) (fuel : nat) (st : heap) (ptr size : Z) :
  ptr <> NULL -> 0 < size -> fits_in_place p st ptr size = false ->
  mm_realloc p fuel st ptr size =
    match mm_malloc p fuel st (wmul p SEGSIZE size) with
    | None => None
    | Some (newptr, st1) =>
        if newptr =? NULL then Some (NULL, st1)
        else Some (newptr,
                   mm_free p (memcpy p st1 newptr ptr
                                     (copy_bytes p st ptr size)) ptr)
    end.
Proof.
  intros Hptr Hsize Hfit. unfold mm_realloc.
  destruct (Z.eqb_spec size 0); [lia|].
  destruct (Z.eqb_spec ptr NULL); [done|].
  unfold fits_in_place in Hfit. rewrite Hfit. reflexivity.
Qed.

(** The product of [mm_realloc] is never the requested size itself: nine
    is odd, so [9 * size] is no multiple of the word modulus. *)
Lemma realloc_request_differs (p : platform) (size : Z) :
  0 < size < wmod p -> realloc_request p size <> size.
Proof.
  intros Hsize Heq. unfold realloc_request, wmul, wrap, SEGSIZE in Heq.
  assert (Hm : 0 < wmod p) by lia.
  pose proof (Z.div_mod (10 * size) (wmod p) ltac:(lia)) as Hdm.
  rewrite Heq in Hdm.
  assert (Hdiv : (wmod p | 9 * size)).
  { exists (10 * size / wmod p). lia. }
  assert (Hgcd : Z.gcd (wmod p) 9 = 1) by (destruct p; reflexivity).
  apply Z.gauss in Hdiv; [|exact Hgcd].
  apply Z.divide_pos_le in Hdiv; lia.
Qed.

(** C1, as stated, fails: for a large request the product wraps around, and
    the size passed to [mm_malloc] is not ten times the requested size.
    With a 32-byte block at 4288, [mm_realloc(4288, 1844674407370955162)]
    is on the moving path and asks [mm_malloc] for 4 bytes. *)
Lemma realloc_request_wraps :
  ~ (forall (p : platform) (fuel : nat) (st : heap) (ptr size : Z),
        ptr <> NULL -> 0 < size < wmod p ->
        fits_in_place p st ptr size = false ->
        mm_realloc p fuel st ptr size
          = realloc_moving p fuel st ptr size (realloc_request p size) /\
        realloc_request p size = SEGSIZE * size).
Proof.
  intros Hclaim.
  destruct (Hclaim LP64 8%nat (heap_with_block 8192) 4288
                   1844674407370955162) as [_ Hten].
  - unfold NULL. lia.
  - vm_compute. split; reflexivity.
  - vm_compute. reflexivity.
  - vm_compute in Hten. discriminate.
Qed.

(** That call returns a block of 32 bytes. *)
Example realloc_huge_request :
  let size := 1844674407370955162 in
  realloc_request LP64 size = 4 /\
  SEGSIZE * size = 18446744073709551620 /\
  match mm_realloc LP64 8 (heap_with_block 8192) 4288 size with
  | Some (np, st) => np = 4320 /\ GET_SIZE st (HDRP LP64 np) = 32
  | None => False
  end.
Proof. vm_compute. repeat (split; [reflexivity|]). reflexivity. Qed.

(** C1, amended: when [mm_realloc] is called with a non-null [ptr] and a
    non-zero [size] and the block cannot stay in place, the fresh block is
    requested from [mm_malloc] with the [size_t] product [SEGSIZE * size],
    that is with [(10 * size) mod 2 ^ w] for a [size_t] of [w] bits: ten
    times [size] whenever that fits a [size_t], and never [size] itself.
    The call returns the pointer of that request. *)
Theorem realloc_requests_segsize_times_size
    (p : platform) (fuel : nat) (st : heap) (ptr size : Z) :
  ptr <> NULL -> 0 < size < wmod p -> fits_in_place p st ptr size = false ->
  mm_realloc p fuel st ptr size
    = realloc_moving p fuel st ptr size (realloc_request p size) /\
  fst <$> mm_realloc p fuel st ptr size
    = fst <$> mm_malloc p fuel st (realloc_request p size) /\
  realloc_request p size = (10 * size) mod wmod p /\
  (10 * size < wmod p -> realloc_request p size = 10 * size) /\
  realloc_request p size <> size.
Proof.
  intros Hptr Hsize Hfit.
  assert (Hmove : mm_realloc p fuel st ptr size
                  = realloc_moving p fuel st ptr size (realloc_request p size))
    by (apply mm_realloc_moves; [done|lia|done]).
  split; [exact Hmove|]. split; [|split; [reflexivity|split]].
  - rewrite Hmove. unfold realloc_moving.
    destruct (mm_malloc p fuel st (realloc_request p size)) as [[np st1]|];
      [|done].
    simpl. destruct (Z.eqb_spec np NULL) as [->|]; done.
  - intros Hfits. unfold realloc_request, wmul.
    rewrite wrap_small; unfold SEGSIZE in *; lia.
  - by apply realloc_request_differs.
Qed.

Example mm_malloc_16 :
  fst <$> mm_malloc LP64 8 (init_heap 8192) 16 = Some 4288.
Proof. vm_compute. reflexivity. Qed.

Lemma realloc_requests_segsize_times_size_witness :
  fst <$> mm_realloc LP64 8 (heap_with_block 8192) 4288 100
    = fst <$> mm_malloc LP64 8 (heap_with_block 8192)
                (realloc_request LP64 100).
Proof.
  refine (proj1 (proj2 (realloc_requests_segsize_times_size
                          LP64 8 (heap_with_block 8192) 4288 100 _ _ _))).
  - unfold NULL. lia.
  - vm_compute. split; reflexivity.
  - vm_compute. reflexivity.
Defined.

(** The block that [mm_realloc(4288, 100)] returns has room for 1000 bytes
    rounded as [mm_malloc] rounds them, not for 100. *)
Example realloc_100_block_size :
  match mm_realloc LP64 8 (heap_with_block 8192) 4288 100 with
  | Some (np, st) => GET_SIZE st (HDRP LP64 np) = malloc_asize LP64 1000
  | None => False
  end.
Proof. vm_compute. reflexivity. Qed.

(** C2, as stated, fails: [mm_realloc] does not keep every block whose size
    covers the new block size.  After [mm_malloc(16)] (a 32-byte block at
    4288), [mm_realloc(4288, 16)] computes a new block size of 32 bytes and
    does not return 4288. *)
Lemma realloc_equal_size_moves :
  ~ (forall (p : platform) (fuel : nat) (st : heap) (ptr size : Z),
        ptr <> NULL -> 0 < size ->
        GET_ALLOC st (HDRP p ptr) = 1 ->
        adjust_size p size <= GET_SIZE st (HDRP p ptr) ->
        mm_realloc p fuel st ptr size = Some (ptr, st)).
Proof.
  intros Hclaim.
  specialize (Hclaim LP64 8%nat (heap_with_block 8192) 4288 16).
  assert (Hfalse : fst <$> mm_realloc LP64 8 (heap_with_block 8192) 4288 16
                   = Some 4288).
  { rewrite Hclaim; [done| | | |].
    - unfold NULL. lia.
    - lia.
    - vm_compute. reflexivity.
    - vm_compute. discriminate. }
  vm_compute in Hfalse. discriminate.
Qed.

(** C2, amended: for a non-null [ptr] and a non-zero [size], when the new
    block size computed from [size] is strictly below the size recorded in
    the header of [ptr], [mm_realloc] returns [ptr] and leaves the heap as
    it was: no allocation, no copy, no free. *)
Theorem realloc_in_place
    (p : platform) (fuel : nat) (st : heap) (ptr size : Z) :
  ptr <> NULL -> 0 < size ->
  0 <= GET st (HDRP p ptr) < wmod p ->
  adjust_size p size < GET_SIZE st (HDRP p ptr) ->
  mm_realloc p fuel st ptr size = Some (ptr, st).
Proof.
  intros Hptr Hsize Hword Hlt. unfold mm_realloc.
  destruct (Z.eqb_spec size 0); [lia|].
  destruct (Z.eqb_spec ptr NULL); [done|].
  rewrite wadd_wsub_cancel.
  - destruct (Z.ltb_spec (adjust_size p size) (GET_SIZE st (HDRP p ptr)));
      [done | lia].
  - unfold GET_SIZE. rewrite clear_low_bits.
    pose proof (Z.mul_div_le (GET st (HDRP p ptr)) 8).
    assert (0 <= GET st (HDRP p ptr) / 8) by (apply Z.div_pos; lia).
    lia.
Qed.

Lemma realloc_in_place_witness :
  mm_realloc LP64 8 (heap_with_large_block 8192) 4288 100
    = Some (4288, heap_with_large_block 8192).
Proof.
  apply realloc_in_place.
  - unfold NULL. lia.
  - lia.
  - vm_compute. split; [discriminate | reflexivity].
  - vm_compute. reflexivity.
Defined.

Lemma mm_malloc_refused (p : platform) (fuel : nat) (st : heap) (n : Z) :
  malloc_refused p fuel st n -> mm_malloc p fuel st n = Some (NULL, st).
Proof.
  intros [-> | [Hfit Hbrk]]; [reflexivity|].
  unfold mm_malloc. destruct (Z.eqb_spec n 0); [done|].
  rewrite Hfit. simpl. unfold extend_heap. rewrite Hbrk. reflexivity.
Qed.

Lemma mm_malloc_null (p : platform) (fuel : nat) (st st1 : heap) (n : Z) :
  mm_malloc p fuel st n = Some (NULL, st1) ->
  grown_block_nonnull p st
    (extend_bytes p (MAX (malloc_asize p n) CHUNKSIZE / WSIZE p)) ->
  malloc_refused p fuel st n /\ st1 = st.
Proof.
  unfold mm_malloc, malloc_refused. intros Hm Hnn.
  destruct (Z.eqb_spec n 0) as [Hn0|Hn].
  { split; [left; exact Hn0|]. congruence. }
  destruct (find_fit p fuel st (malloc_asize p n)) as [bp|] eqn:Hfit;
    [|discriminate].
  destruct (Z.eqb_spec bp NULL) as [->|Hbp]; simpl in Hm.
  2: { exfalso. apply Hbp. congruence. }
  unfold extend_heap in Hm.
  destruct (mem_sbrk st _) as [[b st2]|] eqn:Hbrk.
  - exfalso. specialize (Hnn b st2 Hbrk). unfold fresh_block in Hnn.
    destruct (coalesce p _ b) as [bp' st'] eqn:Hco. simpl in Hnn.
    destruct (Z.eqb_spec bp' NULL); [done|]. apply Hnn. congruence.
  - simpl in Hm. split; [by right|]. congruence.
Qed.

(** C8: when [mm_realloc] is called with a non-null [ptr] and a non-zero
    [size], the block cannot stay in place and the fresh allocation returns
    [NULL], then that allocation left by one of the two failure exits of
    [mm_malloc], [mm_realloc] returns [NULL], and the heap is exactly as it
    was before the call: the header, the footer and the payload of [ptr] are
    unchanged, the block is still allocated and it was not freed.  (Block
    pointers are taken to be non-null: a heap extension that succeeds does
    not hand back the address [0].) *)
Theorem realloc_failure_leaves_block
    (p : platform) (fuel : nat) (st st1 : heap) (ptr size : Z) :
  ptr <> NULL -> 0 < size -> fits_in_place p st ptr size = false ->
  mm_malloc p fuel st (wmul p SEGSIZE size) = Some (NULL, st1) ->
  grown_block_nonnull p st
    (extend_bytes p
       (MAX (malloc_asize p (wmul p SEGSIZE size)) CHUNKSIZE / WSIZE p)) ->
  malloc_refused p fuel st (wmul p SEGSIZE size) /\
  st1 = st /\
  mm_realloc p fuel st ptr size = Some (NULL, st).
Proof.
  intros Hptr Hsize Hfit Hm Hnn.
  destruct (mm_malloc_null _ _ _ _ _ Hm Hnn) as [Href ->].
  split; [done|]. split; [done|].
  rewrite mm_realloc_moves by done. rewrite Hm. reflexivity.
Qed.

Lemma realloc_failure_leaves_block_witness :
  mm_realloc LP64 8 (heap_with_block full_arena_size) 4288 1000
    = Some (NULL, heap_with_block full_arena_size).
Proof.
  refine (proj2 (proj2 (realloc_failure_leaves_block
                          LP64 8 (heap_with_block full_arena_size)
                          (heap_with_block full_arena_size) 4288 1000
                          _ _ _ _ _))).
  - unfold NULL. lia.
  - lia.
  - vm_compute. reflexivity.
  - vm_compute. reflexivity.
  - intros b st2 Hbrk. vm_compute in Hbrk. discriminate.
Defined.

(** ** Reading and writing the heap *)

Lemma GET_PUT (st : heap) (a v b : Z) :
  GET (PUT st a v) b = if decide (a = b) then v else GET st b.
Proof.
  unfold GET, PUT. simpl. case_decide as Hab.
  - subst. by rewrite lookup_insert_eq.
  - by rewrite lookup_insert_ne.
Qed.

Lemma GET_PUT_eq (st : heap) (a v : Z) : GET (PUT st a v) a = v.
Proof. rewrite GET_PUT. by case_decide. Qed.

Lemma GET_PUT_ne (st : heap) (a v b : Z) :
  a <> b -> GET (PUT st a v) b = GET st b.
Proof. intros Hab. rewrite GET_PUT. by case_decide. Qed.

Lemma WSIZE_pos (p : platform) : 4 <= WSIZE p <= 8.
Proof. destruct p; simpl; lia. Qed.

(** ** Circular class lists *)

Section ClassListFacts.
Variable p : platform.

Local Abbreviation W := (WSIZE p).

Lemma apartb_spec (a b : Z) : apartb p a b = true <-> apart p a b.
Proof. unfold apartb, apart. rewrite orb_true_iff, !Z.leb_le. done. Qed.

Lemma chainb_spec (st : heap) (l : list Z) :
  forall a z, chainb p st a l z = true <-> chain p st a l z.
Proof.
  induction l as [|n l IH]; intros a z; simpl.
  - rewrite andb_true_iff, !Z.eqb_eq. done.
  - rewrite !andb_true_iff, !Z.eqb_eq, IH. tauto.
Qed.

(** A chain only depends on the link words of its cells. *)
Lemma chain_frame (st st' : heap) (l : list Z) :
  forall a z,
    (forall c, c ∈ a :: l ++ [z] ->
       next_list st' c = next_list st c /\
       prev_list p st' c = prev_list p st c) ->
    chain p st a l z -> chain p st' a l z.
Proof.
  induction l as [|n l IH]; intros a z Hagree; simpl.
  - intros [Hn Hp].
    destruct (Hagree a) as [-> _]; [set_solver|].
    destruct (Hagree z) as [_ ->]; [set_solver|]. done.
  - intros (Hn & Hp & Hc).
    destruct (Hagree a) as [-> _]; [set_solver|].
    destruct (Hagree n) as [_ ->]; [set_solver|].
    repeat split; [done..|]. apply IH; [|done].
    intros c Hc'. apply Hagree. set_solver.
Qed.

(** The first cell after the sentinel, and its back link. *)
Lemma chain_head (st : heap) (a : Z) (l : list Z) (z : Z) :
  chain p st a l z ->
  next_list st a ∈ l ++ [z] /\ prev_list p st (next_list st a) = a.
Proof.
  destruct l as [|n l]; simpl.
  - intros [-> Hp]. split; [set_solver | done].
  - intros (-> & Hp & _). split; [set_solver | done].
Qed.
End ClassListFacts.

(** C10: on a well-formed circular class list whose cells do not overlap the
    node [bp], [list_insert(bp, size)] followed by [list_remove(bp)] gives
    back the list as it was: every [next_list] and [prev_list] link of the
    sentinel and of the nodes of the list has its value from before the
    insertion (indeed every word of the heap outside the two link words of
    [bp] has), and the list holds the same nodes in the same order. *)
Theorem list_insert_remove_restores
    (p : platform) (st : heap) (bp size : Z) (l : list Z) :
  class_list p st (seg_index size) l ->
  Forall (apart p bp) (seg_entry p st (seg_index size) :: l) ->
  let st' := list_remove p (list_insert p st bp size) bp in
  (forall c, c ∈ seg_entry p st (seg_index size) :: l ->
     next_list st' c = next_list st c /\
     prev_list p st' c = prev_list p st c) /\
  class_list p st' (seg_index size) l /\
  (forall a, a <> bp -> a <> bp + WSIZE p -> GET st' a = GET st a) /\
  seg_first st' = seg_first st.
Proof.
  intros Hlist Hapart st'.
  set (s := seg_entry p st (seg_index size)) in *.
  pose proof (WSIZE_pos p) as HW.
  destruct (chain_head p st s l s Hlist) as [Hh Hback].
  assert (Hbs : apart p bp s) by (by inversion Hapart).
  assert (Hbh : apart p bp (next_list st s)).
  { rewrite Forall_forall in Hapart. apply Hapart. set_solver. }
  unfold next_list, prev_list in Hback.
  assert (Hframe : forall a, a <> bp -> a <> bp + WSIZE p ->
                             GET st' a = GET st a).
  { intros a Ha1 Ha2. subst st'.
    unfold apart in Hbs, Hbh. unfold next_list in Hbh.
    set (st1 := list_insert p st bp size).
    assert (Hp : prev_list p st1 bp = s).
    { subst st1. unfold list_insert, set_next_list, set_prev_list,
        next_list, prev_list. fold s.
      repeat (rewrite GET_PUT; case_decide); lia. }
    assert (Hn : next_list st1 bp = GET st s).
    { subst st1. unfold list_insert, set_next_list, set_prev_list,
        next_list, prev_list. fold s.
      repeat (rewrite GET_PUT; case_decide); lia. }
    unfold list_remove. rewrite Hp, Hn. subst st1.
    unfold list_insert, set_next_list, set_prev_list, next_list, prev_list.
    fold s.
    repeat (rewrite GET_PUT; case_decide); subst; lia. }
  assert (Hcells : forall c, c ∈ s :: l ->
            next_list st' c = next_list st c /\
            prev_list p st' c = prev_list p st c).
  { intros c Hc. rewrite Forall_forall in Hapart.
    specialize (Hapart c Hc). unfold apart in Hapart.
    unfold next_list, prev_list. split; apply Hframe; lia. }
  split; [exact Hcells|]. split; [|split; [exact Hframe | reflexivity]].
  unfold class_list. change (seg_entry p st' (seg_index size)) with s.
  apply (chain_frame p st); [|exact Hlist].
  intros c Hc. apply Hcells. set_solver.
Qed.

Lemma list_insert_remove_restores_witness :
  class_list LP64
    (list_remove LP64 (list_insert LP64 (init_heap 8192) 6000 4000) 6000)
    (seg_index 4000) [4288].
Proof.
  refine (proj1 (proj2 (list_insert_remove_restores
                          LP64 (init_heap 8192) 6000 4000 [4288] _ _))).
  - apply chainb_spec. vm_compute. reflexivity.
  - repeat (apply Forall_cons_2; [apply apartb_spec; vm_compute; reflexivity|]).
    apply Forall_nil_2.
Defined.

(** ** The consistency checker *)

(** Once [current] and [next] are a block that is its own successor, the
    loop prints nothing more and never reaches its exit test
    [start == next]. *)
Lemma checkheap_scan_stuck (p : platform) (st : heap) (start bp : Z) :
  start <> bp -> NEXT_BLKP p st bp = bp ->
  forall fuel, checkheap_scan p fuel st start bp bp = ([], false).
Proof.
  intros Hne Hfix. induction fuel as [|fuel IH]; [done|].
  simpl. destruct (Z.eqb_spec start bp); [done|].
  rewrite Hfix, IH. by destruct (truth (GET_ALLOC st bp)).
Qed.

(** A heap on which the loop prints the diagnostic in its first round, is
    silent in its second, and then stays on the block [b2]. *)
Lemma checkheap_scan_three_rounds
    (p : platform) (st : heap) (start b1 b2 : Z) :
  start <> b1 -> start <> b2 ->
  NEXT_BLKP p st b1 = b2 -> NEXT_BLKP p st b2 = b2 ->
  truth (GET_ALLOC st start) && negb (truth (GET_ALLOC st b1)) = true ->
  truth (GET_ALLOC st b1) && negb (truth (GET_ALLOC st b2)) = false ->
  forall fuel,
    checkheap_scan p (S (S fuel)) st start start b1
      = ([AdjacentFreeUncoalesced], false).
Proof.
  intros H1 H2 N1 N2 A1 A2 fuel.
  cbn [checkheap_scan]. rewrite N1, N2, A1, A2.
  destruct (Z.eqb_spec start b1); [done|].
  destruct (Z.eqb_spec start b2); [done|].
  by rewrite (checkheap_scan_stuck p st start b2).
Qed.

(** On the heap that [mm_init] has just built, the loop prints the
    diagnostic in its first round and never ends. *)
Lemma checkheap_scan_init_heap (fuel : nat) :
  checkheap_scan LP64 (S fuel) (init_heap 8192) 4272 4272 4288
    = ([AdjacentFreeUncoalesced], false).
Proof.
  destruct fuel as [|fuel]; [vm_compute; reflexivity|].
  apply (checkheap_scan_three_rounds LP64 (init_heap 8192) 4272 4288 8384).
  - lia.
  - lia.
  - vm_compute. reflexivity.
  - vm_compute. reflexivity.
  - vm_compute. reflexivity.
  - vm_compute. reflexivity.
Qed.

(** C5: [checkheap] does not report adjacent free blocks as its comment
    says.  Before its loop it reads the tags of a block through the local
    [bp], to which nothing has been assigned: when such a read faults the
    call stops there and prints nothing, also on a heap that holds two
    adjacent free blocks (here 4288 and 4304, after the three calls of C3).
    When the reads go through, the loop tests the first payload word of
    each block, not its header, and asks for an allocated word followed by
    a free one: on the heap that [mm_init] has just built, which has one
    free block between the allocated prologue and epilogue, it prints the
    diagnostic in its first round, and it never ends. *)
Theorem checkheap_faults_or_misreports :
  let st0 := init_heap 8192 in
  let st1 := mm_free LP64 overflow_heap 4288 in
  (heap_blocks LP64 8 st0 (heap_listp st0) = [4272; 4288] /\
   is_free LP64 st0 4272 = false /\
   is_free LP64 st0 4288 = true /\
   is_free LP64 st0 (NEXT_BLKP LP64 st0 4288) = false /\
   adjacent_free LP64 st0 (heap_blocks LP64 8 st0 (heap_listp st0)) = false) /\
  (heap_blocks LP64 8 st1 (heap_listp st1) = [4272; 4288; 4304] /\
   is_free LP64 st1 4288 = true /\
   is_free LP64 st1 4304 = true /\
   adjacent_free LP64 st1 (heap_blocks LP64 8 st1 (heap_listp st1)) = true) /\
  forall (readable : Z -> bool) (bp : Z) (fuel : nat),
    checkheap_walk LP64 readable (S fuel) st0 bp
      = (if tag_reads_ok LP64 readable st0 bp
         then Walked [AdjacentFreeUncoalesced] false
         else Faulted) /\
    checkheap_walk LP64 readable fuel st1 bp
      = (if tag_reads_ok LP64 readable st1 bp
         then checkheap_walk LP64 (fun _ => true) fuel st1 bp
         else Faulted).
Proof.
  intros st0 st1.
  split; [vm_compute; repeat (split; [reflexivity|]); reflexivity|].
  split; [vm_compute; repeat (split; [reflexivity|]); reflexivity|].
  intros readable bp fuel. split.
  - assert (Eh : heap_listp st0 = 4272) by (vm_compute; reflexivity).
    assert (En : NEXT_BLKP LP64 st0 4272 = 4288) by (vm_compute; reflexivity).
    pose proof (checkheap_scan_init_heap fuel) as Hscan. fold st0 in Hscan.
    unfold checkheap_walk. rewrite Eh, En, Hscan.
    by destruct (tag_reads_ok LP64 readable st0 bp).
  - unfold checkheap_walk.
    by destruct (tag_reads_ok LP64 readable st1 bp).
Qed.

(** ** Free-list membership *)

(** C3: the membership invariant holds after [mm_init], but a request whose
    adjusted size wraps around breaks it.  [mm_malloc(SIZE_MAX)] computes a
    block size of 16 bytes and returns the block 4288 carved at that size;
    [mm_malloc(16)] then returns the next block, 4304; and [mm_free(4288)]
    writes the list links of the 16-byte block over the header of 4304,
    which from then on reads as a free block that is in no class list. *)
Theorem overflowing_request_breaks_membership :
  membership_ok LP64 8 (init_heap 8192) = true /\
  malloc_asize LP64 SIZE_MAX = 16 /\
  fst <$> mm_malloc LP64 8 (init_heap 8192) SIZE_MAX = Some 4288 /\
  fst <$> overflow_run = Some 4304 /\
  membership_ok LP64 8 overflow_heap = true /\
  is_free LP64 overflow_heap 4304 = false /\
  let st := mm_free LP64 overflow_heap 4288 in
  heap_blocks LP64 8 st (heap_listp st) = [4272; 4288; 4304] /\
  is_free LP64 st 4304 = true /\
  Forall (fun i => 4304 ∉ class_nodes LP64 8 st i) (seqZ 0 SEGSIZE) /\
  block_membership_ok LP64 8 st 4304 = false /\
  membership_ok LP64 8 st = false.
Proof.
  do 6 (split; [vm_compute; reflexivity|]).
  intros st. subst st.
  do 2 (split; [vm_compute; reflexivity|]).
  split; [|split; vm_compute; reflexivity].
  apply Forall_forall. intros i Hi.
  apply elem_of_seqZ in Hi.
  assert (Hcases : i = 0 \/ i = 1 \/ i = 2 \/ i = 3 \/ i = 4 \/ i = 5 \/
                   i = 6 \/ i = 7 \/ i = 8 \/ i = 9)
    by (unfold SEGSIZE in Hi; lia).
  destruct Hcases as [->|[->|[->|[->|[->|[->|[->|[->|[->| ->]]]]]]]]];
    vm_compute; set_solver.
Qed.

(** ** The table of class lists *)

Section SegListFacts.
Variable p : platform.

Local Abbreviation W := (WSIZE p).

Lemma chain_app (st : heap) (l1 : list Z) :
  forall a n l2 z,
    chain p st a (l1 ++ n :: l2) z <-> chain p st a l1 n /\ chain p st n l2 z.
Proof.
  induction l1 as [|x l1 IH]; intros a n l2 z; simpl.
  - tauto.
  - rewrite IH. tauto.
Qed.

Lemma chain_last (st : heap) (l : list Z) :
  forall a n, chain p st a l n -> prev_list p st n ∈ a :: l.
Proof.
  induction l as [|x l IH]; intros a n; simpl.
  - intros [_ ->]. apply list_elem_of_here.
  - intros (_ & _ & Hc). apply list_elem_of_further. by apply IH.
Qed.

(** A chain reads [next_list] on its cells but the last and [prev_list] on
    its cells but the first. *)
Lemma chain_frame2 (st st' : heap) (l : list Z) :
  forall a z,
    (forall c, c ∈ a :: l -> next_list st' c = next_list st c) ->
    (forall c, c ∈ l ++ [z] -> prev_list p st' c = prev_list p st c) ->
    chain p st a l z -> chain p st' a l z.
Proof.
  induction l as [|n l IH]; intros a z Hn Hp; simpl.
  - intros [H1 H2]. rewrite Hn, Hp; [done | | ]; apply list_elem_of_here.
  - intros (H1 & H2 & Hc). rewrite Hn, Hp; [| apply list_elem_of_here..].
    repeat split; [done..|]. apply IH; [| |done].
    + intros c Hc'. apply Hn. by apply list_elem_of_further.
    + intros c Hc'. apply Hp. simpl. by apply list_elem_of_further.
Qed.

(** Unlinking [n]: its predecessor and successor now point at each other,
    every other link is as before. *)
Lemma chain_unlink (st st' : heap) (n : Z) (l2 : list Z) (z : Z) (l1 : list Z) :
  forall a,
    chain p st a (l1 ++ n :: l2) z ->
    (forall c, c ∈ a :: l1 ++ l2 ->
       next_list st' c =
         if decide (c = prev_list p st n) then next_list st n
         else next_list st c) ->
    (forall c, c ∈ l1 ++ l2 ++ [z] ->
       prev_list p st' c =
         if decide (c = next_list st n) then prev_list p st n
         else prev_list p st c) ->
    NoDup (a :: l1 ++ n :: l2) -> NoDup (l1 ++ n :: l2 ++ [z]) ->
    chain p st' a (l1 ++ l2) z.
Proof.
  induction l1 as [|x l1 IH]; intros a Hch Hn Hp Hnd1 Hnd2.
  - simpl in *. destruct Hch as (Ha & Hpn & Hch).
    assert (HP : prev_list p st n = a) by done.
    apply NoDup_cons in Hnd1 as [Ha1 Hnd1].
    apply NoDup_cons in Hnd1 as [Hn1 Hnd1].
    apply NoDup_cons in Hnd2 as [Hn2 Hnd2].
    destruct l2 as [|y l2]; simpl in *.
    + destruct Hch as [HN Hz].
      rewrite Hn, Hp by apply list_elem_of_here.
      rewrite !decide_True by done. done.
    + destruct Hch as (HN & Hy & Hch).
      rewrite Hn, Hp by apply list_elem_of_here.
      rewrite !decide_True by done. repeat split; [done..|].
      apply (chain_frame2 st); [| |done].
      * intros c Hc. rewrite Hn by (by apply list_elem_of_further).
        rewrite decide_False; [done|]. rewrite HP. intros ->.
        apply Ha1. by apply list_elem_of_further.
      * intros c Hc. rewrite Hp by (by apply list_elem_of_further).
        rewrite decide_False; [done|]. rewrite HN. intros ->.
        apply NoDup_cons in Hnd2 as [Hy2 _]. done.
  - simpl in *. destruct Hch as (Ha & Hx & Hch).
    apply NoDup_cons in Hnd1 as [Ha1 Hnd1].
    pose proof Hnd2 as Hnd2'. apply NoDup_cons in Hnd2 as [Hx2 Hnd2].
    pose proof Hch as Hch'. apply chain_app in Hch' as [Hc1 Hc2].
    pose proof (chain_last _ _ _ _ Hc1) as HP.
    pose proof (chain_head _ _ _ _ _ Hc2) as [HN _].
    rewrite Hn, Hp by apply list_elem_of_here.
    rewrite !decide_False.
    + repeat split; [done..|]. apply IH; [done| | |done..].
      * intros c Hc. apply Hn. by apply list_elem_of_further.
      * intros c Hc. apply Hp. by apply list_elem_of_further.
    + intros ->. apply Hx2. clear -HN. set_solver.
    + intros ->. apply Ha1. clear -HP. set_solver.
Qed.

Lemma seg_entry_inj (st : heap) (k k' : Z) :
  seg_entry p st k = seg_entry p st k' -> k = k'.
Proof. unfold seg_entry. pose proof (WSIZE_pos p). nia. Qed.

Lemma seg_entry_list_remove (st : heap) (n k : Z) :
  seg_entry p (list_remove p st n) k = seg_entry p st k.
Proof. reflexivity. Qed.

Lemma seg_entry_list_insert (st : heap) (n size k : Z) :
  seg_entry p (list_insert p st n size) k = seg_entry p st k.
Proof. reflexivity. Qed.

Lemma filter_ne_notin (n : Z) (l : list Z) :
  n ∉ l -> filter (fun x => x <> n) l = l.
Proof.
  induction l as [|x l IH]; intros Hn; [done|].
  rewrite filter_cons_True by (intros ->; apply Hn, list_elem_of_here).
  f_equal. apply IH. intros Hin. apply Hn. by apply list_elem_of_further.
Qed.

Lemma filter_ne_split (n : Z) (l1 l2 : list Z) :
  NoDup (l1 ++ n :: l2) -> filter (fun x => x <> n) (l1 ++ n :: l2) = l1 ++ l2.
Proof.
  intros Hnd. apply NoDup_app in Hnd as (_ & Hd & Hnd).
  apply NoDup_cons in Hnd as [Hn2 _].
  rewrite filter_app, filter_cons_False by (intros Hne; by apply Hne).
  rewrite !filter_ne_notin; [done..|].
  intros Hin. apply (Hd n Hin), list_elem_of_here.
Qed.

Section WithLists.
Variable st : heap.
Variable L : Z -> list Z.
Hypothesis HL : seg_lists p st L.

Lemma cell_sentinel (k : Z) : 0 <= k < SEGSIZE -> cell p st L (seg_entry p st k).
Proof. intros Hk. left. by exists k. Qed.

Lemma cell_node (j c : Z) : 0 <= j < SEGSIZE -> c ∈ L j -> cell p st L c.
Proof. intros Hj Hc. right. by exists j. Qed.

(** Distinct cells do not share a word. *)
Lemma cell_words (c c' : Z) :
  cell p st L c -> cell p st L c' ->
  (c = c' \/ c + 2 * W <= c' \/ c' + 2 * W <= c).
Proof. intros Hc Hc'. destruct (sl_apart _ _ _ HL c c' Hc Hc'); unfold apart in *; tauto. Qed.

(** The cells of one class list (sentinel and nodes) are cells of no other
    class. *)
Lemma class_cells_disjoint (j j' c : Z) :
  0 <= j < SEGSIZE -> 0 <= j' < SEGSIZE ->
  c ∈ seg_entry p st j :: L j -> c ∈ seg_entry p st j' :: L j' -> j = j'.
Proof.
  intros Hj Hj' Hc Hc'.
  apply elem_of_cons in Hc as [->|Hc]; apply elem_of_cons in Hc' as [Hc'|Hc'].
  - by apply seg_entry_inj in Hc'.
  - exfalso. apply (sl_sent _ _ _ HL (seg_entry p st j)); [by exists j'|by exists j].
  - exfalso. subst c.
    apply (sl_sent _ _ _ HL (seg_entry p st j')); [by exists j|by exists j'].
  - by apply (sl_class _ _ _ HL j j' c).
Qed.

Lemma class_nodup (j : Z) :
  0 <= j < SEGSIZE -> NoDup (seg_entry p st j :: L j).
Proof.
  intros Hj. apply NoDup_cons. split; [|by apply (sl_nodup _ _ _ HL)].
  intros Hin. apply (sl_sent _ _ _ HL (seg_entry p st j)); [by exists j|by exists j].
Qed.

(** What [list_remove] reads and writes when [n] is a node of class [j]. *)
Lemma list_remove_links (j n : Z) (l1 l2 : list Z) :
  0 <= j < SEGSIZE -> L j = l1 ++ n :: l2 ->
  let st' := list_remove p st n in
  let P := prev_list p st n in
  let N := next_list st n in
  P ∈ seg_entry p st j :: l1 /\ N ∈ l2 ++ [seg_entry p st j] /\
  (forall c, cell p st L c ->
     next_list st' c = if decide (c = P) then N else next_list st c) /\
  (forall c, cell p st L c ->
     prev_list p st' c = if decide (c = N) then P else prev_list p st c) /\
  (forall a, (forall c, cell p st L c -> a < c \/ c + 2 * W <= a) ->
     GET st' a = GET st a).
Proof.
  intros Hj HLj st' P N.
  pose proof (sl_chain _ _ _ HL j Hj) as Hch. unfold class_list in Hch.
  rewrite HLj in Hch. apply chain_app in Hch as [Hc1 Hc2].
  pose proof (chain_last _ _ _ _ Hc1) as HP.
  pose proof (chain_head _ _ _ _ _ Hc2) as [HN _].
  fold P in HP. fold N in HN.
  assert (HcP : cell p st L P).
  { apply elem_of_cons in HP as [->|HP]; [by apply cell_sentinel|].
    apply (cell_node j); [done|]. rewrite HLj. set_solver. }
  assert (HcN : cell p st L N).
  { apply elem_of_app in HN as [HN|HN].
    - apply (cell_node j); [done|]. rewrite HLj. set_solver.
    - apply list_elem_of_singleton in HN as ->. by apply cell_sentinel. }
  pose proof (WSIZE_pos p) as HW.
  split; [done|]. split; [done|].
  subst st'. unfold list_remove, set_next_list, set_prev_list.
  fold P. fold N. unfold next_list, prev_list.
  split; [|split].
  - intros c Hc.
    pose proof (cell_words c N Hc HcN). pose proof (cell_words c P Hc HcP).
    rewrite !GET_PUT. repeat case_decide; lia.
  - intros c Hc.
    pose proof (cell_words c N Hc HcN). pose proof (cell_words c P Hc HcP).
    rewrite !GET_PUT. repeat case_decide; lia.
  - intros a Ha.
    pose proof (Ha N HcN). pose proof (Ha P HcP).
    rewrite !GET_PUT. repeat case_decide; lia.
Qed.

Lemma node_unlink (n c : Z) : node (unlink n L) c -> node L c /\ c <> n.
Proof.
  intros (j & Hj & Hc). unfold unlink in Hc.
  apply list_elem_of_filter in Hc as [Hne Hc]. split; [by exists j|done].
Qed.

(** [list_remove] takes a node out of its class list and leaves every other
    list, and every word outside the cells, alone. *)
Lemma list_remove_spec (n : Z) :
  node L n ->
  seg_lists p (list_remove p st n) (unlink n L) /\
  (forall a, (forall c, cell p st L c -> a < c \/ c + 2 * W <= a) ->
     GET (list_remove p st n) a = GET st a).
Proof.
  intros (j & Hj & Hn).
  apply list_elem_of_split in Hn as (l1 & l2 & HLj).
  destruct (list_remove_links j n l1 l2 Hj HLj)
    as (HP & HN & Hnext & Hprev & Hframe).
  split; [|exact Hframe].
  pose proof (class_nodup j Hj) as Hnd. rewrite HLj in Hnd.
  constructor.
  - intros j' Hj'. unfold class_list. rewrite seg_entry_list_remove.
    unfold unlink. destruct (decide (j' = j)) as [->|Hne].
    + rewrite HLj, filter_ne_split by (by apply NoDup_cons in Hnd as [_ ?]).
      apply (chain_unlink st _ n l2).
      * rewrite <- HLj. by apply (sl_chain _ _ _ HL).
      * intros c Hc. apply Hnext.
        apply elem_of_cons in Hc as [->|Hc]; [by apply cell_sentinel|].
        apply (cell_node j); [done|]. rewrite HLj. clear -Hc. set_solver.
      * intros c Hc. apply Hprev. rewrite app_assoc in Hc.
        apply elem_of_app in Hc as [Hc|Hc].
        -- apply (cell_node j); [done|]. rewrite HLj. clear -Hc. set_solver.
        -- apply list_elem_of_singleton in Hc as ->. by apply cell_sentinel.
      * done.
      * apply NoDup_cons in Hnd as [Hs Hnd].
        replace (l1 ++ n :: l2 ++ [seg_entry p st j])
          with ((l1 ++ n :: l2) ++ [seg_entry p st j])
          by (by rewrite <- app_assoc).
        apply NoDup_app. split; [done|]. split; [|apply NoDup_singleton].
        intros x Hx Hx'. apply list_elem_of_singleton in Hx' as ->. done.
    + assert (Hnot : n ∉ L j').
      { intros Hin. apply Hne. apply (sl_class _ _ _ HL j' j n); [done..|].
        rewrite HLj. set_solver. }
      rewrite filter_ne_notin by done.
      apply (chain_frame2 st); [| |by apply (sl_chain _ _ _ HL)].
      * intros c Hc. rewrite Hnext.
        -- rewrite decide_False; [done|]. intros ->. apply Hne.
           apply (class_cells_disjoint j' j (prev_list p st n)); [done..|].
           rewrite HLj. clear -HP. set_solver.
        -- apply elem_of_cons in Hc as [->|Hc]; [by apply cell_sentinel|].
           by apply (cell_node j').
      * intros c Hc. rewrite Hprev.
        -- rewrite decide_False; [done|]. intros ->. apply Hne.
           apply (class_cells_disjoint j' j (next_list st n)); [done..| |].
           ++ clear -Hc. set_solver.
           ++ rewrite HLj. clear -HN. set_solver.
        -- apply elem_of_app in Hc as [Hc|Hc]; [by apply (cell_node j')|].
           apply list_elem_of_singleton in Hc as ->. by apply cell_sentinel.
  - intros j' Hj'. unfold unlink. apply NoDup_filter. by apply (sl_nodup _ _ _ HL).
  - intros j1 j2 c Hj1 Hj2 Hc1 Hc2. unfold unlink in *.
    apply list_elem_of_filter in Hc1 as [_ Hc1].
    apply list_elem_of_filter in Hc2 as [_ Hc2].
    by apply (sl_class _ _ _ HL j1 j2 c).
  - intros c Hc Hs. apply node_unlink in Hc as [Hc _].
    by apply (sl_sent _ _ _ HL c).
  - intros c c' Hc Hc'. apply (sl_apart _ _ _ HL).
    + destruct Hc as [Hc|Hc]; [by left|right]. by apply node_unlink in Hc as [? _].
    + destruct Hc' as [Hc'|Hc']; [by left|right].
      by apply node_unlink in Hc' as [? _].
Qed.

(** The table of lists only depends on the link words of its cells. *)
Lemma seg_lists_frame (st' : heap) :
  seg_first st' = seg_first st ->
  (forall c, cell p st L c ->
     next_list st' c = next_list st c /\
     prev_list p st' c = prev_list p st c) ->
  seg_lists p st' L.
Proof.
  intros Hbase Hlinks.
  assert (Hentry : forall k, seg_entry p st' k = seg_entry p st k).
  { intros k. unfold seg_entry. by rewrite Hbase. }
  assert (Hsent : forall c, sentinel p st' c <-> sentinel p st c).
  { intros c. unfold sentinel. by setoid_rewrite Hentry. }
  constructor.
  - intros j Hj. unfold class_list. rewrite Hentry.
    apply (chain_frame2 st); [| |by apply (sl_chain _ _ _ HL)].
    + intros c Hc. apply Hlinks.
      apply elem_of_cons in Hc as [->|Hc]; [by apply cell_sentinel|].
      by apply (cell_node j).
    + intros c Hc. apply Hlinks.
      apply elem_of_app in Hc as [Hc|Hc]; [by apply (cell_node j)|].
      apply list_elem_of_singleton in Hc as ->. by apply cell_sentinel.
  - apply (sl_nodup _ _ _ HL).
  - apply (sl_class _ _ _ HL).
  - intros c Hc Hs. apply Hsent in Hs. by apply (sl_sent _ _ _ HL c).
  - intros c c' Hc Hc'. apply (sl_apart _ _ _ HL).
    + destruct Hc as [Hc|Hc]; [left; by apply Hsent|by right].
    + destruct Hc' as [Hc'|Hc']; [left; by apply Hsent|by right].
Qed.

(** Writing a word that lies in no cell, such as a boundary tag. *)
Lemma PUT_outside_cells (t v : Z) :
  (forall c, cell p st L c -> t < c \/ c + 2 * W <= t) ->
  seg_lists p (PUT st t v) L.
Proof.
  intros Ht. apply seg_lists_frame; [done|].
  intros c Hc. specialize (Ht c Hc). pose proof (WSIZE_pos p).
  unfold next_list, prev_list. rewrite !GET_PUT_ne by lia. done.
Qed.

Lemma elem_of_push (i n j c : Z) :
  c ∈ push i n L j <-> (j = i /\ c = n) \/ c ∈ L j.
Proof.
  unfold push. destruct (Z.eqb_spec j i) as [->|Hne].
  - rewrite elem_of_cons. tauto.
  - split; [by right|]. intros [[? _]|?]; done.
Qed.

(** [list_insert] puts the node at the head of the list of its class and
    leaves every other list, and every word outside the cells and the
    node, alone. *)
Lemma list_insert_spec (n size : Z) :
  (forall c, cell p st L c -> apart p n c) ->
  seg_lists p (list_insert p st n size) (push (seg_index size) n L) /\
  (forall a, a <> n -> a <> n + W ->
     (forall c, cell p st L c -> a < c \/ c + 2 * W <= a) ->
     GET (list_insert p st n size) a = GET st a).
Proof.
  intros Hn.
  pose proof (seg_index_range size) as Hi.
  set (i := seg_index size) in *. set (s := seg_entry p st i).
  set (h := next_list st s).
  pose proof (WSIZE_pos p) as HW.
  pose proof (sl_chain _ _ _ HL i Hi) as Hch. unfold class_list in Hch.
  fold s in Hch.
  destruct (chain_head _ _ _ _ _ Hch) as [Hh Hback]. fold h in Hh, Hback.
  assert (Hcs : cell p st L s) by (by apply cell_sentinel).
  assert (Hchh : cell p st L h).
  { apply elem_of_app in Hh as [Hh|Hh]; [by apply (cell_node i)|].
    apply list_elem_of_singleton in Hh as ->. done. }
  assert (Hnn : ~ node L n).
  { intros Hnode. destruct (Hn n (or_intror Hnode)); lia. }
  assert (Hns : ~ sentinel p st n).
  { intros Hsen. destruct (Hn n (or_introl Hsen)); lia. }
  assert (Hnext : forall c, cell p st L c ->
            next_list (list_insert p st n size) c =
              if decide (c = s) then n else next_list st c).
  { intros c Hc. unfold list_insert, set_next_list, set_prev_list.
    fold i. fold s. fold h. unfold next_list.
    pose proof (Hn c Hc) as Ha. unfold apart in Ha.
    pose proof (cell_words c s Hc Hcs). pose proof (cell_words c h Hc Hchh).
    rewrite !GET_PUT. repeat case_decide; lia. }
  assert (Hprev : forall c, cell p st L c ->
            prev_list p (list_insert p st n size) c =
              if decide (c = h) then n else prev_list p st c).
  { intros c Hc. unfold list_insert, set_next_list, set_prev_list.
    fold i. fold s. fold h. unfold prev_list.
    pose proof (Hn c Hc) as Ha. unfold apart in Ha.
    pose proof (cell_words c s Hc Hcs). pose proof (cell_words c h Hc Hchh).
    rewrite !GET_PUT. repeat case_decide; lia. }
  assert (Hnn' : next_list (list_insert p st n size) n = h).
  { unfold list_insert, set_next_list, set_prev_list.
    fold i. fold s. fold h. unfold next_list.
    pose proof (Hn s Hcs) as Ha. pose proof (Hn h Hchh) as Hb.
    unfold apart in Ha, Hb.
    rewrite !GET_PUT. repeat case_decide; lia. }
  assert (Hnp' : prev_list p (list_insert p st n size) n = s).
  { unfold list_insert, set_next_list, set_prev_list.
    fold i. fold s. fold h. unfold prev_list.
    pose proof (Hn s Hcs) as Ha. pose proof (Hn h Hchh) as Hb.
    unfold apart in Ha, Hb.
    rewrite !GET_PUT. repeat case_decide; lia. }
  split.
  - constructor.
    + intros j Hj. unfold class_list. rewrite seg_entry_list_insert.
      unfold push. destruct (Z.eqb_spec j i) as [->|Hne].
      * fold s. simpl. rewrite Hnext, decide_True by done.
        split; [done|]. split; [done|].
        destruct (L i) as [|y l] eqn:HLi; simpl in *.
        -- destruct Hch as [Hs1 Hs2]. fold h in Hs1.
           rewrite Hnn', Hprev, decide_True by done. done.
        -- destruct Hch as (Hs1 & Hs2 & Hch). fold h in Hs1. subst y.
           rewrite Hnn', Hprev, decide_True by done.
           repeat split; [done..|].
           pose proof (class_nodup i Hi) as Hnd. rewrite HLi in Hnd.
           fold s in Hnd.
           apply NoDup_cons in Hnd as [Hs Hnd].
           apply NoDup_cons in Hnd as [Hh' Hnd].
           apply (chain_frame2 st); [| |done].
           ++ intros c Hc. rewrite Hnext.
              ** rewrite decide_False; [done|]. intros ->. done.
              ** apply (cell_node i); [done|]. by rewrite HLi.
           ++ intros c Hc. rewrite Hprev.
              ** rewrite decide_False; [done|]. intros ->.
                 apply elem_of_app in Hc as [Hc|Hc]; [done|].
                 apply list_elem_of_singleton in Hc.
                 apply Hs. rewrite <- Hc. apply list_elem_of_here.
              ** apply elem_of_app in Hc as [Hc|Hc].
                 --- apply (cell_node i); [done|]. rewrite HLi.
                     by apply list_elem_of_further.
                 --- apply list_elem_of_singleton in Hc as ->. done.
      * apply (chain_frame2 st); [| |by apply (sl_chain _ _ _ HL)].
        -- intros c Hc. rewrite Hnext.
           ++ rewrite decide_False; [done|]. intros ->. apply Hne.
              apply (class_cells_disjoint j i s); [done..|].
              apply list_elem_of_here.
           ++ apply elem_of_cons in Hc as [->|Hc]; [by apply cell_sentinel|].
              by apply (cell_node j).
        -- intros c Hc. rewrite Hprev.
           ++ rewrite decide_False; [done|]. intros ->. apply Hne.
              apply (class_cells_disjoint j i h); [done..| |].
              ** clear -Hc. set_solver.
              ** clear -Hh. set_solver.
           ++ apply elem_of_app in Hc as [Hc|Hc]; [by apply (cell_node j)|].
              apply list_elem_of_singleton in Hc as ->. by apply cell_sentinel.
    + intros j Hj. unfold push. destruct (Z.eqb_spec j i) as [->|Hne].
      * apply NoDup_cons. split; [|by apply (sl_nodup _ _ _ HL)].
        intros Hin. apply Hnn. by exists i.
      * by apply (sl_nodup _ _ _ HL).
    + intros j1 j2 c Hj1 Hj2 Hc1 Hc2.
      apply elem_of_push in Hc1 as [[-> ->]|Hc1];
        apply elem_of_push in Hc2 as [[-> Hc2]|Hc2]; try done.
      * exfalso. apply Hnn. by exists j2.
      * exfalso. subst c. apply Hnn. by exists j1.
      * by apply (sl_class _ _ _ HL j1 j2 c).
    + intros c (j & Hj & Hc) Hs.
      apply elem_of_push in Hc as [[-> ->]|Hc]; [by apply Hns|].
      apply (sl_sent _ _ _ HL c); [by exists j|done].
    + assert (Hcases : forall c, cell p (list_insert p st n size)
                                      (push i n L) c ->
                         c = n \/ cell p st L c).
      { intros c [Hc|(j & Hj & Hc)]; [right; by left|].
        apply elem_of_push in Hc as [[_ ->]|Hc]; [by left|].
        right. by apply (cell_node j). }
      intros c c' Hc Hc'.
      apply Hcases in Hc as [->|Hc]; apply Hcases in Hc' as [->|Hc'].
      * by left.
      * right. by apply Hn.
      * right. destruct (Hn c Hc); unfold apart; lia.
      * by apply (sl_apart _ _ _ HL).
  - intros a Ha1 Ha2 Ha.
    unfold list_insert, set_next_list, set_prev_list.
    fold i. fold s. fold h.
    pose proof (Ha s Hcs). pose proof (Ha h Hchh).
    rewrite !GET_PUT. repeat case_decide; lia.
Qed.
End WithLists.
End SegListFacts.

(** ** Coalescing *)

Section CoalesceFacts.
Variable p : platform.

Local Abbreviation W := (WSIZE p).
Local Abbreviation D := (DSIZE p).

Lemma PACK_0 (s : Z) : PACK s 0 = s.
Proof. apply Z.lor_0_r. Qed.

Lemma GET_SIZE_mod (st : heap) (a : Z) : GET_SIZE st a mod 8 = 0.
Proof.
  unfold GET_SIZE. rewrite clear_low_bits.
  rewrite Z.mul_comm. apply Z.mod_mul. lia.
Qed.

Lemma GET_SIZE_PUT_eq (st : heap) (a s : Z) :
  s mod 8 = 0 -> GET_SIZE (PUT st a (PACK s 0)) a = s.
Proof.
  intros Hs. unfold GET_SIZE. rewrite GET_PUT_eq, PACK_0, clear_low_bits.
  pose proof (Z.div_mod s 8). lia.
Qed.

Lemma GET_SIZE_eq (st st' : heap) (a : Z) :
  GET st' a = GET st a -> GET_SIZE st' a = GET_SIZE st a.
Proof. unfold GET_SIZE. by intros ->. Qed.

Lemma cell_unlink (st st' : heap) (n : Z) (L : Z -> list Z) (c : Z) :
  seg_first st' = seg_first st -> node L n -> seg_lists p st L ->
  cell p st' (unlink n L) c -> cell p st L c /\ c <> n.
Proof.
  intros Hbase Hn HL [(k & Hk & ->)|Hc].
  - split.
    + left. exists k. split; [done|]. unfold seg_entry. by rewrite Hbase.
    + intros Heq. apply (sl_sent _ _ _ HL n Hn). exists k. split; [done|].
      rewrite <- Heq. unfold seg_entry. by rewrite Hbase.
  - apply node_unlink in Hc as [Hc Hne]. split; [by right|done].
Qed.

(** The last step of [coalesce]: the merged block, whose tags are written,
    goes to the head of the list of its class. *)
Lemma coalesce_finish (st : heap) (L : Z -> list Z) (ret total : Z) :
  seg_lists p st L -> 2 * D <= total ->
  (forall c, cell p st L c -> c + 2 * W <= ret - W \/ ret + total - W <= c) ->
  GET st (ret - W) = PACK total 0 ->
  GET st (ret + total - D) = PACK total 0 ->
  GET (list_insert p st ret total) (HDRP p ret) = PACK total 0 /\
  GET (list_insert p st ret total) (ret + total - D) = PACK total 0 /\
  seg_lists p (list_insert p st ret total) (push (seg_index total) ret L) /\
  (forall a, a < ret - W \/ ret + total - W <= a ->
     (forall c, cell p st L c -> a < c \/ c + 2 * W <= a) ->
     GET (list_insert p st ret total) a = GET st a).
Proof.
  intros HL Ht Hcells Hh Hf.
  pose proof (WSIZE_pos p) as HW. assert (HD : D = 2 * W) by reflexivity.
  destruct (list_insert_spec p st L HL ret total) as [HL' Hframe].
  { intros c Hc. specialize (Hcells c Hc). unfold apart. lia. }
  split; [|split; [|split; [exact HL'|]]].
  - unfold HDRP. rewrite Hframe; [done|lia..|].
    intros c Hc. specialize (Hcells c Hc). lia.
  - rewrite Hframe; [done|lia..|].
    intros c Hc. specialize (Hcells c Hc). lia.
  - intros a Ha Hac. apply Hframe; [lia..|done].
Qed.

(** What [coalesce] does on a heap that meets [coalesce_pre]: the returned
    block, its tags, the class lists, and the words it leaves alone. *)
Lemma coalesce_spec (st : heap) (bp : Z) (L : Z -> list Z) :
  coalesce_pre p st bp L ->
  let r := coalesce p st bp in
  fst r = merged_block p st bp /\
  GET (snd r) (HDRP p (fst r)) = PACK (merged_size p st bp) 0 /\
  GET (snd r) (fst r + merged_size p st bp - D) = PACK (merged_size p st bp) 0 /\
  seg_lists p (snd r) (merged_lists p st bp L) /\
  (forall a,
     a < merged_block p st bp - W \/
     merged_block p st bp + merged_size p st bp - W <= a ->
     (forall c, cell p st L c -> a < c \/ c + 2 * W <= a) ->
     GET (snd r) a = GET st a).
Proof.
  intros [HL [Hhd Hft] Hsz Hfit Hpt Hprev Hnext Hcells] r.
  pose proof (WSIZE_pos p) as HW.
  assert (HD : D = 2 * W) by reflexivity.
  unfold merged_lists, merged_block, merged_size in *.
  subst r. unfold coalesce.
  unfold prev_free, next_free in *.
  destruct (truth (GET_ALLOC st (FTRP p st (PREV_BLKP p st bp)))) eqn:Hpa;
  destruct (truth (GET_ALLOC st (HDRP p (NEXT_BLKP p st bp)))) eqn:Hna;
  cbn [andb negb] in *; cbv beta iota zeta; cbn [fst snd unlink_if].
  - (* Case 1 *)
    change (GET_SIZE st (HDRP p bp)) with (block_size p st bp).
    replace (block_size p st bp + 0 + 0) with (block_size p st bp) in * by lia.
    split; [done|].
    apply coalesce_finish; [done..| | |].
    + intros c Hc. apply Hcells; [done|discriminate..].
    + exact Hhd.
    + exact Hft.
  - (* Case 2 *)
    destruct (Hnext eq_refl) as (Hns & Hnf & Hnn). clear Hnext Hprev.
    change (GET_SIZE st (HDRP p bp)) with (block_size p st bp).
    change (GET_SIZE st (HDRP p (NEXT_BLKP p st bp)))
      with (block_size p st (NEXT_BLKP p st bp)).
    set (size := block_size p st bp) in *.
    set (next := NEXT_BLKP p st bp) in *.
    set (nsize := block_size p st next) in *.
    assert (Hnx : next = bp + size) by reflexivity.
    assert (Ht : wadd p size nsize = size + 0 + nsize).
    { unfold wadd. rewrite wrap_small; lia. }
    rewrite Ht. set (total := size + 0 + nsize) in *.
    assert (Hmod : total mod 8 = 0).
    { pose proof (GET_SIZE_mod st (HDRP p bp)).
      pose proof (GET_SIZE_mod st (HDRP p next)).
      subst total. fold (block_size p st bp) in *. fold (block_size p st next) in *.
      fold size in H. fold nsize in H0.
      rewrite Z.add_0_r, Z.add_mod, H, H0 by lia. done. }
    destruct (list_remove_spec p st L HL next Hnn) as [HL1 F1].
    set (st1 := list_remove p st next) in *.
    assert (Hc1 : forall c, cell p st1 (unlink next L) c ->
                    c + 2 * W <= bp - W \/ bp + total - W <= c).
    { intros c Hc. apply (cell_unlink st) in Hc as [Hc Hne]; [|done..].
      apply Hcells; [done|discriminate|done]. }
    split; [done|].
    unfold FTRP. rewrite GET_SIZE_PUT_eq by done.
    set (st3 := PUT (PUT st1 (HDRP p bp) (PACK total 0))
                    (bp + total - D) (PACK total 0)).
    destruct (coalesce_finish st3 (unlink next L) bp total)
      as (A & B & C & Fr).
    + apply PUT_outside_cells; [apply PUT_outside_cells; [done|]|].
      * intros c Hc. specialize (Hc1 c Hc). unfold HDRP. lia.
      * intros c Hc. specialize (Hc1 c Hc). lia.
    + lia.
    + exact Hc1.
    + subst st3. rewrite GET_PUT_ne by (unfold HDRP; lia). apply GET_PUT_eq.
    + apply GET_PUT_eq.
    + split; [exact A|]. split; [exact B|]. split; [exact C|].
      intros a Ha Hac. rewrite Fr; [|done|].
      * subst st3. rewrite !GET_PUT_ne by (unfold HDRP; lia). by apply F1.
      * intros c Hc. apply (cell_unlink st) in Hc as [Hc _]; [|done..].
        by apply Hac.
  - (* Case 3 *)
    destruct (Hprev eq_refl) as (Hps & Hpn). clear Hnext Hprev.
    change (GET_SIZE st (HDRP p bp)) with (block_size p st bp).
    change (GET_SIZE st (HDRP p (PREV_BLKP p st bp)))
      with (block_size p st (PREV_BLKP p st bp)).
    set (size := block_size p st bp) in *.
    set (prev := PREV_BLKP p st bp) in *.
    set (psize := block_size p st prev) in *.
    assert (Hpv : prev = bp - psize) by (by rewrite Hpt).
    assert (Ht : wadd p size psize = size + psize + 0).
    { unfold wadd. rewrite wrap_small; lia. }
    rewrite Ht. set (total := size + psize + 0) in *.
    destruct (list_remove_spec p st L HL prev Hpn) as [HL1 F1].
    set (st1 := list_remove p st prev) in *.
    assert (Hout : forall t, prev - W <= t < prev + total - W ->
                     t < prev \/ prev + 2 * W <= t ->
                     forall c, cell p st L c -> t < c \/ c + 2 * W <= t).
    { intros t Ht1 Ht2 c Hc. destruct (decide (c = prev)) as [->|Hne]; [done|].
      destruct (Hcells c Hc); [done|discriminate|lia..]. }
    assert (Hc1 : forall c, cell p st1 (unlink prev L) c ->
                    c + 2 * W <= prev - W \/ prev + total - W <= c).
    { intros c Hc. apply (cell_unlink st) in Hc as [Hc Hne]; [|done..].
      apply Hcells; [done|done|discriminate]. }
    assert (E1 : FTRP p st1 bp = prev + total - D).
    { unfold FTRP. rewrite (GET_SIZE_eq st st1).
      - fold (block_size p st bp). fold size. lia.
      - apply F1, Hout; unfold HDRP; lia. }
    rewrite E1.
    set (st2 := PUT st1 (prev + total - D) (PACK total 0)).
    assert (E2 : PREV_BLKP p st2 bp = prev).
    { unfold PREV_BLKP. rewrite (GET_SIZE_eq st st2).
      - fold (PREV_BLKP p st bp). done.
      - subst st2. rewrite GET_PUT_ne by lia. apply F1, Hout; lia. }
    rewrite E2.
    set (st3 := PUT st2 (HDRP p prev) (PACK total 0)).
    assert (E3 : PREV_BLKP p st3 bp = prev).
    { unfold PREV_BLKP. rewrite (GET_SIZE_eq st2 st3).
      - exact E2.
      - subst st3. rewrite GET_PUT_ne by (unfold HDRP; lia). done. }
    rewrite E3. split; [done|].
    destruct (coalesce_finish st3 (unlink prev L) prev total)
      as (A & B & C & Fr).
    + apply PUT_outside_cells; [apply PUT_outside_cells; [done|]|].
      * intros c Hc. specialize (Hc1 c Hc). lia.
      * intros c Hc. specialize (Hc1 c Hc). unfold HDRP. lia.
    + lia.
    + exact Hc1.
    + apply GET_PUT_eq.
    + subst st3. rewrite GET_PUT_ne by (unfold HDRP; lia). apply GET_PUT_eq.
    + split; [exact A|]. split; [exact B|]. split; [exact C|].
      intros a Ha Hac. rewrite Fr; [|done|].
      * subst st3 st2. rewrite !GET_PUT_ne by (unfold HDRP; lia). by apply F1.
      * intros c Hc. apply (cell_unlink st) in Hc as [Hc _]; [|done..].
        by apply Hac.
  - (* Case 4 *)
    destruct (Hprev eq_refl) as (Hps & Hpn).
    destruct (Hnext eq_refl) as (Hns & Hnf & Hnn). clear Hnext Hprev.
    rewrite Hnf.
    change (GET_SIZE st (HDRP p bp)) with (block_size p st bp).
    change (GET_SIZE st (HDRP p (PREV_BLKP p st bp)))
      with (block_size p st (PREV_BLKP p st bp)).
    set (size := block_size p st bp) in *.
    set (prev := PREV_BLKP p st bp) in *.
    set (next := NEXT_BLKP p st bp) in *.
    set (psize := block_size p st prev) in *.
    set (nsize := block_size p st next) in *.
    assert (Hpv : prev = bp - psize) by (by rewrite Hpt).
    assert (Hnx : next = bp + size) by reflexivity.
    assert (Ht : wadd p size (wadd p psize nsize) = size + psize + nsize).
    { unfold wadd. rewrite (wrap_small p (psize + nsize)) by lia.
      rewrite wrap_small; lia. }
    rewrite Ht. set (total := size + psize + nsize) in *.
    destruct (list_remove_spec p st L HL prev Hpn) as [HL1 F1].
    set (st1 := list_remove p st prev) in *.
    assert (Hnn1 : node (unlink prev L) next).
    { destruct Hnn as (j & Hj & Hin). exists j. split; [done|].
      unfold unlink. apply list_elem_of_filter. split; [lia|done]. }
    destruct (list_remove_spec p st1 (unlink prev L) HL1 next Hnn1)
      as [HL2 F2].
    set (st2 := list_remove p st1 next) in *.
    assert (Hout : forall t, prev - W <= t < prev + total - W ->
                     t < prev \/ prev + 2 * W <= t ->
                     t < next \/ next + 2 * W <= t ->
                     forall c, cell p st L c -> t < c \/ c + 2 * W <= t).
    { intros t Ht1 Ht2 Ht3 c Hc.
      destruct (decide (c = prev)) as [->|Hne]; [done|].
      destruct (decide (c = next)) as [->|Hne']; [done|].
      destruct (Hcells c Hc); [done|done|lia..]. }
    assert (Hout1 : forall t, prev - W <= t < prev + total - W ->
                      t < prev \/ prev + 2 * W <= t ->
                      t < next \/ next + 2 * W <= t ->
                      forall c, cell p st1 (unlink prev L) c ->
                                t < c \/ c + 2 * W <= t).
    { intros t Ht1 Ht2 Ht3 c Hc.
      apply (cell_unlink st) in Hc as [Hc Hne]; [|done..]. by apply Hout. }
    assert (Hc2 : forall c, cell p st2 (unlink next (unlink prev L)) c ->
                    c + 2 * W <= prev - W \/ prev + total - W <= c).
    { intros c Hc. apply (cell_unlink st1) in Hc as [Hc Hne]; [|done..].
      apply (cell_unlink st) in Hc as [Hc Hne']; [|done..].
      by apply Hcells. }
    assert (R2 : forall t, prev - W <= t < prev + total - W ->
                   t < prev \/ prev + 2 * W <= t ->
                   t < next \/ next + 2 * W <= t ->
                   GET st2 t = GET st t).
    { intros t Ht1 Ht2 Ht3. rewrite F2 by (by apply Hout1).
      apply F1. by apply Hout. }
    assert (E1 : NEXT_BLKP p st1 bp = next).
    { unfold NEXT_BLKP. rewrite (GET_SIZE_eq st st1); [done|].
      apply F1, Hout; lia. }
    rewrite E1. fold st2.
    assert (E2 : PREV_BLKP p st2 bp = prev).
    { unfold PREV_BLKP. rewrite (GET_SIZE_eq st st2); [done|].
      apply R2; lia. }
    rewrite E2.
    set (st3 := PUT st2 (HDRP p prev) (PACK total 0)).
    assert (E3 : NEXT_BLKP p st3 bp = next).
    { unfold NEXT_BLKP. rewrite (GET_SIZE_eq st st3); [done|].
      subst st3. rewrite GET_PUT_ne by (unfold HDRP; lia). apply R2; lia. }
    rewrite E3.
    assert (E4 : FTRP p st3 next = prev + total - D).
    { unfold FTRP. rewrite (GET_SIZE_eq st st3).
      - fold (block_size p st next). fold nsize. lia.
      - subst st3. rewrite GET_PUT_ne by (unfold HDRP; lia).
        apply R2; unfold HDRP; lia. }
    rewrite E4.
    set (st4 := PUT st3 (prev + total - D) (PACK total 0)).
    assert (E5 : PREV_BLKP p st4 bp = prev).
    { unfold PREV_BLKP. rewrite (GET_SIZE_eq st st4); [done|].
      subst st4 st3. rewrite !GET_PUT_ne by (unfold HDRP; lia).
      apply R2; lia. }
    rewrite E5. split; [done|].
    destruct (coalesce_finish st4 (unlink next (unlink prev L)) prev total)
      as (A & B & C & Fr).
    + apply PUT_outside_cells; [apply PUT_outside_cells; [done|]|].
      * intros c Hc. specialize (Hc2 c Hc). unfold HDRP. lia.
      * intros c Hc. specialize (Hc2 c Hc). lia.
    + lia.
    + exact Hc2.
    + subst st4. rewrite GET_PUT_ne by (unfold HDRP; lia). apply GET_PUT_eq.
    + apply GET_PUT_eq.
    + split; [exact A|]. split; [exact B|]. split; [exact C|].
      intros a Ha Hac. rewrite Fr; [|done|].
      * subst st4 st3. rewrite !GET_PUT_ne by (unfold HDRP; lia).
        rewrite F2; [by apply F1|].
        intros c Hc. apply (cell_unlink st) in Hc as [Hc _]; [|done..].
        by apply Hac.
      * intros c Hc. apply (cell_unlink st1) in Hc as [Hc _]; [|done..].
        apply (cell_unlink st) in Hc as [Hc _]; [|done..]. by apply Hac.
Qed.
End CoalesceFacts.

(** ** Soundness of the decidable versions *)

Section CheckerFacts.
Variable p : platform.

Local Abbreviation W := (WSIZE p).
Local Abbreviation D := (DSIZE p).

Lemma all_apartb_spec (l : list Z) :
  all_apartb p l = true ->
  NoDup l /\ forall c c', c ∈ l -> c' ∈ l -> c = c' \/ apart p c c'.
Proof.
  pose proof (WSIZE_pos p) as HW.
  induction l as [|x l IH]; simpl.
  - intros _. split; [apply NoDup_nil_2|]. intros c c' Hc. by apply elem_of_nil in Hc.
  - intros [Hx Hl]%andb_prop. destruct (IH Hl) as [Hnd Hpw].
    rewrite forallb_forall in Hx.
    assert (Hx' : forall c, c ∈ l -> apart p x c).
    { intros c Hc. apply apartb_spec, Hx. by apply list_elem_of_In. }
    split.
    + apply NoDup_cons. split; [|done].
      intros Hin. destruct (Hx' x Hin); lia.
    + intros c c' Hc Hc'.
      apply elem_of_cons in Hc as [->|Hc];
        apply elem_of_cons in Hc' as [->|Hc'].
      * by left.
      * right. by apply Hx'.
      * right. destruct (Hx' c Hc); unfold apart; lia.
      * by apply Hpw.
Qed.

Lemma elem_of_nodes_from (L : Z -> list Z) (js : list Z) (c : Z) :
  c ∈ nodes_from L js <-> exists j, j ∈ js /\ c ∈ L j.
Proof.
  induction js as [|j js IH]; simpl.
  - split; [by intros ?%elem_of_nil|]. by intros (j & ?%elem_of_nil & _).
  - rewrite elem_of_app, IH. split.
    + intros [Hc|(j' & Hj' & Hc)].
      * exists j. split; [apply list_elem_of_here|done].
      * exists j'. split; [by apply list_elem_of_further|done].
    + intros (j' & Hj' & Hc). apply elem_of_cons in Hj' as [->|Hj'].
      * by left.
      * right. by exists j'.
Qed.

Lemma NoDup_nodes_from (L : Z -> list Z) (js : list Z) :
  NoDup (nodes_from L js) ->
  (forall j, j ∈ js -> NoDup (L j)) /\
  (forall j j' c, j ∈ js -> j' ∈ js -> c ∈ L j -> c ∈ L j' ->
                  j = j' \/ False).
Proof.
  induction js as [|j0 js IH]; simpl.
  - intros _. split; [by intros j ?%elem_of_nil|].
    by intros j j' c ?%elem_of_nil.
  - intros (Hnd0 & Hdis & Hnd)%NoDup_app. destruct (IH Hnd) as [IH1 IH2].
    split.
    + intros j [->|Hj]%elem_of_cons; [done|by apply IH1].
    + intros j j' c [->|Hj]%elem_of_cons [->|Hj']%elem_of_cons Hc Hc'.
      * by left.
      * right. apply (Hdis c Hc). apply elem_of_nodes_from. by exists j'.
      * right. apply (Hdis c Hc'). apply elem_of_nodes_from. by exists j.
      * by apply (IH2 j j' c).
Qed.

Lemma node_nodes_from (L : Z -> list Z) (c : Z) :
  node L c <-> c ∈ nodes_from L (seqZ 0 SEGSIZE).
Proof.
  rewrite elem_of_nodes_from. unfold node.
  split; intros (j & Hj & Hc); exists j; (split; [|done]).
  - apply elem_of_seqZ. lia.
  - apply elem_of_seqZ in Hj. lia.
Qed.

Lemma sentinel_cells_of (st : heap) (c : Z) :
  sentinel p st c <-> c ∈ seg_entry p st <$> seqZ 0 SEGSIZE.
Proof.
  rewrite list_elem_of_fmap. unfold sentinel.
  split; intros (k & H1 & H2); exists k.
  - split; [done|]. apply elem_of_seqZ. lia.
  - split; [|done]. apply elem_of_seqZ in H2. lia.
Qed.

Lemma cell_cells_of (st : heap) (L : Z -> list Z) (c : Z) :
  cell p st L c <-> c ∈ cells_of p st L.
Proof.
  unfold cell, cells_of.
  by rewrite elem_of_app, sentinel_cells_of, node_nodes_from.
Qed.

Lemma seg_listsb_spec (st : heap) (L : Z -> list Z) :
  seg_listsb p st L = true -> seg_lists p st L.
Proof.
  intros [Hch Hap]%andb_prop.
  apply all_apartb_spec in Hap as [Hnd Hpw].
  unfold cells_of in Hnd. apply NoDup_app in Hnd as (_ & Hdis & Hnd).
  apply NoDup_nodes_from in Hnd as [Hnd Hcl].
  constructor.
  - intros j Hj. apply chainb_spec.
    apply (forallb_seqZ (fun j => class_listb p st j (L j)) 0 SEGSIZE);
      [done|lia].
  - intros j Hj. apply Hnd. apply elem_of_seqZ. lia.
  - intros j j' c Hj Hj' Hc Hc'.
    destruct (Hcl j j' c); [apply elem_of_seqZ; lia..|done|done|done|done].
  - intros c Hc Hs. apply sentinel_cells_of in Hs.
    apply (Hdis c Hs). by apply node_nodes_from.
  - intros c c' Hc Hc'. apply Hpw; by apply cell_cells_of.
Qed.

Lemma memberb_spec (c : Z) (l : list Z) : memberb c l = true -> c ∈ l.
Proof.
  unfold memberb. rewrite existsb_exists. intros (x & Hx & ->%Z.eqb_eq).
  by apply list_elem_of_In.
Qed.

End CheckerFacts.



Example merged_lists_with_gaps :
  let st := mark_free LP64 heap_with_gaps 4320 in
  merged_size LP64 st 4320 = 96 /\
  merged_lists LP64 st 4320 lists_with_gaps 2 = [4288] /\
  merged_lists LP64 st 4320 lists_with_gaps 0 = [] /\
  merged_lists LP64 st 4320 lists_with_gaps 7 = [4416].
Proof. vm_compute. repeat (split; [reflexivity|]). reflexivity. Qed.

(** ** Two runs of the allocator *)

(** [mm_malloc(16)], [mm_free], [mm_malloc(16)]: the freed block is handed
    out again, allocated and in no class list. *)
Example malloc_free_malloc :
  let st := mm_free LP64 (heap_with_block 8192) 4288 in
  match mm_malloc LP64 8 st 16 with
  | Some (bp, st') =>
      bp = 4288 /\ is_free LP64 st' bp = false /\
      membership_ok LP64 8 st' = true
  | None => False
  end.
Proof. vm_compute. repeat (split; [reflexivity|]). reflexivity. Qed.

(** [mm_malloc(100)], [mm_malloc(200)], [mm_free] of the first,
    [mm_malloc(50)]: the third request is served from the freed block and
    the break does not move. *)
Example first_fit_reuse :
  let st := fold_left run_malloc [100; 200] (init_heap 8192) in
  let st := mm_free LP64 st 4288 in
  match mm_malloc LP64 8 st 50 with
  | Some (bp, st') => bp = 4288 /\ mem_brk st' = mem_brk st
  | None => False
  end.
Proof. vm_compute. split; reflexivity. Qed.

(** ** Request sizes and the first-fit search *)

Lemma wbounds (p : platform) : 4 <= WSIZE p <= 8 /\ DSIZE p = 2 * WSIZE p /\
  2 ^ 32 <= wmod p /\ wmod p mod 8 = 0.
Proof. destruct p; vm_compute; repeat split; congruence. Qed.

Lemma adjust_size_fits (p : platform) (size : Z) :
  0 < size -> size + DSIZE p + 7 < wmod p ->
  adjust_size p size mod ALIGN_SIZE = 0 /\
  size + DSIZE p <= adjust_size p size /\
  2 * DSIZE p <= adjust_size p size /\
  adjust_size p size <= Z.max (2 * DSIZE p) (size + DSIZE p + 7).
Proof.
  intros Hs Hfit. destruct (wbounds p) as (HW & HD & Hm & _).
  unfold adjust_size, ALIGN_SIZE.
  destruct (Z.leb_spec size (DSIZE p)).
  - split; [|lia]. rewrite HD. replace (2 * (2 * WSIZE p)) with (WSIZE p / 4 * 4 * 4) .
    + destruct p; reflexivity.
    + destruct p; reflexivity.
  - unfold wmul, wadd. change (8 - 1) with 7.
    rewrite (wrap_small p (size + DSIZE p)) by lia.
    rewrite (wrap_small p (size + DSIZE p + 7)) by lia.
    pose proof (Z.div_mod (size + DSIZE p + 7) 8 ltac:(lia)) as Hdm.
    pose proof (Z.mod_pos_bound (size + DSIZE p + 7) 8 ltac:(lia)) as Hmb.
    rewrite wrap_small by lia.
    split; [|lia]. rewrite Z.mul_comm. apply Z.mod_mul. lia.
Qed.

Lemma malloc_asize_bounds (p : platform) (size : Z) :
  0 < size -> size + DSIZE p + 7 < wmod p ->
  malloc_asize p size mod ALIGN_SIZE = 0 /\
  size + DSIZE p <= malloc_asize p size /\
  2 * DSIZE p <= malloc_asize p size.
Proof.
  intros Hs Hfit. destruct (wbounds p) as (HW & HD & Hm & _).
  unfold malloc_asize.
  destruct (Z.leb_spec size (16 * DSIZE p)) as [Hsmall|Hbig].
  - pose proof (small_requests_ok p size ltac:(lia)) as Hok.
    unfold small_request_ok, malloc_asize in Hok.
    set (r := next_power_of_2 p size) in *.
    set (asz := adjust_size p (round_request p size)) in *.
    apply andb_prop in Hok as [Hok Hmin]. apply andb_prop in Hok as [Hok Hcase].
    apply andb_prop in Hok as [Hround Hpow].
    apply Z.eqb_eq in Hpow. apply Z.leb_le in Hmin.
    assert (Hle : size <= r).
    { rewrite Hpow. destruct (Z.eq_dec size 1) as [->|Hne]; [done|].
      apply Z.log2_up_spec. lia. }
    destruct (Z.leb_spec r (DSIZE p)).
    + apply Z.eqb_eq in Hcase. rewrite Hcase.
      split; [destruct p; reflexivity|lia].
    + apply andb_prop in Hcase as [Hcase Hhi].
      apply andb_prop in Hcase as [Hmod Hlo].
      apply Z.eqb_eq in Hmod. apply Z.leb_le in Hlo. lia.
  - unfold round_request. destruct (Z.leb_spec size (16 * DSIZE p)); [lia|].
    destruct (adjust_size_fits p size Hs Hfit) as (H1 & H2 & H3 & _). done.
Qed.

(** X2: for a request that does not overflow [size_t], the block size
    [mm_malloc] computes is a multiple of the alignment, leaves room for the
    payload and the two boundary tags, and is at least the minimum block
    size. *)
Theorem malloc_asize_fits (p : platform) (size : Z) :
  0 < size -> size + DSIZE p + 7 < wmod p ->
  malloc_asize p size mod ALIGN_SIZE = 0 /\
  size + DSIZE p <= malloc_asize p size /\
  2 * DSIZE p <= malloc_asize p size.
Proof. apply malloc_asize_bounds. Qed.

Lemma malloc_asize_fits_witness :
  1000 + DSIZE LP64 <= malloc_asize LP64 1000.
Proof.
  refine (proj1 (proj2 (malloc_asize_fits LP64 1000 _ _))).
  - lia.
  - vm_compute. reflexivity.
Defined.

(** X3: the byte count [extend_heap] asks of [mem_sbrk] is a multiple of
    the double word size: the word count itself when it is even, one word
    more when it is odd. *)
Theorem extend_bytes_even (p : platform) (words : Z) :
  0 <= words -> (words + 1) * WSIZE p < wmod p ->
  extend_bytes p words mod DSIZE p = 0 /\
  words * WSIZE p <= extend_bytes p words <= (words + 1) * WSIZE p.
Proof.
  intros Hw Hfit. destruct (wbounds p) as (HW & HD & Hm & _).
  unfold extend_bytes, wmul, wadd.
  pose proof (Z.div_mod words 2 ltac:(lia)) as Hdm.
  pose proof (Z.mod_pos_bound words 2 ltac:(lia)) as Hmb.
  destruct (Z.eqb_spec (words mod 2) 0) as [He|Ho]; simpl.
  - rewrite wrap_small by nia. split; [|nia].
    rewrite HD. replace (words * WSIZE p) with (words / 2 * (2 * WSIZE p)) by nia.
    apply Z.mod_mul. lia.
  - rewrite (wrap_small p (words + 1)) by nia. rewrite wrap_small by nia.
    split; [|nia].
    rewrite HD.
    replace ((words + 1) * WSIZE p) with ((words / 2 + 1) * (2 * WSIZE p)) by nia.
    apply Z.mod_mul. lia.
Qed.

Lemma extend_bytes_even_witness :
  extend_bytes LP64 513 mod DSIZE LP64 = 0.
Proof.
  refine (proj1 (extend_bytes_even LP64 513 _ _)).
  - lia.
  - vm_compute. reflexivity.
Defined.

Section FitFacts.
Variable p : platform.

Lemma find_fit_list_sound (st : heap) (head asize : Z) (fuel : nat) :
  forall bp r,
    find_fit_list p fuel st head bp asize = Some r -> r <> NULL ->
    asize <= GET_SIZE st (HDRP p r).
Proof.
  induction fuel as [|fuel IH]; intros bp r; simpl; [done|].
  destruct ((bp =? NULL) || (bp =? head)).
  - intros [= <-] Hr. done.
  - destruct (Z.leb_spec asize (GET_SIZE st (HDRP p bp))).
    + intros [= <-] _. done.
    + apply IH.
Qed.

Lemma find_fit_from_sound (st : heap) (asize : Z) (fuel : nat)
    (classes : list Z) (r : Z) :
  find_fit_from p fuel st asize classes = Some r -> r <> NULL ->
  asize <= GET_SIZE st (HDRP p r).
Proof.
  induction classes as [|i classes IH]; simpl.
  - intros [= <-] Hr. done.
  - destruct (find_fit_list p fuel st _ _ asize) as [bp|] eqn:Hl; [|done].
    destruct (Z.eqb_spec bp NULL) as [->|Hbp]; [exact IH|].
    intros [= <-] _. by apply (find_fit_list_sound _ _ _ _ _ _ Hl).
Qed.

(** The walk of one well-formed class list is [find] on its nodes. *)
Lemma find_fit_list_chain (st : heap) (asize z : Z) (l : list Z) :
  forall a fuel,
    chain p st a l z ->
    (forall c, c ∈ l -> c <> NULL /\ c <> z) ->
    (length l < fuel)%nat ->
    find_fit_list p fuel st z (next_list st a) asize
      = Some (match find (fits p st asize) l with
              | Some bp => bp
              | None => NULL
              end).
Proof.
  induction l as [|n l IH]; intros a fuel Hch Hnz Hfuel; simpl in *.
  - destruct Hch as [-> _]. destruct fuel as [|fuel]; [lia|]. simpl.
    rewrite Z.eqb_refl, orb_true_r. done.
  - destruct Hch as (-> & _ & Hch). destruct fuel as [|fuel]; [lia|]. simpl.
    destruct (Hnz n) as [Hn0 Hnz']; [apply list_elem_of_here|].
    destruct (Z.eqb_spec n NULL); [done|]. destruct (Z.eqb_spec n z); [done|].
    simpl. unfold fits at 1.
    destruct (Z.leb_spec asize (GET_SIZE st (HDRP p n))); [done|].
    apply IH; [done| |lia].
    intros c Hc. apply Hnz. by apply list_elem_of_further.
Qed.

Lemma find_app_or {A} (f : A -> bool) (l1 l2 : list A) :
  find f (l1 ++ l2) = match find f l1 with
                      | Some x => Some x
                      | None => find f l2
                      end.
Proof.
  induction l1 as [|x l1 IH]; simpl; [done|]. by destruct (f x).
Qed.

Lemma find_some_nonnull (st : heap) (asize : Z) (l : list Z) (bp : Z) :
  (forall c, c ∈ l -> c <> NULL) ->
  find (fits p st asize) l = Some bp -> bp <> NULL.
Proof.
  intros Hl Hf. apply find_some in Hf as [Hin _].
  apply Hl. by apply list_elem_of_In.
Qed.

Lemma find_fit_from_lists (st : heap) (L : Z -> list Z) (asize : Z)
    (fuel : nat) (classes : list Z) :
  seg_lists p st L ->
  (forall c, node L c -> c <> NULL) ->
  (forall j, 0 <= j < SEGSIZE -> (length (L j) < fuel)%nat) ->
  (forall j, j ∈ classes -> 0 <= j < SEGSIZE) ->
  find_fit_from p fuel st asize classes
    = Some (match find (fits p st asize) (concat (map L classes)) with
            | Some bp => bp
            | None => NULL
            end).
Proof.
  intros HL Hnn Hfuel. induction classes as [|i classes IH]; intros Hcl.
  - done.
  - assert (Hi : 0 <= i < SEGSIZE) by (apply Hcl, list_elem_of_here).
    simpl. rewrite find_app_or.
    rewrite (find_fit_list_chain st asize _ (L i)); [|by apply (sl_chain _ _ _ HL)| |by apply Hfuel].
    + destruct (find (fits p st asize) (L i)) as [bp|] eqn:Hf.
      * apply find_some_nonnull in Hf.
        -- by destruct (Z.eqb_spec bp NULL).
        -- intros c Hc. apply Hnn. by exists i.
      * simpl. apply IH. intros j Hj. apply Hcl. by apply list_elem_of_further.
    + intros c Hc. split; [apply Hnn; by exists i|].
      intros ->. apply (sl_sent _ _ _ HL (seg_entry p st i)); [by exists i|by exists i].
Qed.
End FitFacts.

(** X4: a block that [find_fit] returns is large enough for the
    request. *)
Theorem find_fit_sound (p : platform) (fuel : nat) (st : heap) (asize r : Z) :
  find_fit p fuel st asize = Some r -> r <> NULL ->
  asize <= GET_SIZE st (HDRP p r).
Proof. apply find_fit_from_sound. Qed.

Lemma find_fit_scan
    (p : platform) (fuel : nat) (st : heap) (L : Z -> list Z) (asize : Z) :
  seg_lists p st L ->
  (forall c, node L c -> c <> NULL) ->
  (forall j, 0 <= j < SEGSIZE -> (length (L j) < fuel)%nat) ->
  find_fit p fuel st asize = Some (first_fit p st L asize).
Proof.
  intros HL Hnn Hfuel. unfold find_fit, first_fit, scan_order.
  apply find_fit_from_lists; [done..|].
  intros j Hj. unfold find_fit_classes in Hj. apply elem_of_seqZ in Hj.
  pose proof (seg_index_range asize). lia.
Qed.

(** X5: on well-formed class lists [find_fit] is a first-fit search: it
    returns the first block that is large enough, scanning the lists of the
    classes from [seg_index asize] upwards, each from its head, and [NULL]
    when there is none. *)
Theorem find_fit_first_fit
    (p : platform) (fuel : nat) (st : heap) (L : Z -> list Z) (asize : Z) :
  seg_lists p st L ->
  (forall c, node L c -> c <> NULL) ->
  (forall j, 0 <= j < SEGSIZE -> (length (L j) < fuel)%nat) ->
  find_fit p fuel st asize = Some (first_fit p st L asize).
Proof. apply find_fit_scan. Qed.

(** ** Placing a request *)

Lemma PACK_1 (s : Z) : s mod 8 = 0 -> PACK s 1 = s + 1.
Proof.
  intros Hs. unfold PACK. pose proof (Z.add_lor_land s 1) as H.
  assert (Z.land s 1 = 0); [|lia].
  change 1 with (Z.ones 1) at 1. rewrite Z.land_ones by lia.
  change (2 ^ 1) with 2. 
  pose proof (Z.div_mod s 8 ltac:(lia)). 
  rewrite H0, Hs, Z.add_0_r. replace (8 * (s / 8)) with (s / 8 * 4 * 2) by lia.
  apply Z.mod_mul. lia.
Qed.

Lemma GET_SIZE_PUT_1 (st : heap) (a s : Z) :
  s mod 8 = 0 -> GET_SIZE (PUT st a (PACK s 1)) a = s.
Proof.
  intros Hs. unfold GET_SIZE. rewrite GET_PUT_eq, PACK_1, clear_low_bits by done.
  pose proof (Z.div_mod s 8 ltac:(lia)).
  assert ((s + 1) / 8 = s / 8); [|lia].
  replace (s + 1) with (1 + s / 8 * 8) by lia.
  rewrite Z.div_add by lia. reflexivity.
Qed.

Section PlaceFacts.
Variable p : platform.

Local Abbreviation W := (WSIZE p).
Local Abbreviation D := (DSIZE p).

(** Every cell other than the node itself lies outside a listed block. *)
Lemma free_table_cells (st : heap) (L : Z -> list Z) (n c : Z) :
  free_table p st L -> node L n -> cell p st L c -> c <> n ->
  c + 2 * W <= n - W \/ n + block_size p st n - W <= c.
Proof.
  intros HT Hn [Hc|Hc] Hne.
  - by apply (ft_sent _ _ _ HT).
  - destruct (wbounds p) as (HW & HD & _).
    pose proof (ft_size _ _ _ HT c Hc). pose proof (ft_size _ _ _ HT n Hn).
    destruct (ft_disj _ _ _ HT c n Hc Hn Hne); lia.
Qed.

Lemma place_spec (st : heap) (bp asize : Z) (L : Z -> list Z) :
  seg_lists p st L -> node L bp ->
  2 * D <= asize -> asize mod 8 = 0 ->
  asize <= block_size p st bp < wmod p ->
  (forall c, cell p st L c -> c <> bp ->
     c + 2 * W <= bp - W \/ bp + block_size p st bp - W <= c) ->
  let csize := block_size p st bp in
  let st' := place p st bp asize in
  let used := placed_size p st bp asize in
  GET st' (HDRP p bp) = PACK used 1 /\
  GET st' (bp + used - D) = PACK used 1 /\
  (place_splits p st bp asize = true ->
     GET st' (HDRP p (bp + asize)) = PACK (csize - asize) 0 /\
     GET st' (bp + csize - D) = PACK (csize - asize) 0) /\
  seg_lists p st' (placed_lists p st bp asize L) /\
  (forall a, a < bp - W \/ bp + csize - W <= a ->
     (forall c, cell p st L c -> a < c \/ c + 2 * W <= a) ->
     GET st' a = GET st a).
Proof.
  intros HL Hn Ha Hmod Hsz Hcells csize st' used.
  destruct (wbounds p) as (HW & HD & Hm & _).
  destruct (list_remove_spec p st L HL bp Hn) as [HL1 F1].
  assert (Hc1 : forall c, cell p (list_remove p st bp) (unlink bp L) c ->
                  c + 2 * W <= bp - W \/ bp + csize - W <= c).
  { intros c Hc. apply (cell_unlink p st) in Hc as [Hc Hne]; [|done..].
    by apply Hcells. }
  assert (Hcmod : csize mod 8 = 0) by apply GET_SIZE_mod.
  subst st' used. unfold place, placed_size, placed_lists, place_splits.
  fold (block_size p st bp). fold csize.
  assert (Hws : wsub p csize asize = csize - asize).
  { unfold wsub. apply wrap_small. lia. }
  rewrite Hws, Z.geb_leb.
  set (st1 := list_remove p st bp) in *.
  destruct (Z.leb_spec (2 * D) (csize - asize)) as [Hsplit|Hwhole].
  - set (rem := csize - asize) in *.
    assert (Hrmod : rem mod 8 = 0).
    { subst rem. rewrite Zminus_mod, Hcmod, Hmod. done. }
    set (st2 := PUT st1 (HDRP p bp) (PACK asize 1)).
    assert (E0 : FTRP p st2 bp = bp + asize - D).
    { unfold FTRP. subst st2. by rewrite GET_SIZE_PUT_1. }
    rewrite E0.
    set (st3 := PUT st2 (bp + asize - D) (PACK asize 1)).
    assert (E1 : NEXT_BLKP p st3 bp = bp + asize).
    { unfold NEXT_BLKP. subst st3. fold (HDRP p bp).
      rewrite (GET_SIZE_eq st2); [|by rewrite GET_PUT_ne by (unfold HDRP; lia)].
      subst st2. by rewrite GET_SIZE_PUT_1. }
    rewrite E1.
    set (st4 := PUT st3 (HDRP p (bp + asize)) (PACK rem 0)).
    assert (E2 : FTRP p st4 (bp + asize) = bp + asize + rem - D).
    { unfold FTRP. subst st4. by rewrite GET_SIZE_PUT_eq. }
    rewrite E2.
    set (st5 := PUT st4 (bp + asize + rem - D) (PACK rem 0)).
    destruct (coalesce_finish p st5 (unlink bp L) (bp + asize) rem)
      as (A & B & C & Fr).
    + repeat (apply PUT_outside_cells; [|intros c Hc; specialize (Hc1 c Hc);
                                          unfold HDRP; lia]).
      done.
    + done.
    + intros c Hc. specialize (Hc1 c Hc). lia.
    + subst st5. rewrite GET_PUT_ne by (unfold HDRP; lia). apply GET_PUT_eq.
    + apply GET_PUT_eq.
    + split; [|split; [|split; [|split]]].
      * rewrite Fr.
        -- subst st5 st4 st3. rewrite !GET_PUT_ne by (unfold HDRP; lia).
           apply GET_PUT_eq.
        -- unfold HDRP. lia.
        -- intros c Hc. specialize (Hc1 c Hc). unfold HDRP. lia.
      * rewrite Fr.
        -- subst st5 st4. rewrite !GET_PUT_ne by (unfold HDRP; lia).
           apply GET_PUT_eq.
        -- lia.
        -- intros c Hc. specialize (Hc1 c Hc). lia.
      * intros _. split; [exact A|].
        replace (bp + csize - D) with (bp + asize + rem - D) by lia. exact B.
      * exact C.
      * intros a Ha1 Ha2. rewrite Fr.
        -- subst st5 st4 st3 st2. rewrite !GET_PUT_ne by (unfold HDRP; lia).
           by apply F1.
        -- lia.
        -- intros c Hc. apply (cell_unlink p st) in Hc as [Hc _]; [|done..].
           by apply Ha2.
  - unfold FTRP. rewrite GET_SIZE_PUT_1 by done.
    split; [|split; [|split; [|split]]].
    + rewrite GET_PUT_ne by (unfold HDRP; lia). apply GET_PUT_eq.
    + apply GET_PUT_eq.
    + intros Hs. discriminate.
    + repeat (apply PUT_outside_cells; [|intros c Hc; specialize (Hc1 c Hc);
                                          unfold HDRP; lia]).
      done.
    + intros a Ha1 Ha2. rewrite !GET_PUT_ne by (unfold HDRP; lia). by apply F1.
Qed.
End PlaceFacts.

Section PlaceTable.
Variable p : platform.

Local Abbreviation W := (WSIZE p).
Local Abbreviation D := (DSIZE p).

Lemma place_globals (st : heap) (bp asize : Z) :
  seg_first (place p st bp asize) = seg_first st /\
  heap_listp (place p st bp asize) = heap_listp st /\
  mem_brk (place p st bp asize) = mem_brk st /\
  mem_max_addr (place p st bp asize) = mem_max_addr st.
Proof. unfold place. by destruct (_ >=? _). Qed.

Lemma GET_ALLOC_PACK_1 (st : heap) (a s : Z) :
  s mod 8 = 0 -> GET st a = PACK s 1 ->
  GET_SIZE st a = s /\ GET_ALLOC st a = 1.
Proof.
  intros Hs Hg. unfold GET_SIZE, GET_ALLOC. rewrite Hg, PACK_1 by done.
  pose proof (Z.div_mod s 8 ltac:(lia)).
  split.
  - rewrite clear_low_bits. 
    assert ((s + 1) / 8 = s / 8); [|lia].
    replace (s + 1) with (1 + s / 8 * 8) by lia.
    rewrite Z.div_add by lia. reflexivity.
  - change 1 with (Z.ones 1) at 2. rewrite Z.land_ones by lia.
    change (2 ^ 1) with 2.
    replace (s + 1) with (1 + s / 8 * 4 * 2) by lia.
    rewrite Z.mod_add by lia. reflexivity.
Qed.

Lemma GET_SIZE_PACK_0 (st : heap) (a s : Z) :
  s mod 8 = 0 -> GET st a = PACK s 0 -> GET_SIZE st a = s.
Proof.
  intros Hs Hg. unfold GET_SIZE. rewrite Hg, PACK_0, clear_low_bits.
  pose proof (Z.div_mod s 8 ltac:(lia)). lia.
Qed.

(** The tags of a listed block lie in no cell. *)
Lemma free_table_tags_outside (st : heap) (L : Z -> list Z) (n c : Z) :
  free_table p st L -> node L n -> cell p st L c ->
  (HDRP p n < c \/ c + 2 * W <= HDRP p n) /\
  (n + block_size p st n - D < c \/ c + 2 * W <= n + block_size p st n - D).
Proof.
  intros HT Hn Hc. destruct (wbounds p) as (HW & HD & _).
  pose proof (ft_size _ _ _ HT n Hn). unfold HDRP.
  destruct (decide (c = n)) as [->|Hne]; [lia|].
  pose proof (free_table_cells p st L n c HT Hn Hc Hne). lia.
Qed.

Lemma place_table (st : heap) (bp asize : Z) (L : Z -> list Z) :
  free_table p st L -> node L bp ->
  2 * D <= asize -> asize mod 8 = 0 -> asize <= block_size p st bp ->
  let st' := place p st bp asize in
  let L' := placed_lists p st bp asize L in
  free_table p st' L' /\
  ~ node L' bp /\
  GET_ALLOC st' (HDRP p bp) = 1 /\
  GET_SIZE st' (HDRP p bp) = placed_size p st bp asize /\
  GET st' (bp + placed_size p st bp asize - D) = GET st' (HDRP p bp) /\
  asize <= placed_size p st bp asize < asize + 2 * D /\
  mem_brk st' = mem_brk st /\
  (forall n, node L n -> n <> bp ->
     GET st' (HDRP p n) = GET st (HDRP p n) /\
     GET st' (n + block_size p st n - D) = GET st (n + block_size p st n - D)).
Proof.
  intros HT Hn Ha Hmod Hle st' L'.
  destruct (wbounds p) as (HW & HD & Hm & _).
  pose proof (ft_lists _ _ _ HT) as HL.
  pose proof (ft_size _ _ _ HT bp Hn) as Hbs.
  pose proof (ft_pos _ _ _ HT bp Hn) as Hbpos.
  destruct (place_spec p st bp asize L HL Hn Ha Hmod ltac:(lia))
    as (Hh & Hf & Hrem & HL' & Hfr).
  { intros c Hc Hne. by apply (free_table_cells p st L). }
  fold st' in Hh, Hf, Hrem, HL', Hfr. fold L' in HL'.
  destruct (place_globals st bp asize) as (Gs & _ & Gb & _). fold st' in Gs, Gb.
  set (csize := block_size p st bp) in *.
  assert (Hcmod : csize mod 8 = 0) by apply GET_SIZE_mod.
  assert (Hused : asize <= placed_size p st bp asize < asize + 2 * D /\
                  placed_size p st bp asize mod 8 = 0).
  { unfold placed_size, place_splits. fold csize.
    destruct (Z.leb_spec (2 * D) (csize - asize)); lia. }
  destruct (GET_ALLOC_PACK_1 st' (HDRP p bp) _ (proj2 Hused) Hh) as [Hgs Hga].
  (* old nodes keep their tags *)
  assert (Hold : forall n, node L n -> n <> bp ->
            GET st' (HDRP p n) = GET st (HDRP p n) /\
            GET st' (n + block_size p st n - D)
              = GET st (n + block_size p st n - D)).
  { intros n Hnn Hne.
    pose proof (ft_size _ _ _ HT n Hnn) as Hns.
    pose proof (ft_disj _ _ _ HT n bp Hnn Hn Hne) as Hd. fold csize in Hd.
    split; apply Hfr.
    - unfold HDRP. lia.
    - intros c Hc. by apply (free_table_tags_outside st L n c).
    - lia.
    - intros c Hc. by apply (free_table_tags_outside st L n c). }
  assert (Hbsold : forall n, node L n -> n <> bp ->
            block_size p st' n = block_size p st n).
  { intros n Hnn Hne. unfold block_size. apply GET_SIZE_eq.
    by apply Hold. }
  (* the nodes after the call *)
  assert (Hnodes : forall n, node L' n ->
            (n = bp + asize /\ place_splits p st bp asize = true) \/
            (node L n /\ n <> bp)).
  { intros n (j & Hj & Hin). subst L'. unfold placed_lists in Hin.
    destruct (place_splits p st bp asize) eqn:Hsp.
    - apply elem_of_push in Hin as [[_ ->]|Hin]; [by left|].
      right. apply (node_unlink L bp). by exists j.
    - right. apply (node_unlink L bp). by exists j. }
  assert (Hnew : place_splits p st bp asize = true ->
            block_size p st' (bp + asize) = csize - asize /\
            2 * D <= csize - asize).
  { intros Hsp. destruct (Hrem Hsp) as [Hrh _].
    unfold place_splits in Hsp. fold csize in Hsp. apply Z.leb_le in Hsp.
    split; [|done]. unfold block_size. apply GET_SIZE_PACK_0; [|done].
    rewrite Zminus_mod, Hcmod, Hmod. done. }
  assert (Hsent : forall c, sentinel p st' c <-> sentinel p st c).
  { intros c. unfold sentinel, seg_entry. by rewrite Gs. }
  split; [|split; [|split; [|split; [|split; [|split; [|split]]]]]];
    [|  | exact Hga | exact Hgs | by rewrite Hf, Hh | tauto | exact Gb
     | exact Hold].
  - constructor.
    + exact HL'.
    + intros n Hnn. destruct (Hnodes n Hnn) as [[-> _]|[Hnn' _]]; [lia|].
      by apply (ft_pos _ _ _ HT).
    + intros n Hnn. destruct (Hnodes n Hnn) as [[-> Hsp]|[Hnn' Hne]].
      * destruct (Hnew Hsp) as [-> ?]. lia.
      * rewrite Hbsold by done. by apply (ft_size _ _ _ HT).
    + intros j n Hj Hin.
      assert (Hnn : node L' n) by (by exists j).
      subst L'. unfold placed_lists in Hin.
      destruct (place_splits p st bp asize) eqn:Hsp.
      * apply elem_of_push in Hin as [[-> ->]|Hin].
        -- destruct (Hnew eq_refl) as [-> _]. done.
        -- unfold unlink in Hin. apply list_elem_of_filter in Hin as [Hne Hin].
           rewrite Hbsold; [by apply (ft_class _ _ _ HT)|by exists j|done].
      * unfold unlink in Hin. apply list_elem_of_filter in Hin as [Hne Hin].
        rewrite Hbsold; [by apply (ft_class _ _ _ HT)|by exists j|done].
    + intros n Hnn. destruct (Hnodes n Hnn) as [[-> Hsp]|[Hnn' Hne]].
      * destruct (Hnew Hsp) as [-> _]. destruct (Hrem Hsp) as [H1 H2].
        split; [exact H1|].
        replace (bp + asize + (csize - asize) - D) with (bp + csize - D) by lia.
        exact H2.
      * rewrite Hbsold by done. destruct (Hold n Hnn' Hne) as [-> ->].
        by apply (ft_tags _ _ _ HT).
    + intros c n Hc Hnn. apply Hsent in Hc.
      pose proof (ft_sent _ _ _ HT c bp Hc Hn) as Hsb. fold csize in Hsb.
      destruct (Hnodes n Hnn) as [[-> Hsp]|[Hnn' Hne]].
      * destruct (Hnew Hsp) as [-> ?]. lia.
      * rewrite Hbsold by done. by apply (ft_sent _ _ _ HT).
    + intros n n' Hnn Hnn' Hne.
      destruct (Hnodes n Hnn) as [[-> Hsp]|[Hn1 Hne1]];
        destruct (Hnodes n' Hnn') as [[-> Hsp']|[Hn2 Hne2]].
      * done.
      * destruct (Hnew Hsp) as [-> ?]. rewrite Hbsold by done.
        pose proof (ft_disj _ _ _ HT bp n' Hn Hn2 ltac:(done)) as Hd.
        fold csize in Hd. lia.
      * destruct (Hnew Hsp') as [-> ?]. rewrite Hbsold by done.
        pose proof (ft_disj _ _ _ HT bp n Hn Hn1 ltac:(done)) as Hd.
        fold csize in Hd. lia.
      * rewrite !Hbsold by done. by apply (ft_disj _ _ _ HT).
  - intros Hnb. destruct (Hnodes bp Hnb) as [[Heq _]|[_ Hne]]; [lia|done].
Qed.
End PlaceTable.

(** X7: [place] keeps the free table.  Placing a request in a listed block
    takes the block off its list and marks it allocated, with matching
    header and footer; a remainder of at least the minimum block size
    becomes a free block of its own at the head of the list of its class;
    the other listed blocks keep their header and footer words; the break
    does not move. *)
Theorem place_keeps_free_table
    (p : platform) (st : heap) (bp asize : Z) (L : Z -> list Z) :
  free_table p st L -> node L bp ->
  2 * DSIZE p <= asize -> asize mod 8 = 0 -> asize <= block_size p st bp ->
  let st' := place p st bp asize in
  let L' := placed_lists p st bp asize L in
  free_table p st' L' /\
  ~ node L' bp /\
  GET_ALLOC st' (HDRP p bp) = 1 /\
  GET_SIZE st' (HDRP p bp) = placed_size p st bp asize /\
  GET st' (bp + placed_size p st bp asize - DSIZE p) = GET st' (HDRP p bp) /\
  asize <= placed_size p st bp asize < asize + 2 * DSIZE p /\
  mem_brk st' = mem_brk st /\
  (forall n, node L n -> n <> bp ->
     GET st' (HDRP p n) = GET st (HDRP p n) /\
     GET st' (n + block_size p st n - DSIZE p)
       = GET st (n + block_size p st n - DSIZE p)).
Proof. apply place_table. Qed.

(** ** Serving a request from the free lists *)

Section TableCheckerFacts.
Variable p : platform.

Local Abbreviation W := (WSIZE p).
Local Abbreviation D := (DSIZE p).

Lemma free_tableb_spec (st : heap) (L : Z -> list Z) :
  free_tableb p st L = true -> free_table p st L.
Proof.
  unfold free_tableb. intros H.
  apply andb_prop in H as [H Hcl]. apply andb_prop in H as [HL Hbl].
  rewrite forallb_forall in Hbl.
  assert (Hb : forall n, node L n -> free_blockb p st L n = true).
  { intros n Hn. apply Hbl. apply list_elem_of_In. by apply node_nodes_from. }
  assert (Hfields : forall n, node L n ->
    0 < n /\ 2 * D <= block_size p st n < wmod p /\
    GET st (HDRP p n) = PACK (block_size p st n) 0 /\
    GET st (n + block_size p st n - D) = PACK (block_size p st n) 0 /\
    (forall c, sentinel p st c ->
       c + 2 * W <= n - W \/ n + block_size p st n - W <= c) /\
    (forall n', node L n' -> n <> n' ->
       n + block_size p st n <= n' \/ n' + block_size p st n' <= n)).
  { intros n Hn. specialize (Hb n Hn). unfold free_blockb in Hb.
    apply andb_prop in Hb as [Hb Hdisj]. apply andb_prop in Hb as [Hb Hsent].
    apply andb_prop in Hb as [Hb Hft]. apply andb_prop in Hb as [Hb Hhd].
    apply andb_prop in Hb as [Hb Hhi]. apply andb_prop in Hb as [Hpos Hlo].
    apply Z.ltb_lt in Hpos, Hhi. apply Z.leb_le in Hlo.
    apply Z.eqb_eq in Hhd, Hft.
    rewrite forallb_forall in Hsent, Hdisj.
    repeat (split; [done|]). split.
    - intros c Hc. apply sentinel_cells_of, list_elem_of_In in Hc.
      specialize (Hsent c Hc).
      rewrite orb_true_iff, !Z.leb_le in Hsent. done.
    - intros n' Hn' Hne. apply node_nodes_from, list_elem_of_In in Hn'.
      specialize (Hdisj n' Hn').
      rewrite !orb_true_iff, !Z.leb_le, Z.eqb_eq in Hdisj. tauto. }
  constructor.
  - by apply seg_listsb_spec.
  - intros n Hn. by apply Hfields.
  - intros n Hn. by apply Hfields.
  - intros j n Hj Hn.
    pose proof (forallb_seqZ _ 0 SEGSIZE j Hcl ltac:(lia)) as Hj'.
    simpl in Hj'. rewrite forallb_forall in Hj'.
    apply Z.eqb_eq, Hj'. by apply list_elem_of_In.
  - intros n Hn. destruct (Hfields n Hn) as (_ & _ & ? & ? & _). done.
  - intros c n Hc Hn. destruct (Hfields n Hn) as (_ & _ & _ & _ & Hs & _).
    by apply Hs.
  - intros n n' Hn Hn' Hne.
    destruct (Hfields n Hn) as (_ & _ & _ & _ & _ & Hd). by apply Hd.
Qed.

Lemma fuel_coversb_spec (fuel : nat) (L : Z -> list Z) :
  fuel_coversb fuel L = true ->
  forall j, 0 <= j < SEGSIZE -> (length (L j) < fuel)%nat.
Proof.
  intros H j Hj.
  pose proof (forallb_seqZ _ 0 SEGSIZE j H ltac:(lia)) as Hj'.
  simpl in Hj'. by apply Nat.ltb_lt.
Qed.

Lemma node_nonnull (st : heap) (L : Z -> list Z) :
  free_table p st L -> forall c, node L c -> c <> NULL.
Proof.
  intros HT c Hc. pose proof (ft_pos _ _ _ HT c Hc). unfold NULL. lia.
Qed.

Lemma scan_order_node (L : Z -> list Z) (asize bp : Z) :
  In bp (scan_order L asize) -> node L bp.
Proof.
  unfold scan_order. intros (l & Hl & Hin)%in_concat.
  apply in_map_iff in Hl as (j & <- & Hj).
  apply list_elem_of_In in Hj. unfold find_fit_classes in Hj.
  apply elem_of_seqZ in Hj. pose proof (seg_index_range asize).
  exists j. split; [lia|]. by apply list_elem_of_In.
Qed.

Lemma first_fit_node (st : heap) (L : Z -> list Z) (asize : Z) :
  first_fit p st L asize <> NULL ->
  node L (first_fit p st L asize) /\
  asize <= block_size p st (first_fit p st L asize).
Proof.
  unfold first_fit.
  destruct (find (fits p st asize) (scan_order L asize)) as [bp|] eqn:Hf;
    [|done].
  intros _. apply find_some in Hf as [Hin Hfit].
  split; [by apply (scan_order_node L asize)|].
  unfold fits in Hfit. by apply Z.leb_le in Hfit.
Qed.
End TableCheckerFacts.

(** X6: on a free table [find_fit] returns [NULL] only when no listed
    block, of any class, is large enough for the request. *)
Theorem find_fit_null_no_fit
    (p : platform) (fuel : nat) (st : heap) (L : Z -> list Z) (asize : Z) :
  free_table p st L ->
  (forall j, 0 <= j < SEGSIZE -> (length (L j) < fuel)%nat) ->
  find_fit p fuel st asize = Some NULL ->
  forall n, node L n -> block_size p st n < asize.
Proof.
  intros HT Hfuel Hnull n (j & Hj & Hn).
  rewrite (find_fit_scan p fuel st L asize) in Hnull;
    [|by apply (ft_lists _ _ _ HT)|exact (node_nonnull p st L HT)|done].
  injection Hnull as Hnull. unfold first_fit in Hnull.
  destruct (find (fits p st asize) (scan_order L asize)) as [bp|] eqn:Hf.
  - exfalso. apply find_some in Hf as [Hin _].
    apply (node_nonnull p st L HT bp); [|done].
    by apply (scan_order_node L asize).
  - destruct (Z.lt_ge_cases (block_size p st n) asize) as [|Hge]; [done|].
    exfalso.
    assert (Hin : In n (scan_order L asize)).
    { unfold scan_order. apply in_concat. exists (L j). split.
      - apply in_map, list_elem_of_In. unfold find_fit_classes.
        apply elem_of_seqZ.
        pose proof (seg_index_mono asize (block_size p st n) Hge) as Hm.
        rewrite (ft_class _ _ _ HT j n Hj Hn) in Hm. lia.
      - by apply list_elem_of_In. }
    pose proof (find_none _ _ Hf n Hin) as Hno. unfold fits in Hno.
    apply Z.leb_gt in Hno. unfold block_size in Hge. lia.
Qed.

(** X8: a request that the free lists can serve.  [mm_malloc] returns the
    first fit of the adjusted size, marked allocated and large enough for
    the payload and the two tags; the free table is kept, the block is
    listed no more and the break does not move. *)
Theorem mm_malloc_from_free_list
    (p : platform) (fuel : nat) (st : heap) (L : Z -> list Z) (size : Z) :
  free_table p st L ->
  (forall j, 0 <= j < SEGSIZE -> (length (L j) < fuel)%nat) ->
  0 < size -> size + DSIZE p + 7 < wmod p ->
  let asize := malloc_asize p size in
  let bp := first_fit p st L asize in
  bp <> NULL ->
  exists st',
    mm_malloc p fuel st size = Some (bp, st') /\
    free_table p st' (placed_lists p st bp asize L) /\
    ~ node (placed_lists p st bp asize L) bp /\
    GET_ALLOC st' (HDRP p bp) = 1 /\
    size + DSIZE p <= GET_SIZE st' (HDRP p bp) /\
    mem_brk st' = mem_brk st.
Proof.
  intros HT Hfuel Hsize Hfit asize bp Hbp.
  destruct (malloc_asize_bounds p size Hsize Hfit) as (Hmod & Hroom & Hmin).
  fold asize in Hmod, Hroom, Hmin.
  destruct (first_fit_node p st L asize Hbp) as [Hnode Hle]. fold bp in Hnode, Hle.
  destruct (place_table p st bp asize L HT Hnode Hmin Hmod Hle)
    as (HT' & Hnot & Hal & Hgs & _ & Hused & Hbrk & _).
  exists (place p st bp asize).
  split; [|repeat (split; [done|]); split; [lia|done]].
  unfold mm_malloc. destruct (Z.eqb_spec size 0); [lia|]. fold asize.
  rewrite (find_fit_scan p fuel st L asize);
    [|by apply (ft_lists _ _ _ HT)|exact (node_nonnull p st L HT)|done].
  fold bp. by destruct (Z.eqb_spec bp NULL).
Qed.

Lemma find_fit_sound_witness :
  32 <= GET_SIZE heap_with_gaps (HDRP LP64 4352).
Proof.
  apply (find_fit_sound LP64 8 heap_with_gaps 32 4352).
  - vm_compute. reflexivity.
  - unfold NULL. lia.
Defined.

Lemma find_fit_first_fit_witness :
  find_fit LP64 8 heap_with_gaps 48
    = Some (first_fit LP64 heap_with_gaps lists_with_gaps 48).
Proof.
  apply find_fit_first_fit.
  - apply seg_listsb_spec. vm_compute. reflexivity.
  - apply (node_nonnull LP64 heap_with_gaps lists_with_gaps).
    apply free_tableb_spec. vm_compute. reflexivity.
  - apply fuel_coversb_spec. vm_compute. reflexivity.
Defined.

Lemma find_fit_null_no_fit_witness :
  block_size LP64 heap_with_gaps 4416 < 4000.
Proof.
  apply (find_fit_null_no_fit LP64 8 heap_with_gaps lists_with_gaps 4000).
  - apply free_tableb_spec. vm_compute. reflexivity.
  - apply fuel_coversb_spec. vm_compute. reflexivity.
  - vm_compute. reflexivity.
  - exists 7. split; [unfold SEGSIZE; lia|]. vm_compute. apply list_elem_of_here.
Defined.

Lemma place_keeps_free_table_witness :
  free_table LP64 (place LP64 heap_with_gaps 4416 48)
             (placed_lists LP64 heap_with_gaps 4416 48 lists_with_gaps).
Proof.
  refine (proj1 (place_keeps_free_table LP64 heap_with_gaps 4416 48
                   lists_with_gaps _ _ _ _ _)).
  - apply free_tableb_spec. vm_compute. reflexivity.
  - exists 7. split; [unfold SEGSIZE; lia|]. vm_compute. apply list_elem_of_here.
  - vm_compute. discriminate.
  - reflexivity.
  - vm_compute. discriminate.
Defined.

Lemma mm_malloc_from_free_list_witness :
  exists st',
    mm_malloc LP64 8 heap_with_gaps 100 = Some (4416, st') /\
    mem_brk st' = mem_brk heap_with_gaps.
Proof.
  destruct (mm_malloc_from_free_list LP64 8 heap_with_gaps lists_with_gaps 100)
    as (st' & H1 & _ & _ & _ & _ & H6).
  - apply free_tableb_spec. vm_compute. reflexivity.
  - apply fuel_coversb_spec. vm_compute. reflexivity.
  - lia.
  - vm_compute. reflexivity.
  - vm_compute. discriminate.
  - exists st'. split; [|exact H6]. rewrite H1. vm_compute. reflexivity.
Defined.

(** ** Rounding to a power of two *)

(** One [n |= n >> s] step doubles the run of bits smeared downwards. *)
Lemma smear_step (m x s : Z) :
  0 <= s ->
  (forall i, 0 <= i ->
     Z.testbit x i = true <-> exists j, 0 <= j < s /\ Z.testbit m (i + j) = true) ->
  forall i, 0 <= i ->
    Z.testbit (Z.lor x (Z.shiftr x s)) i = true <->
    exists j, 0 <= j < 2 * s /\ Z.testbit m (i + j) = true.
Proof.
  intros Hs Hx i Hi.
  rewrite Z.lor_spec, Z.shiftr_spec, orb_true_iff by done.
  rewrite (Hx i Hi), (Hx (i + s)) by lia. split.
  - intros [(j & Hj & Hb)|(j & Hj & Hb)].
    + exists j. split; [lia|done].
    + exists (s + j). split; [lia|]. by rewrite Z.add_assoc.
  - intros (j & Hj & Hb). destruct (Z.lt_ge_cases j s).
    + left. exists j. split; [lia|done].
    + right. exists (j - s). split; [lia|].
      by replace (i + s + (j - s)) with (i + j) by lia.
Qed.

Lemma smear_ones (m : Z) :
  0 < m < 2 ^ 32 ->
  let n := m in
  let n := Z.lor n (Z.shiftr n 1) in
  let n := Z.lor n (Z.shiftr n 2) in
  let n := Z.lor n (Z.shiftr n 4) in
  let n := Z.lor n (Z.shiftr n 8) in
  let n := Z.lor n (Z.shiftr n 16) in
  n = Z.ones (Z.log2 m + 1).
Proof.
  intros Hm. cbv zeta.
  assert (Hk : 0 <= Z.log2 m < 32).
  { split; [apply Z.log2_nonneg|]. apply Z.log2_lt_pow2; lia. }
  assert (H1 : forall i, 0 <= i ->
     Z.testbit m i = true <-> exists j, 0 <= j < 1 /\ Z.testbit m (i + j) = true).
  { intros i Hi. split.
    - intros Hb. exists 0. split; [lia|]. by rewrite Z.add_0_r.
    - intros (j & Hj & Hb). by replace (i + j) with i in Hb by lia. }
  pose proof (smear_step m _ 1 ltac:(lia) H1) as H2.
  pose proof (smear_step m _ 2 ltac:(lia) H2) as H4.
  pose proof (smear_step m _ 4 ltac:(lia) H4) as H8.
  pose proof (smear_step m _ 8 ltac:(lia) H8) as H16.
  pose proof (smear_step m _ 16 ltac:(lia) H16) as H32.
  clear H1 H2 H4 H8 H16.
  apply Z.bits_inj'. intros i Hi.
  apply eq_true_iff_eq. rewrite (H32 i Hi).
  rewrite Z.testbit_ones_nonneg by lia. rewrite Z.ltb_lt. split.
  - intros (j & Hj & Hb). destruct (Z.lt_ge_cases (Z.log2 m) (i + j)) as [Hlt|]; [|lia].
    rewrite Z.bits_above_log2 in Hb by lia. done.
  - intros Hlt. exists (Z.log2 m - i). split; [lia|].
    replace (i + (Z.log2 m - i)) with (Z.log2 m) by lia.
    apply Z.bit_log2. lia.
Qed.

(** X1: for a request between [1] and [2 ^ 31], [next_power_of_2] returns
    the least power of two that is at least the request. *)
Theorem next_power_of_2_rounds_up (p : platform) (n : Z) :
  1 <= n <= 2 ^ 31 ->
  exists k, 0 <= k <= 31 /\
    next_power_of_2 p n = 2 ^ k /\ n <= 2 ^ k /\ 2 ^ k < 2 * n.
Proof.
  intros Hn. unfold next_power_of_2.
  assert (Hw : 2 ^ 32 <= wmod p) by apply wbounds.
  assert (Hsub : wsub p n 1 = n - 1).
  { unfold wsub, wrap. apply Z.mod_small. lia. }
  rewrite Hsub.
  destruct (Z.eq_dec n 1) as [->|Hne].
  - exists 0. split; [lia|]. split; [|lia].
    change (1 - 1) with 0. unfold wadd, wrap. simpl. apply Z.mod_small. lia.
  - pose proof (smear_ones (n - 1) ltac:(lia)) as Hs. cbv zeta in Hs.
    rewrite Hs. set (k := Z.log2 (n - 1)).
    assert (Hk : 0 <= k < 31).
    { split; [apply Z.log2_nonneg|]. apply Z.log2_lt_pow2; lia. }
    destruct (Z.log2_spec (n - 1) ltac:(lia)) as [Hlo Hhi]. fold k in Hlo, Hhi.
    replace (Z.succ k) with (k + 1) in Hhi by lia.
    assert (Hpow : 2 ^ (k + 1) = 2 * 2 ^ k) by (rewrite Z.pow_add_r; lia).
    assert (Hle : 2 ^ (k + 1) <= 2 ^ 31) by (apply Z.pow_le_mono_r; lia).
    exists (k + 1). split; [lia|].
    split; [|lia].
    rewrite Z.ones_equiv. unfold wadd, wrap.
    replace (Z.pred (2 ^ (k + 1)) + 1) with (2 ^ (k + 1)) by lia.
    apply Z.mod_small. lia.
Qed.

Lemma next_power_of_2_rounds_up_witness :
  exists k, 0 <= k <= 31 /\
    next_power_of_2 LP64 100 = 2 ^ k /\ 100 <= 2 ^ k /\ 2 ^ k < 2 * 100.
Proof. apply next_power_of_2_rounds_up. lia. Defined.

(** ** The break and the globals *)

Section Globals.
Variable p : platform.

Lemma same_arena_refl (st : heap) : same_arena st st.
Proof. by repeat split. Qed.

Lemma same_arena_trans (st1 st2 st3 : heap) :
  same_arena st1 st2 -> same_arena st2 st3 -> same_arena st1 st3.
Proof.
  unfold same_arena, same_globals.
  intros ((?&?&?)&?) ((?&?&?)&?). repeat split; congruence.
Qed.

Lemma list_remove_arena (st : heap) (bp : Z) :
  same_arena st (list_remove p st bp).
Proof. by repeat split. Qed.

Lemma list_insert_arena (st : heap) (bp size : Z) :
  same_arena st (list_insert p st bp size).
Proof. by repeat split. Qed.

Lemma coalesce_arena (st : heap) (bp : Z) :
  same_arena st (snd (coalesce p st bp)).
Proof.
  unfold coalesce.
  repeat match goal with |- context [if ?b then _ else _] => destruct b end;
    by repeat split.
Qed.

Lemma place_arena (st : heap) (bp asize : Z) :
  same_arena st (place p st bp asize).
Proof. unfold place. destruct (_ >=? _); by repeat split. Qed.

Lemma mm_free_arena (st : heap) (bp : Z) : same_arena st (mm_free p st bp).
Proof.
  unfold mm_free. destruct (bp =? NULL); [apply same_arena_refl|].
  eapply same_arena_trans; [|apply coalesce_arena]. by repeat split.
Qed.

Lemma memcpy_words_arena (k : nat) :
  forall st dst src, same_arena st (memcpy_words p k st dst src).
Proof.
  induction k as [|k IH]; intros st dst src; simpl; [apply same_arena_refl|].
  eapply same_arena_trans; [|apply IH]. by repeat split.
Qed.

Lemma memcpy_arena (st : heap) (dst src n : Z) :
  same_arena st (memcpy p st dst src n).
Proof.
  unfold memcpy. destruct (_ =? 0); [apply memcpy_words_arena|].
  eapply same_arena_trans; [apply memcpy_words_arena|]. by repeat split.
Qed.

Lemma extend_heap_break (st : heap) (words : Z) :
  let r := extend_heap p st words in
  same_globals st (snd r) /\
  (mem_brk (snd r) = mem_brk st \/
   mem_brk (snd r) = mem_brk st + extend_bytes p words /\
   mem_brk (snd r) <= mem_max_addr st).
Proof.
  unfold extend_heap, mem_sbrk.
  destruct (Z.leb_spec (mem_brk st + extend_bytes p words) (mem_max_addr st))
    as [Hle|Hgt]; simpl.
  - match goal with |- context [coalesce p ?s ?b] =>
      destruct (coalesce_arena s b) as [(?&?&?) Hb] end.
    split; [by repeat split|]. right. rewrite Hb. simpl. lia.
  - split; [by repeat split|by left].
Qed.

Lemma extend_bytes_nonneg (words : Z) : 0 <= extend_bytes p words.
Proof.
  pose proof (wbounds p) as (_ & _ & Hw & _).
  unfold extend_bytes, wmul, wrap.
  destruct (negb _); apply Z.mod_pos_bound; lia.
Qed.
End Globals.

(** X11: [mm_free] moves neither the break nor the end of the arena, and
    leaves [seg_first] and [heap_listp] as they were. *)
Theorem mm_free_keeps_arena (p : platform) (st : heap) (bp : Z) :
  seg_first (mm_free p st bp) = seg_first st /\
  heap_listp (mm_free p st bp) = heap_listp st /\
  mem_brk (mm_free p st bp) = mem_brk st /\
  mem_max_addr (mm_free p st bp) = mem_max_addr st.
Proof.
  destruct (mm_free_arena p st bp) as [(?&?&?) ?]. by repeat split.
Qed.

Lemma mm_malloc_arena
    (p : platform) (fuel : nat) (st st' : heap) (size r : Z) :
  mm_malloc p fuel st size = Some (r, st') ->
  same_globals st st' /\
  mem_brk st <= mem_brk st' /\
  (mem_brk st <= mem_max_addr st -> mem_brk st' <= mem_max_addr st).
Proof.
  unfold mm_malloc. destruct (size =? 0).
  { intros [= _ <-]. by repeat split. }
  destruct (find_fit p fuel st _) as [bp|]; [|done].
  destruct (negb (bp =? NULL)).
  { intros [= _ <-].
    destruct (place_arena p st bp (malloc_asize p size)) as [(?&?&?) Hb].
    rewrite Hb. by repeat split. }
  set (words := MAX _ _ / _).
  pose proof (extend_heap_break p st words) as [(Gs & Gh & Gm) Hbrk].
  pose proof (extend_bytes_nonneg p words) as Hnn.
  destruct (extend_heap p st words) as [b st1]. simpl in *.
  assert (Hst1 : mem_brk st <= mem_brk st1 /\
            (mem_brk st <= mem_max_addr st -> mem_brk st1 <= mem_max_addr st))
    by lia.
  destruct (b =? NULL).
  - intros [= _ <-]. by repeat split; try apply Hst1.
  - intros [= _ <-].
    destruct (place_arena p st1 b (malloc_asize p size)) as [(?&?&?) Hb].
    rewrite Hb. repeat split; try congruence; apply Hst1.
Qed.

(** X9: [mm_malloc] never lowers the break, never moves it past the end of
    the arena, and leaves [seg_first] and [heap_listp] as they were. *)
Theorem mm_malloc_break
    (p : platform) (fuel : nat) (st st' : heap) (size r : Z) :
  mm_malloc p fuel st size = Some (r, st') ->
  seg_first st' = seg_first st /\ heap_listp st' = heap_listp st /\
  mem_max_addr st' = mem_max_addr st /\
  mem_brk st <= mem_brk st' /\
  (mem_brk st <= mem_max_addr st -> mem_brk st' <= mem_max_addr st).
Proof.
  intros H. destruct (mm_malloc_arena p fuel st st' size r H) as ((?&?&?)&?&?).
  by repeat split.
Qed.

Lemma mm_malloc_break_witness :
  mem_brk (init_heap 8192) <= mem_brk (heap_with_block 8192).
Proof.
  refine (proj1 (proj2 (proj2 (proj2
    (mm_malloc_break LP64 8 (init_heap 8192) (heap_with_block 8192) 16 4288
       _))))).
  vm_compute. reflexivity.
Defined.

(** X10: [mm_realloc] never lowers the break either, whichever of its
    paths it takes, and leaves the two globals and the end of the arena as
    they were. *)
Theorem mm_realloc_break
    (p : platform) (fuel : nat) (st st' : heap) (ptr size r : Z) :
  mm_realloc p fuel st ptr size = Some (r, st') ->
  seg_first st' = seg_first st /\ heap_listp st' = heap_listp st /\
  mem_max_addr st' = mem_max_addr st /\
  mem_brk st <= mem_brk st' /\
  (mem_brk st <= mem_max_addr st -> mem_brk st' <= mem_max_addr st).
Proof.
  unfold mm_realloc. destruct (size =? 0).
  { intros [= _ <-]. destruct (mm_free_arena p st ptr) as [(?&?&?) Hb].
    rewrite Hb. by repeat split. }
  destruct (ptr =? NULL).
  { intros H.
    destruct (mm_malloc_arena p fuel st st' size r H) as ((?&?&?)&?&?).
    by repeat split. }
  destruct (_ <? _).
  { intros [= _ <-]. by repeat split. }
  destruct (mm_malloc p fuel st (wmul p SEGSIZE size)) as [[newptr st1]|] eqn:Hm;
    [|done].
  destruct (mm_malloc_arena p fuel st st1 _ newptr Hm) as ((?&?&?)&?&?).
  destruct (newptr =? NULL).
  { intros [= _ <-]. by repeat split. }
  intros [= _ <-].
  match goal with |- context [mm_free p ?s ptr] =>
    pose proof (mm_free_arena p s ptr) as Hf; set (st2 := s) in * end.
  match goal with st2 := memcpy p st1 ?d ?s ?n |- _ =>
    pose proof (memcpy_arena p st1 d s n) as Hc end.
  destruct (same_arena_trans _ _ _ Hc Hf) as [(?&?&?) Hb].
  rewrite Hb. repeat split; try congruence; done.
Qed.

Lemma mm_realloc_break_witness :
  mem_brk (heap_with_block 8192)
    <= mem_brk (snd (default (0, heap_with_block 8192)
                       (mm_realloc LP64 8 (heap_with_block 8192) 4288 100))).
Proof.
  refine (proj1 (proj2 (proj2 (proj2
    (mm_realloc_break LP64 8 (heap_with_block 8192) _ 4288 100
       (fst (default (0, heap_with_block 8192)
               (mm_realloc LP64 8 (heap_with_block 8192) 4288 100))) _))))).
  vm_compute. reflexivity.
Defined.

(** ** The free-list manager on the whole table *)

Lemma fresh_cellb_spec (p : platform) (st : heap) (L : Z -> list Z) (n : Z) :
  fresh_cellb p st L n = true -> forall c, cell p st L c -> apart p n c.
Proof.
  unfold fresh_cellb. rewrite forallb_forall. intros H c Hc.
  apply apartb_spec, H, list_elem_of_In. by apply cell_cells_of.
Qed.

Lemma unlink_node (L : Z -> list Z) (n c : Z) :
  node L c -> c <> n -> node (unlink n L) c.
Proof.
  intros (j & Hj & Hc) Hne. exists j. split; [done|].
  unfold unlink. by apply list_elem_of_filter.
Qed.

(** X12: [list_remove] takes a listed node out of its list: the class
    lists stay well formed, the node is in none of them, every other node
    stays where it was, and the words outside the list cells are not
    written. *)
Theorem list_remove_unlinks
    (p : platform) (st : heap) (L : Z -> list Z) (n : Z) :
  seg_lists p st L -> node L n ->
  let st' := list_remove p st n in
  seg_lists p st' (unlink n L) /\
  ~ node (unlink n L) n /\
  (forall c, c <> n -> node (unlink n L) c <-> node L c) /\
  (forall a, (forall c, cell p st L c -> a < c \/ c + 2 * WSIZE p <= a) ->
     GET st' a = GET st a).
Proof.
  intros HL Hn st'.
  destruct (list_remove_spec p st L HL n Hn) as [HL' Hfr].
  split; [exact HL'|]. split; [|split; [|exact Hfr]].
  - intros Hin. by apply node_unlink in Hin as [_ ?].
  - intros c Hne. split.
    + intros Hin. by apply node_unlink in Hin as [? _].
    + intros Hin. by apply unlink_node.
Qed.

Lemma list_remove_unlinks_witness :
  seg_lists LP64 (list_remove LP64 heap_with_gaps 4288)
            (unlink 4288 lists_with_gaps).
Proof.
  refine (proj1 (list_remove_unlinks LP64 heap_with_gaps lists_with_gaps 4288
                   _ _)).
  - apply seg_listsb_spec. vm_compute. reflexivity.
  - apply node_nodes_from, memberb_spec. vm_compute. reflexivity.
Defined.

(** X13: [list_insert] puts a cell that overlaps no cell of the table at
    the head of the list of the class of [size]: the sentinel of that class
    points at it, it points back at the sentinel, the other lists are as
    they were, and only the cell itself is written outside the cells of the
    table. *)
Theorem list_insert_pushes
    (p : platform) (st : heap) (L : Z -> list Z) (n size : Z) :
  seg_lists p st L ->
  (forall c, cell p st L c -> apart p n c) ->
  let st' := list_insert p st n size in
  let i := seg_index size in
  seg_lists p st' (push i n L) /\
  next_list st' (seg_entry p st' i) = n /\
  prev_list p st' n = seg_entry p st' i /\
  (forall j, j <> i -> push i n L j = L j) /\
  (forall a, a <> n -> a <> n + WSIZE p ->
     (forall c, cell p st L c -> a < c \/ c + 2 * WSIZE p <= a) ->
     GET st' a = GET st a).
Proof.
  intros HL Hap st' i.
  destruct (list_insert_spec p st L HL n size Hap) as [HL' Hfr].
  fold st' i in HL', Hfr.
  pose proof (sl_chain _ _ _ HL' i (seg_index_range size)) as Hch.
  unfold class_list, push in Hch. rewrite Z.eqb_refl in Hch.
  destruct Hch as (Hnx & Hpv & _).
  split; [exact HL'|]. split; [exact Hnx|]. split; [exact Hpv|].
  split; [|exact Hfr].
  intros j Hj. unfold push. by destruct (Z.eqb_spec j i).
Qed.

Lemma list_insert_pushes_witness :
  seg_lists LP64 (list_insert LP64 heap_with_gaps 4320 32)
            (push (seg_index 32) 4320 lists_with_gaps).
Proof.
  refine (proj1 (list_insert_pushes LP64 heap_with_gaps lists_with_gaps 4320 32
                   _ _)).
  - apply seg_listsb_spec. vm_compute. reflexivity.
  - apply fresh_cellb_spec. vm_compute. reflexivity.
Defined.

(** ** Initialisation *)

Section InitFacts.
Variable p : platform.

Local Abbreviation W := (WSIZE p).
Local Abbreviation D := (DSIZE p).

Lemma init_sentinel_fields (st : heap) (i : Z) :
  same_arena st (init_sentinel p st i).
Proof. by repeat split. Qed.

Lemma seg_entry_apart (st : heap) (k k' : Z) :
  k <> k' ->
  seg_entry p st k + 2 * W <= seg_entry p st k' \/
  seg_entry p st k' + 2 * W <= seg_entry p st k.
Proof. unfold seg_entry. pose proof (WSIZE_pos p). nia. Qed.

Lemma init_sentinels (js : list Z) (st : heap) :
  let st' := fold_left (init_sentinel p) js st in
  same_arena st st' /\
  (forall k, k ∈ js ->
     next_list st' (seg_entry p st k) = seg_entry p st k /\
     prev_list p st' (seg_entry p st k) = seg_entry p st k) /\
  (forall a, (forall k, k ∈ js ->
                a < seg_entry p st k \/ seg_entry p st k + 2 * W <= a) ->
     GET st' a = GET st a).
Proof.
  induction js as [|i js IH] using rev_ind; simpl.
  { split; [apply same_arena_refl|]. split; [|done].
    intros k Hk. by apply elem_of_nil in Hk. }
  rewrite fold_left_app. simpl.
  destruct IH as (Har & Hin & Hfr).
  set (st1 := fold_left (init_sentinel p) js st) in *.
  assert (He : forall k, seg_entry p st1 k = seg_entry p st k).
  { intros k. unfold seg_entry. destruct Har as [(-> & _) _]. done. }
  assert (He2 : forall s a v k, seg_entry p (PUT s a v) k = seg_entry p s k)
    by done.
  pose proof (WSIZE_pos p) as HW.
  split; [|split].
  - eapply same_arena_trans; [exact Har|apply init_sentinel_fields].
  - intros k Hk. unfold init_sentinel, set_next_list, set_prev_list,
      next_list, prev_list. rewrite !He2, !He.
    destruct (decide (k = i)) as [->|Hne].
    + rewrite !GET_PUT. split; repeat case_decide; try lia; done.
    + apply elem_of_app in Hk as [Hk|Hk]; [|apply list_elem_of_singleton in Hk; done].
      destruct (Hin k Hk) as [Hn Hp]. unfold next_list, prev_list in Hn, Hp.
      pose proof (seg_entry_apart st k i Hne).
      rewrite !GET_PUT. split; repeat case_decide; try lia; done.
  - intros a Ha. unfold init_sentinel, set_next_list, set_prev_list.
    rewrite !He2, !He.
    assert (Hi : a < seg_entry p st i \/ seg_entry p st i + 2 * W <= a).
    { apply Ha, elem_of_app. right. by apply list_elem_of_singleton. }
    rewrite !GET_PUT. repeat case_decide; try lia.
    apply Hfr. intros k Hk. apply Ha, elem_of_app. by left.
Qed.

Lemma empty_table (st : heap) :
  (forall k, 0 <= k < SEGSIZE ->
     next_list st (seg_entry p st k) = seg_entry p st k /\
     prev_list p st (seg_entry p st k) = seg_entry p st k) ->
  seg_lists p st no_lists.
Proof.
  intros H. constructor.
  - intros j Hj. unfold class_list, no_lists. simpl. by apply H.
  - intros j _. apply NoDup_nil_2.
  - intros j j' c _ _ Hc. by apply elem_of_nil in Hc.
  - intros c (j & _ & Hc). by apply elem_of_nil in Hc.
  - intros c c' [Hc|(j & _ & Hc)] [Hc'|(j' & _ & Hc')];
      try (by apply elem_of_nil in Hc); try (by apply elem_of_nil in Hc').
    destruct Hc as (k & Hk & ->), Hc' as (k' & Hk' & ->).
    destruct (decide (k = k')) as [->|Hne]; [by left|right].
    unfold apart. by apply seg_entry_apart.
Qed.

Lemma extend_heap_grows (st st1 : heap) (words b : Z) :
  mem_sbrk st (extend_bytes p words) = Some (b, st1) ->
  extend_heap p st words
    = coalesce p (fresh_block p st1 b (extend_bytes p words)) b.
Proof. intros H. unfold extend_heap. by rewrite H. Qed.
End InitFacts.

Section InitTable.
Variable p : platform.

Local Abbreviation W := (WSIZE p).
Local Abbreviation D := (DSIZE p).

(** The three words [extend_heap] writes before it calls [coalesce]. *)
Lemma fresh_block_puts (st : heap) (bp s : Z) :
  s mod 8 = 0 -> 2 * D <= s ->
  fresh_block p st bp s
    = PUT (PUT (PUT st (bp - W) (PACK s 0)) (bp + s - D) (PACK s 0))
          (bp + s - W) (PACK 0 1).
Proof.
  intros Hs Hmin. pose proof (wbounds p) as (HW & HD & _).
  set (st1 := PUT st (HDRP p bp) (PACK s 0)).
  assert (E1 : FTRP p st1 bp = bp + s - D).
  { unfold FTRP, st1. by rewrite GET_SIZE_PUT_eq. }
  set (st2 := PUT st1 (FTRP p st1 bp) (PACK s 0)).
  assert (E2 : NEXT_BLKP p st2 bp = bp + s).
  { unfold NEXT_BLKP, st2. rewrite E1.
    rewrite (GET_SIZE_eq st1); [unfold st1, HDRP; by rewrite GET_SIZE_PUT_eq|].
    apply GET_PUT_ne. lia. }
  unfold fresh_block. fold st1. fold st2. rewrite E2. unfold st2.
  rewrite E1. reflexivity.
Qed.

Lemma fresh_block_reads (st : heap) (bp s : Z) :
  s mod 8 = 0 -> 2 * D <= s ->
  let st' := fresh_block p st bp s in
  GET st' (bp - W) = PACK s 0 /\
  GET st' (bp + s - D) = PACK s 0 /\
  GET st' (bp + s - W) = PACK 0 1 /\
  (forall a, a <> bp - W -> a <> bp + s - D -> a <> bp + s - W ->
     GET st' a = GET st a) /\
  same_arena st st'.
Proof.
  intros Hs Hmin st'. pose proof (wbounds p) as (HW & HD & _).
  unfold st'. rewrite fresh_block_puts by done. rewrite !GET_PUT.
  split; [repeat case_decide; try lia; done|].
  split; [repeat case_decide; try lia; done|].
  split; [repeat case_decide; try lia; done|].
  split; [|by repeat split].
  intros a H1 H2 H3. rewrite !GET_PUT. repeat case_decide; try lia; done.
Qed.
End InitTable.

Lemma DSIZE_mod (p : platform) : DSIZE p mod 8 = 0.
Proof. by destruct p. Qed.

Lemma extend_bytes_chunk (p : platform) :
  extend_bytes p (CHUNKSIZE / WSIZE p) = CHUNKSIZE.
Proof. by destruct p. Qed.

(** X14: on an arena with room for the sentinel table, the four words of
    prologue and epilogue and one chunk, [mm_init] returns [0].  The table
    starts at the old break, [heap_listp] is the prologue block, the heap
    ends in an epilogue header, and the free table holds exactly one block,
    the chunk, in the class of its size. *)
Theorem mm_init_builds_table (p : platform) (st : heap) :
  0 <= mem_brk st ->
  mem_brk st + init_bytes p <= mem_max_addr st ->
  let base := mem_brk st in
  let r := mm_init p st in
  fst r = 0 /\
  seg_first (snd r) = base /\
  heap_listp (snd r) = base + 22 * WSIZE p /\
  mem_brk (snd r) = base + init_bytes p /\
  GET (snd r) (HDRP p (heap_listp (snd r))) = PACK (DSIZE p) 1 /\
  GET (snd r) (heap_listp (snd r)) = PACK (DSIZE p) 1 /\
  GET (snd r) (mem_brk (snd r) - WSIZE p) = PACK 0 1 /\
  free_table p (snd r) (initial_lists p base).
Proof.
  intros Hbase Hroom base r.
  pose proof (wbounds p) as (HW & HD & Hwm & _).
  pose proof (DSIZE_mod p) as HDm.
  assert (HC : CHUNKSIZE = 4096) by reflexivity.
  unfold init_bytes in *. unfold SEGSIZE in Hroom. fold base in Hbase, Hroom.
  unfold r, mm_init. clear r.
  (* the table *)
  set (stA := mkHeap (mem st) (base + 2 * SEGSIZE * WSIZE p) (mem_max_addr st)
                     (heap_listp st) (seg_first st)).
  assert (E1 : mem_sbrk st (2 * SEGSIZE * WSIZE p) = Some (base, stA)).
  { unfold mem_sbrk. fold base.
    destruct (Z.leb_spec (base + 2 * SEGSIZE * WSIZE p) (mem_max_addr st));
      [done|]. unfold SEGSIZE in *. lia. }
  rewrite E1. lazy beta iota zeta.
  pose proof (init_sentinels p (seqZ 0 SEGSIZE) (set_seg_first stA base))
    as Hinit.
  cbv zeta in Hinit. revert Hinit.
  generalize (fold_left (init_sentinel p) (seqZ 0 SEGSIZE)
                        (set_seg_first stA base)).
  intros st1 ([(Hsf1 & _ & Hmax1) Hbrk1] & Hin & _).
  change (seg_first (set_seg_first stA base)) with base in Hsf1.
  change (mem_max_addr (set_seg_first stA base)) with (mem_max_addr st) in Hmax1.
  change (mem_brk (set_seg_first stA base))
    with (base + 2 * SEGSIZE * WSIZE p) in Hbrk1.
  assert (Hsent : forall k, 0 <= k < SEGSIZE ->
            GET st1 (base + k * (2 * WSIZE p)) = base + k * (2 * WSIZE p) /\
            GET st1 (base + k * (2 * WSIZE p) + WSIZE p)
              = base + k * (2 * WSIZE p)).
  { intros k Hk. apply (Hin k). apply elem_of_seqZ. lia. }
  clear Hin E1 stA.
  (* the prologue and the first epilogue *)
  set (hl := mem_brk st1) in *.
  set (stB := mkHeap (mem st1) (hl + 4 * WSIZE p) (mem_max_addr st1)
                     (heap_listp st1) (seg_first st1)).
  assert (E2 : mem_sbrk st1 (4 * WSIZE p) = Some (hl, stB)).
  { unfold mem_sbrk. fold hl.
    destruct (Z.leb_spec (hl + 4 * WSIZE p) (mem_max_addr st1)); [done|].
    unfold SEGSIZE in *. lia. }
  rewrite E2. lazy beta iota zeta.
  match goal with |- context [extend_heap p ?s _] => set (stP := s) end.
  assert (EP : stP = set_heap_listp
                       (PUT (PUT (PUT (PUT (set_heap_listp stB hl) hl 0)
                                      (hl + 1 * WSIZE p) (PACK (DSIZE p) 1))
                                 (hl + 2 * WSIZE p) (PACK (DSIZE p) 1))
                            (hl + 3 * WSIZE p) (PACK 0 1))
                       (hl + 2 * WSIZE p)) by reflexivity.
  assert (HPget : forall a,
            GET stP a =
            GET (PUT (PUT (PUT (PUT st1 hl 0)
                                (hl + 1 * WSIZE p) (PACK (DSIZE p) 1))
                           (hl + 2 * WSIZE p) (PACK (DSIZE p) 1))
                      (hl + 3 * WSIZE p) (PACK 0 1)) a)
    by (intros a; rewrite EP; reflexivity).
  (* the first chunk *)
  set (bp := hl + 4 * WSIZE p).
  set (stQ := mkHeap (mem stP) (bp + CHUNKSIZE) (mem_max_addr stP)
                     (heap_listp stP) (seg_first stP)).
  assert (E3 : mem_sbrk stP (extend_bytes p (CHUNKSIZE / WSIZE p))
               = Some (bp, stQ)).
  { rewrite extend_bytes_chunk. unfold mem_sbrk.
    change (mem_brk stP) with bp.
    change (mem_max_addr stP) with (mem_max_addr st1).
    destruct (Z.leb_spec (bp + CHUNKSIZE) (mem_max_addr st1)); [done|].
    unfold bp, SEGSIZE in *. lia. }
  rewrite (extend_heap_grows p stP stQ _ bp E3), extend_bytes_chunk.
  set (st3 := fresh_block p stQ bp CHUNKSIZE).
  destruct (fresh_block_reads p stQ bp CHUNKSIZE ltac:(done) ltac:(lia))
    as (R1 & R2 & R3 & Rfr & [(Gs & Gh & Gm) Gb]).
  fold st3 in R1, R2, R3, Rfr, Gs, Gh, Gm, Gb.
  change (seg_first stQ) with (seg_first stP) in Gs.
  change (heap_listp stQ) with (hl + 2 * WSIZE p) in Gh.
  change (mem_brk stQ) with (bp + CHUNKSIZE) in Gb.
  change (mem_max_addr stQ) with (mem_max_addr st1) in Gm.
  assert (HQget : forall a, GET stQ a = GET stP a) by done.
  assert (Hsfp : seg_first stP = seg_first st1) by done.
  clear EP E3 E2. clearbody stQ. clearbody stP. clear stB.
  assert (R4 : GET st3 (hl + 1 * WSIZE p) = PACK (DSIZE p) 1).
  { rewrite Rfr, HQget, HPget by (unfold bp; lia).
    rewrite !GET_PUT. repeat case_decide; try lia; done. }
  assert (R5 : GET st3 (hl + 2 * WSIZE p) = PACK (DSIZE p) 1).
  { rewrite Rfr, HQget, HPget by (unfold bp; lia).
    rewrite !GET_PUT. repeat case_decide; try lia; done. }
  assert (R6 : forall a, a < hl -> GET st3 a = GET st1 a).
  { intros a Ha. rewrite Rfr, HQget, HPget by (unfold bp; lia).
    rewrite !GET_PUT. repeat case_decide; try lia; done. }
  assert (He3 : forall k, seg_entry p st3 k = base + k * (2 * WSIZE p)).
  { intros k. unfold seg_entry. by rewrite Gs, Hsfp, Hsf1. }
  assert (Hkb : forall k, 0 <= k < SEGSIZE ->
            0 <= k * (2 * WSIZE p) <= 18 * WSIZE p)
    by (unfold SEGSIZE; intros; nia).
  assert (Hs3 : forall k, 0 <= k < SEGSIZE ->
            GET st3 (base + k * (2 * WSIZE p)) = base + k * (2 * WSIZE p) /\
            GET st3 (base + k * (2 * WSIZE p) + WSIZE p)
              = base + k * (2 * WSIZE p)).
  { intros k Hk. pose proof (Hkb k Hk). unfold SEGSIZE in *.
    rewrite !R6 by lia. by apply Hsent. }
  assert (HL0 : seg_lists p st3 no_lists).
  { apply empty_table. intros k Hk. unfold next_list, prev_list.
    rewrite He3. by apply Hs3. }
  destruct (GET_ALLOC_PACK_1 st3 (hl + 1 * WSIZE p) _ HDm R4) as [S4 A4].
  destruct (GET_ALLOC_PACK_1 st3 (hl + 2 * WSIZE p) _ HDm R5) as [S5 A5].
  destruct (GET_ALLOC_PACK_1 st3 (bp + CHUNKSIZE - WSIZE p) 0 eq_refl R3)
    as [S3 A3].
  assert (Sbp : block_size p st3 bp = CHUNKSIZE).
  { unfold block_size, HDRP. by apply GET_SIZE_PACK_0. }
  assert (Eprev : PREV_BLKP p st3 bp = hl + 2 * WSIZE p).
  { unfold PREV_BLKP. replace (bp - DSIZE p) with (hl + 2 * WSIZE p)
      by (unfold bp; lia). rewrite S5. unfold bp. lia. }
  assert (Enext : NEXT_BLKP p st3 bp = bp + CHUNKSIZE).
  { unfold NEXT_BLKP. unfold block_size, HDRP in Sbp. by rewrite Sbp. }
  assert (Sprev : block_size p st3 (hl + 2 * WSIZE p) = DSIZE p).
  { unfold block_size, HDRP.
    replace (hl + 2 * WSIZE p - WSIZE p) with (hl + 1 * WSIZE p) by lia.
    done. }
  assert (Hpf : prev_free p st3 bp = false).
  { unfold prev_free. rewrite Eprev. unfold FTRP. fold (block_size p st3 (hl + 2 * WSIZE p)).
    rewrite Sprev.
    replace (hl + 2 * WSIZE p + DSIZE p - DSIZE p) with (hl + 2 * WSIZE p)
      by lia. by rewrite A5. }
  assert (Hnf : next_free p st3 bp = false).
  { unfold next_free. rewrite Enext. unfold HDRP. by rewrite A3. }
  assert (Hmb : merged_block p st3 bp = bp).
  { unfold merged_block. by rewrite Hpf. }
  assert (Hms : merged_size p st3 bp = CHUNKSIZE).
  { unfold merged_size. rewrite Hpf, Hnf, Sbp. lia. }
  assert (Hpre : coalesce_pre p st3 bp no_lists).
  { constructor.
    - exact HL0.
    - rewrite Sbp. split; [exact R1|]. unfold FTRP.
      fold (block_size p st3 bp). by rewrite Sbp.
    - rewrite Sbp. lia.
    - rewrite Hms. lia.
    - rewrite Eprev, Sprev.
      replace (bp - DSIZE p) with (hl + 2 * WSIZE p) by (unfold bp; lia).
      by rewrite S5.
    - by rewrite Hpf.
    - by rewrite Hnf.
    - intros c [(k & Hk & ->)|(j & _ & Hc)] _ _;
        [|by apply elem_of_nil in Hc].
      pose proof (Hkb k Hk).
      rewrite Hmb, He3. left. unfold bp, SEGSIZE in *. lia. }
  destruct (coalesce_spec p st3 bp no_lists Hpre) as (Hr & Hh & Hf & HL & Hfr).
  destruct (coalesce_arena p st3 bp) as [(Cs & Ch & Cm) Cb].
  destruct (coalesce p st3 bp) as [b st4]. simpl in *.
  rewrite Hmb in Hr. subst b. rewrite Hmb, Hms in *.
  assert (Hml : merged_lists p st3 bp no_lists = initial_lists p base).
  { unfold merged_lists, initial_lists, first_chunk.
    rewrite Hpf, Hnf, Hmb, Hms. simpl. f_equal. unfold bp, SEGSIZE in *. lia. }
  rewrite Hml in HL.
  assert (Hbp : bp = first_chunk p base)
    by (unfold first_chunk, bp, SEGSIZE in *; lia).
  assert (Hnode : forall n, node (initial_lists p base) n -> n = bp).
  { intros n (j & _ & Hn). unfold initial_lists in Hn.
    apply elem_of_push in Hn as [[_ ->]|Hn]; [by rewrite Hbp|].
    by apply elem_of_nil in Hn. }
  assert (Hframe : forall a, a < bp - WSIZE p \/ bp + CHUNKSIZE - WSIZE p <= a ->
            hl <= a -> GET st4 a = GET st3 a).
  { intros a Ha Hhl. apply Hfr; [done|].
    intros c [(k & Hk & ->)|(j & _ & Hc)]; [|by apply elem_of_nil in Hc].
    pose proof (Hkb k Hk). rewrite He3. right. unfold SEGSIZE in *. lia. }
  assert (Sbp4 : block_size p st4 bp = CHUNKSIZE).
  { unfold block_size. by apply GET_SIZE_PACK_0. }
  destruct (Z.eqb_spec bp NULL) as [Hnull|_];
    [unfold NULL, bp, SEGSIZE in *; lia|]. simpl.
  split; [done|]. split; [congruence|].
  split; [rewrite Ch, Gh; unfold SEGSIZE in *; lia|].
  split; [rewrite Cb, Gb; unfold bp, SEGSIZE in *; lia|].
  split.
  { rewrite Ch, Gh. unfold HDRP.
    replace (hl + 2 * WSIZE p - WSIZE p) with (hl + 1 * WSIZE p) by lia.
    rewrite Hframe by (unfold bp; lia). done. }
  split.
  { rewrite Ch, Gh, Hframe by (unfold bp; lia). done. }
  split.
  { rewrite Cb, Gb, Hframe by lia. done. }
  constructor.
  - exact HL.
  - intros n Hn. apply Hnode in Hn as ->. unfold bp, SEGSIZE in *. lia.
  - intros n Hn. apply Hnode in Hn as ->. rewrite Sbp4. lia.
  - intros j n Hj Hn. unfold initial_lists in Hn.
    apply elem_of_push in Hn as [[-> ->]|Hn]; [|by apply elem_of_nil in Hn].
    by rewrite <- Hbp, Sbp4.
  - intros n Hn. apply Hnode in Hn as ->. rewrite Sbp4. done.
  - intros c n (k & Hk & ->) Hn. apply Hnode in Hn as ->.
    pose proof (Hkb k Hk).
    left. unfold seg_entry. rewrite Cs, Gs, Hsfp, Hsf1.
    unfold bp, SEGSIZE in *. lia.
  - intros n n' Hn Hn' Hne. apply Hnode in Hn as ->. by apply Hnode in Hn' as ->.
Qed.

Lemma mm_init_builds_table_witness :
  free_table LP64 (init_heap 8192) (initial_lists LP64 4096).
Proof.
  refine (proj2 (proj2 (proj2 (proj2 (proj2 (proj2 (proj2
    (mm_init_builds_table LP64 (fresh_arena 4096 8192) _ _)))))))).
  - vm_compute. discriminate.
  - vm_compute. discriminate.
Defined.

(** X15: on an arena with less room than the sentinel table, the four
    words of prologue and epilogue and one chunk take, [mm_init] returns
    [-1]. *)
Theorem mm_init_fails_without_room (p : platform) (st : heap) :
  mem_max_addr st < mem_brk st + init_bytes p ->
  fst (mm_init p st) = -1.
Proof.
  intros Hroom. pose proof (wbounds p) as (HW & HD & _).
  assert (HC : CHUNKSIZE = 4096) by reflexivity.
  unfold init_bytes, SEGSIZE in Hroom.
  unfold mm_init.
  destruct (mem_sbrk st (2 * SEGSIZE * WSIZE p)) as [[a stA]|] eqn:E1; [|done].
  lazy beta iota zeta.
  unfold mem_sbrk in E1.
  destruct (Z.leb_spec (mem_brk st + 2 * SEGSIZE * WSIZE p) (mem_max_addr st))
    as [H1|]; [|done].
  injection E1 as <- <-.
  pose proof (init_sentinels p (seqZ 0 SEGSIZE)
    (set_seg_first
       (mkHeap (mem st) (mem_brk st + 2 * SEGSIZE * WSIZE p) (mem_max_addr st)
               (heap_listp st) (seg_first st)) (mem_brk st))) as Hinit.
  cbv zeta in Hinit. revert Hinit.
  match goal with |- context [mem_sbrk ?s (4 * WSIZE p)] => generalize s end.
  intros st1 ([(_ & _ & Hmax1) Hbrk1] & _). simpl in Hmax1, Hbrk1.
  destruct (mem_sbrk st1 (4 * WSIZE p)) as [[a stB]|] eqn:E2; [|done].
  lazy beta iota zeta.
  unfold mem_sbrk in E2.
  destruct (Z.leb_spec (mem_brk st1 + 4 * WSIZE p) (mem_max_addr st1))
    as [H2|]; [|done].
  injection E2 as <- <-.
  match goal with |- context [extend_heap p ?s _] => set (stP := s) end.
  unfold extend_heap. rewrite extend_bytes_chunk.
  unfold mem_sbrk.
  change (mem_brk stP) with (mem_brk st1 + 4 * WSIZE p).
  change (mem_max_addr stP) with (mem_max_addr st1).
  destruct (Z.leb_spec (mem_brk st1 + 4 * WSIZE p + CHUNKSIZE)
                       (mem_max_addr st1)) as [H3|_].
  - unfold SEGSIZE in *. lia.
  - done.
Qed.

Lemma mm_init_fails_without_room_witness :
  fst (mm_init LP64 (fresh_arena 4096 4000)) = -1.
Proof. apply mm_init_fails_without_room. vm_compute. reflexivity. Defined.

(** ** The block checker *)

Section CheckBlockFacts.
Variable p : platform.

Lemma chain_next (st : heap) (l : list Z) :
  forall a z c, chain p st a l z -> c ∈ a :: l -> next_list st c ∈ l ++ [z].
Proof.
  induction l as [|n l IH]; intros a z c Hch Hc; simpl in Hch.
  - apply list_elem_of_singleton in Hc as ->. destruct Hch as [-> _].
    by apply list_elem_of_singleton.
  - destruct Hch as (Hn & _ & Hch).
    apply elem_of_cons in Hc as [->|Hc].
    + rewrite Hn. apply list_elem_of_here.
    + apply list_elem_of_further. by apply (IH n z c).
Qed.

Lemma cycle_next (st : heap) (L : Z -> list Z) (c : Z) :
  seg_lists p st L ->
  c ∈ seg_first st :: L 0 -> next_list st c ∈ seg_first st :: L 0.
Proof.
  intros HL Hc.
  assert (He : seg_entry p st 0 = seg_first st) by (unfold seg_entry; lia).
  pose proof (sl_chain _ _ _ HL 0 ltac:(unfold SEGSIZE; lia)) as Hch.
  unfold class_list in Hch. rewrite He in Hch.
  pose proof (chain_next st (L 0) _ _ c Hch Hc) as Hn.
  apply elem_of_app in Hn as [Hn|Hn].
  - by apply list_elem_of_further.
  - apply list_elem_of_singleton in Hn as ->. apply list_elem_of_here.
Qed.

Lemma walks_stay_on_cycle (st : heap) (L : Z -> list Z) (bp : Z) :
  seg_lists p st L ->
  Forall (fun c => c <> NULL) (seg_first st :: L 0) ->
  bp ∉ seg_first st :: L 0 ->
  forall fuel i, i ∈ seg_first st :: L 0 ->
    checkblock_free_walk fuel st i bp = None /\
    checkblock_alloc_walk fuel st i bp = None.
Proof.
  intros HL Hnn Hbp. rewrite Forall_forall in Hnn.
  induction fuel as [|fuel IH]; intros i Hi; [done|]. simpl.
  pose proof (cycle_next st L i HL Hi) as Hnext.
  pose proof (Hnn i Hi) as Hi0. pose proof (Hnn _ Hnext) as Hn0.
  destruct (Z.eqb_spec i NULL) as [|_]; [done|].
  destruct (Z.eqb_spec i bp) as [->|_]; [done|].
  destruct (Z.eqb_spec (next_list st i) NULL) as [|_]; [done|].
  simpl. by apply IH.
Qed.

Lemma free_walk_finds (st : heap) (bp : Z) (l : list Z) :
  bp <> NULL ->
  forall a fuel,
    chain p st a l bp -> Forall (fun c => c <> NULL /\ c <> bp) (a :: l) ->
    (length l + 1 < fuel)%nat ->
    checkblock_free_walk fuel st a bp = Some true /\
    checkblock_alloc_walk fuel st a bp = Some true.
Proof.
  intros Hb.
  induction l as [|n l IH]; intros a fuel Hch Hall Hfuel; simpl in Hch.
  - destruct fuel as [|[|fuel]]; [simpl in Hfuel; lia..|].
    apply Forall_cons in Hall as [[Ha0 Hab] _].
    destruct Hch as [Hn _]. simpl. rewrite Hn.
    destruct (Z.eqb_spec a NULL); [done|].
    destruct (Z.eqb_spec a bp); [done|].
    rewrite Z.eqb_refl. by destruct (Z.eqb_spec bp NULL).
  - destruct fuel as [|fuel]; [simpl in Hfuel; lia|].
    apply Forall_cons in Hall as [[Ha0 Hab] Hall].
    destruct Hch as (Hn & _ & Hch). simpl. rewrite Hn.
    destruct (Z.eqb_spec a NULL); [done|].
    destruct (Z.eqb_spec a bp); [done|].
    pose proof Hall as Hall'. apply Forall_cons in Hall' as [[Hn0 _] _].
    destruct (Z.eqb_spec n NULL); [done|]. simpl.
    apply IH; [done|done|simpl in Hfuel; lia].
Qed.
End CheckBlockFacts.

(** X16: [checkblock] walks the circular list of class 0 only, and waits
    for [NULL]: on well-formed class lists it never returns for a block
    that is neither the first sentinel nor on that list, whatever its
    allocated bit says. *)
Theorem checkblock_never_returns
    (p : platform) (st : heap) (L : Z -> list Z) (bp : Z) :
  seg_lists p st L ->
  Forall (fun c => c <> NULL) (seg_first st :: L 0) ->
  bp ∉ seg_first st :: L 0 ->
  forall fuel, checkblock p fuel st bp = None.
Proof.
  intros HL Hnn Hbp fuel. unfold checkblock.
  destruct (walks_stay_on_cycle p st L bp HL Hnn Hbp fuel (seg_first st))
    as [Hf Ha]; [apply list_elem_of_here|].
  rewrite Hf, Ha. by destruct (negb _).
Qed.

Lemma checkblock_never_returns_witness :
  checkblock LP64 1000 (init_heap 8192) (heap_listp (init_heap 8192)) = None.
Proof.
  apply (checkblock_never_returns LP64 (init_heap 8192)
           (initial_lists LP64 4096)).
  - apply seg_listsb_spec. vm_compute. reflexivity.
  - refine (bool_decide_eq_true_1 _ _). vm_compute. reflexivity.
  - refine (bool_decide_eq_true_1 _ _). vm_compute. reflexivity.
Defined.

(** X17: for a free block on the list of class 0, [checkblock] returns and
    its last line reports the block as found, with the class index of the
    block's size. *)
Theorem checkblock_finds_class0
    (p : platform) (st : heap) (L : Z -> list Z) (bp : Z) (fuel : nat) :
  seg_lists p st L ->
  Forall (fun c => c <> NULL) (seg_first st :: L 0) ->
  bp ∈ L 0 ->
  GET_ALLOC st (HDRP p bp) = 0 ->
  (length (L 0%Z) + 1 < fuel)%nat ->
  exists pre,
    checkblock p fuel st bp
      = Some (pre ++ [FoundInFreeList bp
                        (seg_index (GET_SIZE st (HDRP p bp)))]).
Proof.
  intros HL Hnn Hbp Hfree Hfuel.
  assert (H0 : 0 <= 0 < SEGSIZE) by (unfold SEGSIZE; lia).
  assert (He : seg_entry p st 0 = seg_first st) by (unfold seg_entry; lia).
  pose proof (sl_chain _ _ _ HL 0 H0) as Hch.
  pose proof (class_nodup p st L HL 0 H0) as Hnd.
  unfold class_list in Hch. rewrite He in Hch, Hnd.
  apply list_elem_of_split in Hbp as (l1 & l2 & E). rewrite E in *.
  apply chain_app in Hch as [Hch _].
  assert (Hall : Forall (fun c => c <> NULL /\ c <> bp) (seg_first st :: l1)).
  { rewrite Forall_forall in Hnn. apply Forall_forall. intros c Hc. split.
    - apply Hnn. apply elem_of_cons in Hc as [->|Hc];
        [apply list_elem_of_here|].
      apply list_elem_of_further, elem_of_app. by left.
    - intros ->. rewrite app_comm_cons in Hnd.
      apply NoDup_app in Hnd as (_ & Hnd & _).
      apply (Hnd bp Hc). apply list_elem_of_here. }
  assert (Hb : bp <> NULL).
  { rewrite Forall_forall in Hnn. apply Hnn.
    apply list_elem_of_further, elem_of_app. right. apply list_elem_of_here. }
  rewrite length_app in Hfuel. simpl in Hfuel.
  destruct (free_walk_finds p st bp l1 Hb (seg_first st) fuel Hch Hall
              ltac:(lia)) as [Hw _].
  unfold checkblock. rewrite Hfree, Hw. simpl.
  eexists (_ ++ _). by rewrite <- app_assoc.
Qed.

Lemma checkblock_finds_class0_witness :
  exists pre,
    checkblock LP64 8 heap_with_gaps 4288
      = Some (pre ++ [FoundInFreeList 4288 0]).
Proof.
  apply (checkblock_finds_class0 LP64 heap_with_gaps lists_with_gaps 4288 8).
  - apply seg_listsb_spec. vm_compute. reflexivity.
  - refine (bool_decide_eq_true_1 _ _). vm_compute. reflexivity.
  - refine (bool_decide_eq_true_1 _ _). vm_compute. reflexivity.
  - vm_compute. reflexivity.
  - vm_compute. lia.
Defined.

(** ** Freeing a block *)

Section FreeFacts.
Variable p : platform.

Local Abbreviation W := (WSIZE p).
Local Abbreviation D := (DSIZE p).

Lemma free_preb_spec (st : heap) (bp : Z) (L : Z -> list Z) :
  free_preb p st bp L = true -> free_pre p st bp L.
Proof.
  unfold free_preb. intros H.
  apply andb_prop in H as [H Hnx]. apply andb_prop in H as [H Hpv].
  apply andb_prop in H as [H Hps]. apply andb_prop in H as [H Hpp].
  apply andb_prop in H as [H Hsn]. apply andb_prop in H as [H Hap].
  apply andb_prop in H as [H Hfit]. apply andb_prop in H as [H Hsz].
  apply andb_prop in H as [HT Hpos].
  rewrite forallb_forall in Hap, Hsn.
  constructor.
  - by apply free_tableb_spec.
  - by apply Z.ltb_lt.
  - by apply Z.leb_le.
  - by apply Z.ltb_lt.
  - intros n Hn. apply node_nodes_from, list_elem_of_In in Hn.
    specialize (Hap n Hn). rewrite orb_true_iff, !Z.leb_le in Hap. done.
  - intros c Hc. apply sentinel_cells_of, list_elem_of_In in Hc.
    specialize (Hsn c Hc). rewrite orb_true_iff, !Z.leb_le in Hsn. done.
  - split; [by apply Z.ltb_lt|by apply Z.eqb_eq].
  - intros Hf. rewrite Hf in Hpv. by apply node_nodes_from, memberb_spec.
  - intros Hf. rewrite Hf in Hnx. by apply node_nodes_from, memberb_spec.
Qed.

(** The two words [mm_free] writes before it calls [coalesce]. *)
Lemma mark_free_reads (st : heap) (bp : Z) :
  let s := block_size p st bp in
  let st' := mark_free p st bp in
  GET st' (bp - W) = PACK s 0 /\
  GET st' (bp + s - D) = PACK s 0 /\
  (forall a, a <> bp - W -> a <> bp + s - D -> GET st' a = GET st a) /\
  same_arena st st'.
Proof.
  intros s st'.
  assert (Hs : s mod 8 = 0) by apply GET_SIZE_mod.
  assert (E : st' = PUT (PUT st (bp - W) (PACK s 0)) (bp + s - D) (PACK s 0)).
  { unfold st', mark_free. fold (block_size p st bp). fold s.
    unfold FTRP. unfold HDRP. by rewrite GET_SIZE_PUT_eq. }
  rewrite E. pose proof (wbounds p) as (HW & HD & _).
  split; [|split; [|split; [|by repeat split]]].
  - rewrite !GET_PUT. repeat case_decide; done.
  - by rewrite GET_PUT_eq.
  - intros a H1 H2. by rewrite !GET_PUT_ne.
Qed.

Lemma GET_ALLOC_eq (st st' : heap) (a : Z) :
  GET st' a = GET st a -> GET_ALLOC st' a = GET_ALLOC st a.
Proof. unfold GET_ALLOC. by intros ->. Qed.

Lemma truth_eqb (v : Z) : negb (truth v) = (v =? 0).
Proof. unfold truth. by rewrite negb_involutive. Qed.

Lemma GET_ALLOC_PACK_0 (st : heap) (a s : Z) :
  s mod 8 = 0 -> GET st a = PACK s 0 -> GET_ALLOC st a = 0.
Proof.
  intros Hs Hg. unfold GET_ALLOC. rewrite Hg, PACK_0.
  change 1 with (Z.ones 1). rewrite Z.land_ones by lia.
  change (2 ^ 1) with 2. pose proof (Z.div_mod s 8 ltac:(lia)).
  replace s with (0 + s / 8 * 4 * 2) by lia. by rewrite Z.mod_add.
Qed.
End FreeFacts.

Section FreeTableKept.
Variable p : platform.

Local Abbreviation W := (WSIZE p).
Local Abbreviation D := (DSIZE p).

(** The state on which [mm_free] calls [coalesce] meets what [coalesce]
    requires, and the results of the merge are the ones read off the heap
    before the call. *)
Lemma free_pre_coalesce (st : heap) (bp : Z) (L : Z -> list Z) :
  free_pre p st bp L ->
  let st1 := mark_free p st bp in
  coalesce_pre p st1 bp L /\
  merged_block p st1 bp = freed_block p st bp /\
  merged_size p st1 bp = freed_size p st bp /\
  merged_lists p st1 bp L = freed_lists p st bp L.
Proof.
  intros HP st1.
  destruct (wbounds p) as (HW & HD & Hm & _).
  pose proof (fp_table _ _ _ _ HP) as HT.
  pose proof (ft_lists _ _ _ HT) as HL.
  pose proof (fp_size _ _ _ _ HP) as Hsz.
  pose proof (fp_apart _ _ _ _ HP) as Hap.
  pose proof (fp_sent _ _ _ _ HP) as Hsn.
  destruct (fp_prev_size _ _ _ _ HP) as [Hfpos Hfsz].
  destruct (mark_free_reads p st bp) as (R1 & R2 & Rfr & [(Gs & _) _]).
  fold st1 in R1, R2, Rfr, Gs.
  set (s := block_size p st bp) in *.
  set (pb := PREV_BLKP p st bp) in *.
  set (nb := NEXT_BLKP p st bp) in *.
  set (fsz := GET_SIZE st (bp - D)) in *.
  assert (Hs : s mod 8 = 0) by apply GET_SIZE_mod.
  assert (Epb : pb = bp - fsz) by reflexivity.
  assert (Enb : nb = bp + s) by reflexivity.
  (* reads of the state after the two writes *)
  assert (S1 : block_size p st1 bp = s).
  { unfold block_size, HDRP. by apply GET_SIZE_PACK_0. }
  assert (Rf : GET st1 (bp - D) = GET st (bp - D)) by (apply Rfr; lia).
  assert (Ep1 : PREV_BLKP p st1 bp = pb).
  { unfold PREV_BLKP. by rewrite (GET_SIZE_eq st st1). }
  assert (En1 : NEXT_BLKP p st1 bp = nb).
  { unfold NEXT_BLKP. fold (HDRP p bp). fold (block_size p st1 bp).
    by rewrite S1. }
  assert (Sp1 : block_size p st1 pb = fsz).
  { unfold block_size. rewrite (GET_SIZE_eq st st1); [done|].
    apply Rfr; unfold HDRP; lia. }
  assert (Rn : GET st1 (HDRP p nb) = GET st (HDRP p nb))
    by (apply Rfr; unfold HDRP; lia).
  assert (Sn1 : block_size p st1 nb = block_size p st nb).
  { unfold block_size. by apply GET_SIZE_eq. }
  assert (Hpf : prev_free p st1 bp = prev_is_free p st bp).
  { unfold prev_free, prev_is_free. rewrite truth_eqb, Ep1. unfold FTRP.
    fold (block_size p st1 pb). rewrite Sp1.
    replace (pb + fsz - D) with (bp - D) by lia.
    by rewrite (GET_ALLOC_eq st st1). }
  assert (Hnf : next_free p st1 bp = next_is_free p st bp).
  { unfold next_free, next_is_free. rewrite truth_eqb, En1.
    by rewrite (GET_ALLOC_eq st st1). }
  assert (Hmb : merged_block p st1 bp = freed_block p st bp).
  { unfold merged_block, freed_block. by rewrite Hpf, Ep1. }
  assert (Hms : merged_size p st1 bp = freed_size p st bp).
  { unfold merged_size, freed_size. by rewrite Hpf, Hnf, Ep1, En1, S1, Sp1, Sn1. }
  assert (Hml : merged_lists p st1 bp L = freed_lists p st bp L).
  { unfold merged_lists, freed_lists. by rewrite Hpf, Hnf, Ep1, En1, Hmb, Hms. }
  split; [|done].
  (* cells stay clear of the block *)
  assert (Hcell : forall c, cell p st L c ->
            c + 2 * W <= bp - W \/ bp + s - W <= c).
  { intros c [Hc|Hc]; [by apply Hsn|].
    pose proof (ft_size _ _ _ HT c Hc). destruct (Hap c Hc); lia. }
  assert (Hcell1 : forall c, cell p st1 L c <-> cell p st L c).
  { intros c. unfold cell, sentinel, seg_entry. by rewrite Gs. }
  assert (HL1 : seg_lists p st1 L).
  { apply (seg_lists_frame p st L HL); [done|].
    intros c Hc. pose proof (Hcell c Hc).
    unfold next_list, prev_list. split; apply Rfr; lia. }
  constructor.
  - exact HL1.
  - rewrite S1. split; [exact R1|]. unfold FTRP.
    fold (block_size p st1 bp). by rewrite S1.
  - by rewrite S1.
  - rewrite Hms. apply (fp_fits _ _ _ _ HP).
  - rewrite Ep1, Sp1. by apply GET_SIZE_eq.
  - rewrite Hpf, Ep1, Sp1. intros Hf.
    pose proof (fp_prev _ _ _ _ HP Hf) as Hn. fold pb in Hn.
    pose proof (ft_size _ _ _ HT pb Hn). split; [lia|done].
  - rewrite Hnf, En1, Sn1. intros Hf.
    pose proof (fp_next _ _ _ _ HP Hf) as Hn. fold nb in Hn.
    pose proof (ft_size _ _ _ HT nb Hn) as Hns.
    destruct (ft_tags _ _ _ HT nb Hn) as [_ Hft].
    split; [lia|]. split; [|done].
    unfold FTRP. fold (block_size p st1 nb). rewrite Sn1.
    rewrite (GET_SIZE_eq st st1) by (apply Rfr; lia).
    apply GET_SIZE_PACK_0; [apply GET_SIZE_mod|done].
  - intros c Hc Hnp Hnn. rewrite Hmb, Hms. apply Hcell1 in Hc.
    rewrite Hpf in Hnp. rewrite Hnf in Hnn. rewrite Ep1 in Hnp.
    rewrite En1 in Hnn.
    pose proof (Hcell c Hc) as Hcb.
    unfold freed_block, freed_size. fold pb nb s fsz.
    assert (Hp : prev_is_free p st bp = true ->
              c + 2 * W <= pb - W \/ pb + fsz - W <= c).
    { intros Hf. pose proof (fp_prev _ _ _ _ HP Hf) as Hn. fold pb in Hn.
      rewrite <- Hfsz. apply (free_table_cells p st L pb c HT Hn Hc).
      by apply Hnp. }
    assert (Hn : next_is_free p st bp = true ->
              c + 2 * W <= nb - W \/ nb + block_size p st nb - W <= c).
    { intros Hf. pose proof (fp_next _ _ _ _ HP Hf) as Hn. fold nb in Hn.
      apply (free_table_cells p st L nb c HT Hn Hc). by apply Hnn. }
    destruct (prev_is_free p st bp), (next_is_free p st bp);
      try specialize (Hp eq_refl); try specialize (Hn eq_refl); lia.
Qed.
End FreeTableKept.

Lemma add_mod8 (a b : Z) : a mod 8 = 0 -> b mod 8 = 0 -> (a + b) mod 8 = 0.
Proof. intros Ha Hb. by rewrite Z.add_mod, Ha, Hb. Qed.

Lemma mm_free_coalesce (p : platform) (st : heap) (bp : Z) :
  bp <> NULL -> mm_free p st bp = snd (coalesce p (mark_free p st bp) bp).
Proof. intros Hb. unfold mm_free. by destruct (Z.eqb_spec bp NULL). Qed.

Lemma mm_free_table
    (p : platform) (st : heap) (bp : Z) (L : Z -> list Z) :
  free_pre p st bp L ->
  let st' := mm_free p st bp in
  let fb := freed_block p st bp in
  free_table p st' (freed_lists p st bp L) /\
  fb ∈ freed_lists p st bp L (seg_index (freed_size p st bp)) /\
  block_size p st' fb = freed_size p st bp /\
  GET_ALLOC st' (HDRP p fb) = 0 /\
  fb <= bp /\ bp + block_size p st bp <= fb + freed_size p st bp /\
  (forall n, node L n ->
     (prev_is_free p st bp = true -> n <> PREV_BLKP p st bp) ->
     (next_is_free p st bp = true -> n <> NEXT_BLKP p st bp) ->
     node (freed_lists p st bp L) n /\
     GET st' (HDRP p n) = GET st (HDRP p n) /\
     GET st' (n + block_size p st n - DSIZE p)
       = GET st (n + block_size p st n - DSIZE p)).
Proof.
  intros HP st' fb.
  destruct (wbounds p) as (HW & HD & Hm & _).
  pose proof (fp_table _ _ _ _ HP) as HT.
  pose proof (fp_size _ _ _ _ HP) as Hsz.
  pose proof (fp_pos _ _ _ _ HP) as Hpos.
  pose proof (fp_apart _ _ _ _ HP) as Hap.
  pose proof (fp_sent _ _ _ _ HP) as Hsn.
  pose proof (fp_fits _ _ _ _ HP) as Hfit.
  destruct (fp_prev_size _ _ _ _ HP) as [Hfpos Hfsz].
  destruct (free_pre_coalesce p st bp L HP) as (Hpre & Hmb & Hms & Hml).
  destruct (mark_free_reads p st bp) as (_ & _ & Rfr & [(Gs1 & _) _]).
  destruct (coalesce_spec p _ bp L Hpre) as (Hr & Hh & Hf & HL' & Hfr).
  destruct (coalesce_arena p (mark_free p st bp) bp) as [(Gs & _) _].
  rewrite <- (mm_free_coalesce p st bp) in Hh, Hf, HL', Hfr, Gs
    by (unfold NULL; lia).
  fold st' in Hh, Hf, HL', Hfr, Gs.
  rewrite Hr, Hmb, Hms in Hh. rewrite Hr, Hmb, Hms in Hf.
  rewrite Hml in HL'. rewrite Hmb, Hms in Hfr. fold fb in Hh, Hf, Hfr.
  set (st1 := mark_free p st bp) in *.
  set (s := block_size p st bp) in *.
  set (pb := PREV_BLKP p st bp) in *.
  set (nb := NEXT_BLKP p st bp) in *.
  set (fsz := GET_SIZE st (bp - DSIZE p)) in *.
  set (ms := freed_size p st bp) in *.
  assert (Epb : pb = bp - fsz) by reflexivity.
  assert (Enb : nb = bp + s) by reflexivity.
  assert (Hpn : prev_is_free p st bp = true ->
            node L pb /\ 2 * DSIZE p <= fsz).
  { intros Hpf. pose proof (fp_prev _ _ _ _ HP Hpf) as Hn. fold pb in Hn.
    pose proof (ft_size _ _ _ HT pb Hn). split; [done|lia]. }
  assert (Hnn : next_is_free p st bp = true ->
            node L nb /\ 2 * DSIZE p <= block_size p st nb).
  { intros Hnf. pose proof (fp_next _ _ _ _ HP Hnf) as Hn. fold nb in Hn.
    pose proof (ft_size _ _ _ HT nb Hn). split; [done|lia]. }
  (* the extent of the merged block *)
  assert (Hext : fb <= bp /\ bp + s <= fb + ms /\ 2 * DSIZE p <= ms /\
                 ms mod 8 = 0 /\ 0 < fb /\
                 fb = (if prev_is_free p st bp then pb else bp) /\
                 fb + ms = (if next_is_free p st bp
                            then nb + block_size p st nb else nb)).
  { unfold fb, ms, freed_block, freed_size. fold s pb nb fsz.
    assert (s mod 8 = 0) by apply GET_SIZE_mod.
    assert (fsz mod 8 = 0) by apply GET_SIZE_mod.
    assert (block_size p st nb mod 8 = 0) by apply GET_SIZE_mod.
    assert (Hpp : prev_is_free p st bp = true -> 0 < pb).
    { intros Hpf. apply (ft_pos _ _ _ HT). by apply Hpn. }
    destruct (prev_is_free p st bp), (next_is_free p st bp);
      try specialize (Hpn eq_refl); try specialize (Hnn eq_refl);
      try specialize (Hpp eq_refl);
      (split; [|split; [|split; [|split; [|split; [|split]]]]]);
      try reflexivity; try lia; by repeat apply add_mod8. }
  destruct Hext as (Hfb & Hend & Hmin & Hmod & Hfpos' & Efb & Eend).
  assert (Sfb : block_size p st' fb = ms).
  { unfold block_size. by apply GET_SIZE_PACK_0. }
  (* the nodes after the call *)
  assert (Hnodes : forall n, node (freed_lists p st bp L) n ->
            n = fb \/
            (node L n /\ (prev_is_free p st bp = true -> n <> pb) /\
             (next_is_free p st bp = true -> n <> nb))).
  { intros n (j & Hj & Hin). unfold freed_lists in Hin.
    apply elem_of_push in Hin as [[_ ->]|Hin]; [by left|]. right.
    fold pb nb in Hin. unfold unlink_if in Hin.
    destruct (next_is_free p st bp), (prev_is_free p st bp).
    - apply list_elem_of_filter in Hin as [H1 Hin].
      apply list_elem_of_filter in Hin as [H2 Hin].
      split; [by exists j|done].
    - apply list_elem_of_filter in Hin as [H1 Hin].
      split; [by exists j|done].
    - apply list_elem_of_filter in Hin as [H1 Hin].
      split; [by exists j|done].
    - split; [by exists j|done]. }
  (* a listed block that stays is outside the merged block *)
  assert (Hout : forall n, node L n ->
            (prev_is_free p st bp = true -> n <> pb) ->
            (next_is_free p st bp = true -> n <> nb) ->
            n + block_size p st n <= fb \/ fb + ms <= n).
  { intros n Hn Hnp Hnx. pose proof (Hap n Hn) as Hb. fold s in Hb.
    assert (Hp : prev_is_free p st bp = true ->
              n + block_size p st n <= pb \/ pb + fsz <= n).
    { intros Hpf. destruct (Hpn Hpf) as [Hpb _]. rewrite <- Hfsz.
      by apply (ft_disj _ _ _ HT n pb Hn Hpb), Hnp. }
    assert (Hx : next_is_free p st bp = true ->
              n + block_size p st n <= nb \/ nb + block_size p st nb <= n).
    { intros Hnf. destruct (Hnn Hnf) as [Hnb _].
      by apply (ft_disj _ _ _ HT n nb Hn Hnb), Hnx. }
    pose proof (ft_size _ _ _ HT n Hn).
    pose proof Efb as E1. pose proof Eend as E2. revert E1 E2 Hp Hx.
    destruct (prev_is_free p st bp), (next_is_free p st bp);
      intros E1 E2 Hp Hx;
      try specialize (Hp eq_refl); try specialize (Hx eq_refl); lia. }
  assert (Hcells : forall c, cell p st1 L c <-> cell p st L c).
  { intros c. unfold cell, sentinel, seg_entry. by rewrite Gs1. }
  assert (Hold : forall n, node L n ->
            (prev_is_free p st bp = true -> n <> pb) ->
            (next_is_free p st bp = true -> n <> nb) ->
            GET st' (HDRP p n) = GET st (HDRP p n) /\
            GET st' (n + block_size p st n - DSIZE p)
              = GET st (n + block_size p st n - DSIZE p)).
  { intros n Hn Hnp Hnx.
    pose proof (ft_size _ _ _ HT n Hn) as Hns.
    pose proof (Hout n Hn Hnp Hnx) as Ho.
    pose proof (Hap n Hn) as Hb. fold s in Hb.
    split.
    - rewrite Hfr; [apply Rfr; unfold HDRP; lia|unfold HDRP; lia|].
      intros c Hc. apply Hcells in Hc.
      by apply (free_table_tags_outside p st L n c).
    - rewrite Hfr; [apply Rfr; unfold HDRP; lia|unfold HDRP; lia|].
      intros c Hc. apply Hcells in Hc.
      by apply (free_table_tags_outside p st L n c). }
  assert (Hbsold : forall n, node L n ->
            (prev_is_free p st bp = true -> n <> pb) ->
            (next_is_free p st bp = true -> n <> nb) ->
            block_size p st' n = block_size p st n).
  { intros n Hn Hnp Hnx. unfold block_size. apply GET_SIZE_eq.
    by apply Hold. }
  assert (Hsent : forall c, sentinel p st' c <-> sentinel p st c).
  { intros c. unfold sentinel, seg_entry. by rewrite Gs, Gs1. }
  assert (Hsfb : forall c, sentinel p st c ->
            c + 2 * WSIZE p <= fb - WSIZE p \/ fb + ms - WSIZE p <= c).
  { intros c Hc. pose proof (Hsn c Hc) as Hb. fold s in Hb.
    assert (Hp : prev_is_free p st bp = true ->
              c + 2 * WSIZE p <= pb - WSIZE p \/ pb + fsz - WSIZE p <= c).
    { intros Hpf. destruct (Hpn Hpf) as [Hpb _]. rewrite <- Hfsz.
      by apply (ft_sent _ _ _ HT). }
    assert (Hx : next_is_free p st bp = true ->
              c + 2 * WSIZE p <= nb - WSIZE p \/
              nb + block_size p st nb - WSIZE p <= c).
    { intros Hnf. destruct (Hnn Hnf) as [Hnb _].
      by apply (ft_sent _ _ _ HT). }
    pose proof Efb as E1. pose proof Eend as E2. revert E1 E2 Hp Hx.
    destruct (prev_is_free p st bp), (next_is_free p st bp);
      intros E1 E2 Hp Hx;
      try specialize (Hp eq_refl); try specialize (Hx eq_refl); lia. }
  split; [|split; [|split; [exact Sfb|split;
    [by apply (GET_ALLOC_PACK_0 st' _ ms)|split;
      [exact Hfb|split; [exact Hend|]]]]]].
  - constructor.
    + exact HL'.
    + intros n Hn. destruct (Hnodes n Hn) as [->|(Hn' & _)]; [done|].
      by apply (ft_pos _ _ _ HT).
    + intros n Hn. destruct (Hnodes n Hn) as [->|(Hn' & Hnp & Hnx)].
      * rewrite Sfb. lia.
      * rewrite Hbsold by done. by apply (ft_size _ _ _ HT).
    + intros j n Hj Hin.
      assert (Hn : node (freed_lists p st bp L) n) by (by exists j).
      destruct (Hnodes n Hn) as [->|(Hn' & Hnp & Hnx)].
      * rewrite Sfb.
        pose proof (sl_class _ _ _ HL' (seg_index ms) j fb
                      (seg_index_range ms) Hj) as Hc.
        apply Hc; [|done]. unfold freed_lists. fold ms fb.
        apply elem_of_push. by left.
      * rewrite Hbsold by done.
        pose proof (sl_class _ _ _ HL' j (seg_index (block_size p st n)) n
                      Hj (seg_index_range _) Hin) as Hc.
        symmetry. apply Hc.
        destruct Hn' as (j' & Hj' & Hin').
        rewrite (ft_class _ _ _ HT j' n Hj' Hin').
        unfold freed_lists. apply elem_of_push. right.
        fold pb nb. unfold unlink_if.
        destruct (next_is_free p st bp), (prev_is_free p st bp);
          unfold unlink; repeat (apply list_elem_of_filter; split);
          try done; auto.
    + intros n Hn. destruct (Hnodes n Hn) as [->|(Hn' & Hnp & Hnx)].
      * by rewrite Sfb.
      * rewrite Hbsold by done. destruct (Hold n Hn' Hnp Hnx) as [-> ->].
        by apply (ft_tags _ _ _ HT).
    + intros c n Hc Hn. apply Hsent in Hc.
      destruct (Hnodes n Hn) as [->|(Hn' & Hnp & Hnx)].
      * rewrite Sfb. by apply Hsfb.
      * rewrite Hbsold by done. by apply (ft_sent _ _ _ HT).
    + intros n n' Hn Hn' Hne.
      destruct (Hnodes n Hn) as [->|(Hn1 & Hnp & Hnx)];
        destruct (Hnodes n' Hn') as [->|(Hn2 & Hnp' & Hnx')].
      * done.
      * rewrite Sfb, Hbsold by done.
        destruct (Hout n' Hn2 Hnp' Hnx'); lia.
      * rewrite Sfb, Hbsold by done.
        destruct (Hout n Hn1 Hnp Hnx); lia.
      * rewrite !Hbsold by done. by apply (ft_disj _ _ _ HT).
  - unfold freed_lists. fold ms fb. apply elem_of_push. by left.
  - intros n Hn Hnp Hnx. split; [|by apply Hold].
    destruct Hn as (j & Hj & Hin). exists j. split; [done|].
    unfold freed_lists. apply elem_of_push. right.
    fold pb nb. unfold unlink_if.
    destruct (next_is_free p st bp), (prev_is_free p st bp);
      unfold unlink; repeat (apply list_elem_of_filter; split);
      try done; auto.
Qed.

(** X18: [mm_free] keeps the free table.  The freed block, merged with the
    neighbours whose boundary tags say they are free, is a free block at
    the head of the list of the class of the merged size, and it covers the
    block that was freed; the other listed blocks stay listed and keep
    their header and footer words. *)
Theorem mm_free_keeps_free_table
    (p : platform) (st : heap) (bp : Z) (L : Z -> list Z) :
  free_pre p st bp L ->
  let st' := mm_free p st bp in
  let fb := freed_block p st bp in
  free_table p st' (freed_lists p st bp L) /\
  fb ∈ freed_lists p st bp L (seg_index (freed_size p st bp)) /\
  block_size p st' fb = freed_size p st bp /\
  GET_ALLOC st' (HDRP p fb) = 0 /\
  fb <= bp /\ bp + block_size p st bp <= fb + freed_size p st bp /\
  (forall n, node L n ->
     (prev_is_free p st bp = true -> n <> PREV_BLKP p st bp) ->
     (next_is_free p st bp = true -> n <> NEXT_BLKP p st bp) ->
     node (freed_lists p st bp L) n /\
     GET st' (HDRP p n) = GET st (HDRP p n) /\
     GET st' (n + block_size p st n - DSIZE p)
       = GET st (n + block_size p st n - DSIZE p)).
Proof. apply mm_free_table. Qed.

Lemma mm_free_keeps_free_table_witness :
  free_table LP64 (mm_free LP64 heap_with_gaps 4320)
             (freed_lists LP64 heap_with_gaps 4320 lists_with_gaps).
Proof.
  refine (proj1 (mm_free_keeps_free_table LP64 heap_with_gaps 4320
                   lists_with_gaps _)).
  apply free_preb_spec. vm_compute. reflexivity.
Defined.

(** ** Growing the heap *)

Section GrowFacts.
Variable p : platform.

Local Abbreviation W := (WSIZE p).
Local Abbreviation D := (DSIZE p).

Lemma grow_preb_spec (st : heap) (size : Z) (L : Z -> list Z) :
  grow_preb p st size L = true -> grow_pre p st size L.
Proof.
  unfold grow_preb. intros H.
  apply andb_prop in H as [H Hpv]. apply andb_prop in H as [H Hps].
  apply andb_prop in H as [H Hpp]. apply andb_prop in H as [H Hsn].
  apply andb_prop in H as [H Hbl]. apply andb_prop in H as [H Hfit].
  apply andb_prop in H as [H Hmod]. apply andb_prop in H as [H Hsz].
  apply andb_prop in H as [H Hroom]. apply andb_prop in H as [HT Hpos].
  rewrite forallb_forall in Hbl, Hsn.
  constructor.
  - by apply free_tableb_spec.
  - by apply Z.ltb_lt.
  - by apply Z.leb_le.
  - split; [by apply Z.leb_le|by apply Z.eqb_eq].
  - by apply Z.ltb_lt.
  - intros n Hn. apply node_nodes_from, list_elem_of_In in Hn.
    by apply Z.leb_le, Hbl.
  - intros c Hc. apply sentinel_cells_of, list_elem_of_In in Hc.
    by apply Z.leb_le, Hsn.
  - split; [by apply Z.ltb_lt|by apply Z.eqb_eq].
  - intros Hf. rewrite Hf in Hpv. by apply node_nodes_from, memberb_spec.
Qed.

(** A free table survives writes at and above the header word of [b], when
    its blocks end at [b] and the sentinels lie below. *)
Lemma free_table_below (st st' : heap) (L : Z -> list Z) (b : Z) :
  free_table p st L ->
  seg_first st' = seg_first st ->
  (forall n, node L n -> n + block_size p st n <= b) ->
  (forall c, sentinel p st c -> c + 2 * W <= b - W) ->
  (forall a, a < b - W -> GET st' a = GET st a) ->
  free_table p st' L.
Proof.
  intros HT Gs Hbl Hsn Hfr.
  destruct (wbounds p) as (HW & HD & _).
  assert (Hbs : forall n, node L n -> block_size p st' n = block_size p st n).
  { intros n Hn. pose proof (Hbl n Hn). pose proof (ft_size _ _ _ HT n Hn).
    unfold block_size. apply GET_SIZE_eq, Hfr. unfold HDRP. lia. }
  assert (Hsent : forall c, sentinel p st' c <-> sentinel p st c).
  { intros c. unfold sentinel, seg_entry. by rewrite Gs. }
  constructor.
  - apply (seg_lists_frame p st L (ft_lists _ _ _ HT)); [done|].
    intros c [Hc|Hc]; unfold next_list, prev_list.
    + pose proof (Hsn c Hc). split; apply Hfr; lia.
    + pose proof (Hbl c Hc). pose proof (ft_size _ _ _ HT c Hc).
      split; apply Hfr; lia.
  - apply (ft_pos _ _ _ HT).
  - intros n Hn. rewrite Hbs by done. by apply (ft_size _ _ _ HT).
  - intros j n Hj Hn. rewrite Hbs by (by exists j).
    by apply (ft_class _ _ _ HT).
  - intros n Hn. rewrite Hbs by done.
    pose proof (Hbl n Hn). pose proof (ft_size _ _ _ HT n Hn).
    rewrite !Hfr by (unfold HDRP; lia). by apply (ft_tags _ _ _ HT).
  - intros c n Hc Hn. apply Hsent in Hc. rewrite Hbs by done.
    by apply (ft_sent _ _ _ HT).
  - intros n n' Hn Hn' Hne. rewrite !Hbs by done.
    by apply (ft_disj _ _ _ HT).
Qed.

(** Writing a word that is already there changes nothing. *)
Lemma PUT_same (st : heap) (a v : Z) :
  mem st !! a = Some v -> PUT st a v = st.
Proof.
  intros H. unfold PUT. rewrite insert_id by done. by destruct st.
Qed.

Lemma mem_PUT (st : heap) (a v b : Z) :
  mem (PUT st a v) !! b = if decide (a = b) then Some v else mem st !! b.
Proof.
  unfold PUT. simpl. case_decide as E.
  - subst. apply lookup_insert_eq.
  - by apply lookup_insert_ne.
Qed.

(** The two writes of [mm_free] leave the heap of [extend_heap] as it
    is. *)
Lemma mark_free_fresh_block (st : heap) (bp s : Z) :
  s mod 8 = 0 -> 2 * D <= s ->
  mark_free p (fresh_block p st bp s) bp = fresh_block p st bp s.
Proof.
  intros Hs Hmin. destruct (wbounds p) as (HW & HD & _).
  destruct (fresh_block_reads p st bp s Hs Hmin) as (R1 & R2 & _).
  set (st3 := fresh_block p st bp s) in *.
  assert (S3 : GET_SIZE st3 (HDRP p bp) = s)
    by (by apply GET_SIZE_PACK_0).
  assert (M1 : mem st3 !! (bp - W) = Some (PACK s 0) /\
               mem st3 !! (bp + s - D) = Some (PACK s 0)).
  { unfold st3. rewrite fresh_block_puts by done. rewrite !mem_PUT.
    split; repeat case_decide; try lia; done. }
  destruct M1 as [M1 M2].
  unfold mark_free. rewrite S3.
  rewrite (PUT_same st3 (HDRP p bp)) by done.
  unfold FTRP. rewrite S3. by apply PUT_same.
Qed.
End GrowFacts.

Section GrowTable.
Variable p : platform.

Local Abbreviation W := (WSIZE p).
Local Abbreviation D := (DSIZE p).

Lemma extend_heap_table (st : heap) (L : Z -> list Z) (words : Z) :
  grow_pre p st (extend_bytes p words) L ->
  let size := extend_bytes p words in
  let r := extend_heap p st words in
  fst r = grown_block p st /\
  fst r <> NULL /\
  free_table p (snd r) (grown_lists p st size L) /\
  fst r ∈ grown_lists p st size L (seg_index (grown_size p st size)) /\
  block_size p (snd r) (fst r) = grown_size p st size /\
  size <= grown_size p st size /\
  mem_brk (snd r) = mem_brk st + size /\
  GET (snd r) (mem_brk (snd r) - W) = PACK 0 1 /\
  same_globals st (snd r).
Proof.
  intros HG size r.
  destruct (wbounds p) as (HW & HD & Hm & _).
  pose proof (gp_table _ _ _ _ HG) as HT.
  pose proof (gp_pos _ _ _ _ HG) as Hpos.
  pose proof (gp_room _ _ _ _ HG) as Hroom.
  destruct (gp_size _ _ _ _ HG) as [Hmin Hmod].
  pose proof (gp_fits _ _ _ _ HG) as Hfit.
  pose proof (gp_below _ _ _ _ HG) as Hbl.
  pose proof (gp_sent _ _ _ _ HG) as Hsn.
  destruct (gp_prev_size _ _ _ _ HG) as [Hfpos Hfsz].
  pose proof (gp_prev _ _ _ _ HG) as Hprev.
  fold size in Hroom, Hmin, Hmod, Hfit.
  set (bp := mem_brk st) in *.
  set (stQ := mkHeap (mem st) (bp + size) (mem_max_addr st)
                     (heap_listp st) (seg_first st)).
  assert (E : mem_sbrk st (extend_bytes p words) = Some (bp, stQ)).
  { unfold mem_sbrk. fold size bp.
    by destruct (Z.leb_spec (bp + size) (mem_max_addr st)); [|lia]. }
  unfold r. rewrite (extend_heap_grows p st stQ words bp E). fold size.
  destruct (fresh_block_reads p stQ bp size Hmod Hmin)
    as (R1 & R2 & R3 & Rfr & [(Gs & Gh & Gm) Gb]).
  pose proof (mark_free_fresh_block p stQ bp size Hmod Hmin) as Hmark.
  set (st3 := fresh_block p stQ bp size) in *.
  change (seg_first stQ) with (seg_first st) in Gs.
  change (heap_listp stQ) with (heap_listp st) in Gh.
  change (mem_max_addr stQ) with (mem_max_addr st) in Gm.
  change (mem_brk stQ) with (bp + size) in Gb.
  assert (Hlow : forall a, a < bp - W -> GET st3 a = GET st a).
  { intros a Ha. rewrite Rfr by lia. reflexivity. }
  assert (HT3 : free_table p st3 L)
    by (by apply (free_table_below p st st3 L bp)).
  assert (S3 : block_size p st3 bp = size).
  { unfold block_size, HDRP. by apply GET_SIZE_PACK_0. }
  assert (Hbs : forall n, node L n -> block_size p st3 n = block_size p st n).
  { intros n Hn. pose proof (Hbl n Hn). pose proof (ft_size _ _ _ HT n Hn).
    unfold block_size. apply GET_SIZE_eq, Hlow. unfold HDRP. lia. }
  assert (Rf : GET st3 (bp - D) = GET st (bp - D)) by (apply Hlow; lia).
  assert (Epf : prev_is_free p st3 bp = prev_is_free p st bp).
  { unfold prev_is_free. by rewrite (GET_ALLOC_eq st st3). }
  assert (Epb : PREV_BLKP p st3 bp = PREV_BLKP p st bp).
  { unfold PREV_BLKP. by rewrite (GET_SIZE_eq st st3). }
  assert (Enb : NEXT_BLKP p st3 bp = bp + size).
  { unfold NEXT_BLKP. fold (HDRP p bp). fold (block_size p st3 bp).
    by rewrite S3. }
  assert (Enf : next_is_free p st3 bp = false).
  { unfold next_is_free. rewrite Enb. unfold HDRP.
    by destruct (GET_ALLOC_PACK_1 st3 (bp + size - W) 0 eq_refl R3) as [_ ->]. }
  assert (Efb : freed_block p st3 bp = grown_block p st).
  { unfold freed_block, grown_block. fold bp. by rewrite Epf, Epb. }
  assert (Efs : freed_size p st3 bp = grown_size p st size).
  { unfold freed_size, grown_size. fold bp.
    rewrite Epf, Enf, S3, (GET_SIZE_eq st st3) by done. lia. }
  assert (Efl : freed_lists p st3 bp L = grown_lists p st size L).
  { unfold freed_lists, grown_lists. fold bp.
    by rewrite Epf, Enf, Epb, Efb, Efs. }
  assert (HP3 : free_pre p st3 bp L).
  { constructor.
    - exact HT3.
    - exact Hpos.
    - by rewrite S3.
    - by rewrite Efs.
    - intros n Hn. left. rewrite Hbs by done. by apply Hbl.
    - intros c Hc. left. apply Hsn. unfold sentinel, seg_entry in *.
      by rewrite <- Gs.
    - rewrite Epb, (GET_SIZE_eq st st3 (bp - D)) by done.
      split; [done|]. rewrite <- Hfsz. unfold block_size.
      apply GET_SIZE_eq, Hlow. unfold HDRP, PREV_BLKP. lia.
    - rewrite Epf, Epb. exact Hprev.
    - by rewrite Enf. }
  destruct (free_pre_coalesce p st3 bp L HP3) as (Hpre & Hmb & Hms & _).
  rewrite Hmark in Hpre, Hmb, Hms.
  destruct (coalesce_spec p st3 bp L Hpre) as (Hr & _ & _ & _ & Hfr).
  destruct (coalesce_arena p st3 bp) as [(Cs & Ch & Cm) Cb].
  destruct (mm_free_table p st3 bp L HP3)
    as (HT' & Hin & Hsz & _ & Hle & Hge & _).
  rewrite (mm_free_coalesce p st3 bp) in HT', Hsz by (unfold NULL; lia).
  rewrite Hmark in HT', Hsz.
  rewrite Efl in HT', Hin. rewrite Efs in Hin, Hsz, Hge.
  rewrite Efb in Hin, Hsz, Hle, Hge. rewrite S3 in Hge.
  rewrite Hmb, Efb in Hr. rewrite Hmb, Hms, Efb, Efs in Hfr.
  assert (Hgpos : 0 < grown_block p st).
  { unfold grown_block. fold bp.
    destruct (prev_is_free p st bp) eqn:Hpf; [|done].
    by apply (ft_pos _ _ _ HT), Hprev. }
  assert (Hend : grown_block p st + grown_size p st size = bp + size).
  { unfold grown_block, grown_size. fold bp.
    destruct (prev_is_free p st bp); unfold PREV_BLKP; lia. }
  destruct (coalesce p st3 bp) as [b st4]. cbn [fst snd] in *. subst b.
  split; [done|]. split; [unfold NULL; lia|].
  split; [exact HT'|]. split; [exact Hin|]. split; [exact Hsz|].
  split; [lia|]. split; [by rewrite Cb|].
  split; [|repeat split; congruence].
  rewrite Cb, Gb, Hfr; [done|lia|].
  intros c [Hc|Hc].
  - right. assert (Hc' : sentinel p st c).
    { unfold sentinel, seg_entry in *. by rewrite <- Gs. }
    pose proof (Hsn c Hc'). lia.
  - right. pose proof (Hbl c Hc). pose proof (ft_size _ _ _ HT c Hc). lia.
Qed.

(** The bytes [mm_malloc] asks [extend_heap] for cover the adjusted size of
    the request, unless the byte count wraps around to less than a minimum
    block. *)
Lemma extend_covers (asize : Z) :
  asize mod 8 = 0 -> 0 <= asize < wmod p ->
  2 * D <= extend_bytes p (MAX asize CHUNKSIZE / W) ->
  asize <= extend_bytes p (MAX asize CHUNKSIZE / W).
Proof.
  intros Hmod Ha Hmin.
  destruct (wbounds p) as (HW & HD & Hm & Hm8).
  assert (HC : CHUNKSIZE = 4096) by reflexivity.
  set (M := MAX asize CHUNKSIZE) in *.
  assert (HM : asize <= M /\ 4096 <= M < wmod p /\ M mod 8 = 0).
  { unfold M, MAX. destruct (Z.gtb_spec asize CHUNKSIZE).
    - split; [lia|]. split; [lia|done].
    - rewrite HC in *. split; [lia|]. split; [lia|reflexivity]. }
  destruct HM as (HM1 & HM2 & HM3).
  assert (HMW : M / W * W = M /\ 0 <= M / W <= M).
  { pose proof (Z.div_mod M 8 ltac:(lia)) as Hd8.
    destruct p; simpl in *.
    - assert (M = M / 8 * 2 * 4) as E by lia.
      split; [rewrite E at 1; rewrite Z.div_mul by lia; lia|].
      split; [apply Z.div_pos; lia|apply Z.div_le_upper_bound; lia].
    - assert (M = M / 8 * 8) as E by lia.
      split; [rewrite E at 1; rewrite Z.div_mul by lia; lia|].
      split; [apply Z.div_pos; lia|apply Z.div_le_upper_bound; lia]. }
  destruct HMW as [HMW Hwds].
  pose proof (Z.div_mod (wmod p) 8 ltac:(lia)) as Hw8.
  pose proof (Z.div_mod M 8 ltac:(lia)) as Hd8.
  revert Hmin. unfold extend_bytes, wmul, wadd.
  destruct (negb (M / W mod 2 =? 0)).
  - rewrite (wrap_small p (M / W + 1)) by lia.
    replace ((M / W + 1) * W) with (M + W) by lia.
    destruct (Z.lt_ge_cases (M + W) (wmod p)).
    + rewrite wrap_small by lia. lia.
    + assert (M + W = wmod p) as -> by lia.
      unfold wrap. rewrite Z.mod_same by lia. lia.
  - rewrite HMW, wrap_small by lia. lia.
Qed.
End GrowTable.

(** X19: [extend_heap] keeps the free table.  On a heap whose free table
    lies below the break and whose last block has consistent boundary tags,
    a request the arena has room for moves the break by the requested bytes
    and ends the heap in a new epilogue header; the new region, merged with
    the last block when that block is free, is returned as a free block at
    the head of the list of the class of its size. *)
Theorem extend_heap_keeps_free_table
    (p : platform) (st : heap) (L : Z -> list Z) (words : Z) :
  grow_pre p st (extend_bytes p words) L ->
  let size := extend_bytes p words in
  let r := extend_heap p st words in
  fst r = grown_block p st /\
  fst r <> NULL /\
  free_table p (snd r) (grown_lists p st size L) /\
  fst r ∈ grown_lists p st size L (seg_index (grown_size p st size)) /\
  block_size p (snd r) (fst r) = grown_size p st size /\
  size <= grown_size p st size /\
  mem_brk (snd r) = mem_brk st + size /\
  GET (snd r) (mem_brk (snd r) - WSIZE p) = PACK 0 1 /\
  same_globals st (snd r).
Proof. apply extend_heap_table. Qed.

Lemma extend_heap_keeps_free_table_witness :
  fst (extend_heap LP64 (init_heap 16384) 512) = 4288 /\
  free_table LP64 (snd (extend_heap LP64 (init_heap 16384) 512))
    (grown_lists LP64 (init_heap 16384) (extend_bytes LP64 512)
       (initial_lists LP64 4096)).
Proof.
  destruct (extend_heap_keeps_free_table LP64 (init_heap 16384)
              (initial_lists LP64 4096) 512) as (H1 & _ & H3 & _).
  - apply grow_preb_spec. vm_compute. reflexivity.
  - split; [|exact H3]. rewrite H1. vm_compute. reflexivity.
Defined.

(** X20: a request that no listed block can serve, on a heap that can
    grow.  [mm_malloc] extends the heap by the larger of the adjusted size
    and [CHUNKSIZE] and places the request in the block [extend_heap]
    returns: the result is not [NULL], it is marked allocated and large
    enough for the payload and the two tags, the free table is kept, and
    the break moves by exactly the bytes asked of [mem_sbrk]. *)
Theorem mm_malloc_grows_heap
    (p : platform) (fuel : nat) (st : heap) (L : Z -> list Z) (size : Z) :
  0 < size -> size + DSIZE p + 7 < wmod p ->
  (forall j, 0 <= j < SEGSIZE -> (length (L j) < fuel)%nat) ->
  let asize := malloc_asize p size in
  let words := MAX asize CHUNKSIZE / WSIZE p in
  first_fit p st L asize = NULL ->
  grow_pre p st (extend_bytes p words) L ->
  let r := extend_heap p st words in
  let L' := placed_lists p (snd r) (fst r) asize
              (grown_lists p st (extend_bytes p words) L) in
  exists st',
    mm_malloc p fuel st size = Some (fst r, st') /\
    fst r <> NULL /\
    free_table p st' L' /\
    ~ node L' (fst r) /\
    GET_ALLOC st' (HDRP p (fst r)) = 1 /\
    size + DSIZE p <= GET_SIZE st' (HDRP p (fst r)) /\
    mem_brk st' = mem_brk st + extend_bytes p words.
Proof.
  intros Hsize Hfit Hfuel asize words Hnone HG r L'.
  destruct (wbounds p) as (HW & HD & Hm & _).
  pose proof (gp_table _ _ _ _ HG) as HT.
  destruct (gp_size _ _ _ _ HG) as [Hgmin _].
  destruct (malloc_asize_bounds p size Hsize Hfit) as (Hmod & Hroom & Hmin).
  fold asize in Hmod, Hroom, Hmin.
  assert (Hlt : 0 <= asize < wmod p).
  { split; [lia|]. unfold asize, malloc_asize, adjust_size.
    destruct (_ <=? _); [lia|]. unfold wmul, wrap.
    apply Z.mod_pos_bound. lia. }
  pose proof (extend_covers p asize Hmod Hlt Hgmin) as Hcov.
  destruct (extend_heap_table p st L words HG)
    as (Hr & Hnn & HT1 & Hin & Hsz & Hle & Hbrk & _).
  fold words r in Hcov, Hr, Hnn, HT1, Hin, Hsz, Hle, Hbrk.
  assert (Hnode : node (grown_lists p st (extend_bytes p words) L) (fst r)).
  { eexists. split; [apply seg_index_range|exact Hin]. }
  destruct (place_table p (snd r) (fst r) asize _ HT1 Hnode Hmin Hmod
              ltac:(lia))
    as (HT' & Hnot & Hal & Hgs & _ & Hused & Hpb & _).
  exists (place p (snd r) (fst r) asize).
  split; [|repeat (split; [done|]); split; [lia|congruence]].
  unfold mm_malloc. destruct (Z.eqb_spec size 0); [lia|]. fold asize.
  rewrite (find_fit_scan p fuel st L asize);
    [|by apply (ft_lists _ _ _ HT)|exact (node_nonnull p st L HT)|done].
  rewrite Hnone. simpl. fold words. fold r.
  destruct r as [b st1]. simpl in *.
  by destruct (Z.eqb_spec b NULL).
Qed.

Lemma mm_malloc_grows_heap_witness :
  exists st',
    mm_malloc LP64 8 (init_heap 16384) 5000 = Some (4288, st') /\
    mem_brk st' = mem_brk (init_heap 16384) + 5024.
Proof.
  destruct (mm_malloc_grows_heap LP64 8 (init_heap 16384)
              (initial_lists LP64 4096) 5000)
    as (st' & H1 & _ & _ & _ & _ & _ & H7).
  - lia.
  - vm_compute. reflexivity.
  - apply fuel_coversb_spec. vm_compute. reflexivity.
  - vm_compute. reflexivity.
  - apply grow_preb_spec. vm_compute. reflexivity.
  - exists st'. split; [rewrite H1|rewrite H7]; vm_compute; reflexivity.
Defined.
